(** * opto-loop-sim: the cell physics of [microscope_sim.py]

    A shallow embedding of [wrap], [polygon_area], the class [Cell]
    ([__init__], [stimulate], [update], [collide], [_rel_pts],
    [_conserve_area]) and the physics part of [MicroscopeSim]
    ([__init__], [reset], [get_frame]).

    Conventions of the embedding.
    - NumPy / Python floats are idealised as real numbers ([R]); rounding
      error, infinities and NaN are outside the model.  The places where
      the source raises, or where NumPy would produce [nan] from real
      operands, are kept as explicit faults of type [fault].  Where
      rounding changes which side of a bound or of a test a value falls
      on, the statements say so: [wrap] is also given on binary64
      numbers ([Float64.wrap]), and nothing is concluded from an area
      that is zero only in exact arithmetic.
    - NumPy arrays are lists; a 2-vector ([center], [vel]) is a pair.
    - The shared [random.Random] object is an explicit generator state
      threaded through every method that holds a reference to it. *)

From Stdlib Require Import Reals Lra Lia Psatz List ZArith Bool.
From Stdlib Require PrimFloat FloatOps SpecFloat.
Import ListNotations.
Open Scope R_scope.

(* ------------------------------------------------------------------ *)
(** ** Faults and results                                              *)
(* ------------------------------------------------------------------ *)

(** What a call can end with instead of a value: the Python exceptions
    [ValueError], [IndexError], [OverflowError], and [NotANumber] for the
    places where NumPy silently produces [nan] (a modulo by zero). *)
Inductive fault : Type :=
| ValueError
| IndexError
| OverflowError
| NotANumber.

Inductive result (A : Type) : Type :=
| Ok (a : A)
| Raise (e : fault).

Arguments Ok {A} a.
Arguments Raise {A} e.

Definition rbind {A B : Type} (x : result A) (k : A -> result B) : result B :=
  match x with
  | Ok a => k a
  | Raise e => Raise e
  end.

Definition is_ok {A : Type} (x : result A) : bool :=
  match x with Ok _ => true | Raise _ => false end.

(* ------------------------------------------------------------------ *)
(** ** Numeric helpers                                                 *)
(* ------------------------------------------------------------------ *)

Definition vec2 : Type := (R * R)%type.

(** Boolean tests on reals, as NumPy's elementwise comparisons. *)
Definition Rleb (x y : R) : bool := if Rle_dec x y then true else false.
Definition Rltb (x y : R) : bool := if Rlt_dec x y then true else false.
Definition Reqb (x y : R) : bool := if Req_dec_T x y then true else false.

(** [x % w] in exact arithmetic: the result has the sign of the
    divisor; NumPy gives [nan] for [w = 0].  On floats the last step of
    [%] is a rounded addition, which for a negative [x] of tiny
    magnitude yields [w] itself: that case is [Float64.remainder]. *)
Definition pymod (x : R) (w : Z) : result R :=
  if Z.eqb w 0 then Raise NotANumber
  else Ok (x - IZR w * IZR (Int_part (x / IZR w))).

(** [wrap(pos, width, height)], source lines 25-26. *)
Definition wrap (pos : vec2) (width height : Z) : result vec2 :=
  rbind (pymod (fst pos) width) (fun x =>
  rbind (pymod (snd pos) height) (fun y =>
  Ok (x, y))).

(** The same two functions on IEEE binary64 numbers, Rocq's primitive
    floats, with every rounding the source performs. *)
Module Float64.
Import PrimFloat FloatOps SpecFloat.

(** A Python [int] of magnitude below [2^63] as a float. *)
Definition of_int (z : Z) : float :=
  match z with
  | Z0 => zero
  | Zpos m => SF2Prim (S754_finite false m 0)
  | Zneg m => SF2Prim (S754_finite true m 0)
  end.

(** C's [fmod]: the remainder of the division truncated toward zero,
    with the sign of [x].  It is exact, so it is computed on the
    integer mantissas brought to one exponent. *)
Definition fmod (x y : float) : float :=
  match Prim2SF x, Prim2SF y with
  | S754_nan, _ | _, S754_nan => nan
  | S754_infinity _, _ => nan
  | _, S754_zero _ => nan
  | S754_zero _, _ => x
  | S754_finite _ _ _, S754_infinity _ => x
  | S754_finite sx mx ex, S754_finite _ my ey =>
      let e := Z.min ex ey in
      let X := (Z.pos mx * 2 ^ (ex - e))%Z in
      let Y := (Z.pos my * 2 ^ (ey - e))%Z in
      match (X mod Y)%Z with
      | Z.pos m => SF2Prim (S754_finite sx m e)
      | _ => SF2Prim (S754_zero sx)
      end
  end.

(** [a % b] on floats, as NumPy and CPython compute it: [fmod], then
    [+ b] (rounded) when the remainder is not zero and its sign is not
    the divisor's; a zero remainder takes the divisor's sign; [b = 0]
    gives [nan]. *)
Definition remainder (a b : float) : float :=
  let m := fmod a b in
  if eqb b 0 then m
  else if negb (eqb m 0)
       then (if Bool.eqb (ltb b 0) (ltb m 0) then m else m + b)%float
       else (if ltb b 0 then neg_zero else zero).

(** [wrap(pos, width, height)], source lines 25-26. *)
Definition wrap (pos : float * float) (width height : Z) : float * float :=
  (remainder (fst pos) (of_int width), remainder (snd pos) (of_int height)).

End Float64.

(** [astype(int)]: truncation toward zero. *)
Definition trunc_int (x : R) : Z :=
  if Rle_dec 0 x then Int_part x else (- Int_part (- x))%Z.

(** Python's [round] on a float: nearest integer, ties to even. *)
Definition round_half_even (x : R) : Z :=
  let f := Int_part x in
  let d := x - IZR f in
  if Rlt_dec d (1 / 2) then f
  else if Rlt_dec (1 / 2) d then (f + 1)%Z
  else if Z.even f then f else (f + 1)%Z.

(** [np.clip(a, lo, hi)] is [minimum(hi, maximum(a, lo))]. *)
Definition clip1 (lo hi x : R) : R := Rmin hi (Rmax x lo).
Definition clip (xs : list R) (lo hi : R) : list R := map (clip1 lo hi) xs.

(** [np.roll(a, -1)] and [np.roll(a, 1)]. *)
Definition roll_left {A : Type} (xs : list A) : list A :=
  match xs with
  | [] => []
  | x :: t => t ++ [x]
  end.

Definition roll_right {A : Type} (xs : list A) : list A :=
  match rev xs with
  | [] => []
  | l :: t => l :: rev t
  end.

(** Elementwise binary operation on two arrays of one length. *)
Fixpoint zip_with {A B C : Type} (f : A -> B -> C) (xs : list A) (ys : list B)
  : list C :=
  match xs, ys with
  | x :: xt, y :: yt => f x y :: zip_with f xt yt
  | _, _ => []
  end.

(** [a @ b] for two 1-d arrays. *)
Fixpoint dot (xs ys : list R) : R :=
  match xs, ys with
  | x :: xt, y :: yt => x * y + dot xt yt
  | _, _ => 0
  end.

Definition rsum (xs : list R) : R := fold_right Rplus 0 xs.

(** [np.linalg.norm] of a 2-vector. *)
Definition norm2 (v : vec2) : R := sqrt (fst v * fst v + snd v * snd v).

(** Python's builtin [max] over an array: [ValueError] when it is empty. *)
Definition pymax (xs : list R) : result R :=
  match xs with
  | [] => Raise ValueError
  | x :: t => Ok (fold_left Rmax t x)
  end.

(** [math.sqrt]: [ValueError] on a negative argument. *)
Definition math_sqrt (x : R) : result R :=
  if Rlt_dec x 0 then Raise ValueError else Ok (sqrt x).

(** [polygon_area(pts)], source lines 28-31.  [pts[:, 0]] needs a 2-d
    array, which [np.asarray] of an empty list is not.  The value is the
    exact one; where it is 0 by cancellation (two points), the computed
    one is a rounding residue. *)
Definition polygon_area (pts : list vec2) : result R :=
  match pts with
  | [] => Raise IndexError
  | _ =>
      let x := map fst pts in
      let y := map snd pts in
      Ok (0.5 * (dot x (roll_left y) - dot y (roll_left x)))
  end.

(* ------------------------------------------------------------------ *)
(** ** The random source                                               *)
(* ------------------------------------------------------------------ *)

(** The generator is an external collaborator ([random.Random]); its
    three primitive draws are the interface.  [next_gauss] is the
    standard deviate that [normalvariate]'s rejection loop accepts. *)
Class PyRandom (G : Type) : Type := {
  seed_rng : Z -> G;
  next_random : G -> R * G;
  next_gauss : G -> R * G;
  next_below : Z -> G -> Z * G;
  next_random_range : forall g, 0 <= fst (next_random g) < 1;
  next_below_range :
    forall n g, (0 < n)%Z -> (0 <= fst (next_below n g) < n)%Z
}.

Section Draws.
Context {G : Type} `{PyRandom G}.

(** [Random.uniform(a, b)] is [a + (b - a) * self.random()]. *)
Definition uniform (a b : R) (g : G) : R * G :=
  let (u, g') := next_random g in (a + (b - a) * u, g').

(** [Random.normalvariate(mu, sigma)] returns [mu + z * sigma]. *)
Definition normalvariate (mu sigma : R) (g : G) : R * G :=
  let (z, g') := next_gauss g in (mu + z * sigma, g').

(** [Random.randint(a, b)] is [randrange(a, b + 1)], that is
    [a + _randbelow(b + 1 - a)]: both ends are included. *)
Definition randint (a b : Z) (g : G) : Z * G :=
  let (k, g') := next_below (b + 1 - a) g in ((a + k)%Z, g').
End Draws.

(* ------------------------------------------------------------------ *)
(** ** The state-and-fault monad of the methods                        *)
(* ------------------------------------------------------------------ *)

(** A method runs against the shared generator and either returns a
    value with the generator it leaves behind, or raises. *)
Definition M (G A : Type) : Type := G -> result (A * G).

Definition ret {G A : Type} (a : A) : M G A := fun g => Ok (a, g).

Definition bind {G A B : Type} (m : M G A) (k : A -> M G B) : M G B :=
  fun g =>
    match m g with
    | Ok (a, g') => k a g'
    | Raise e => Raise e
    end.

(** A draw from the generator. *)
Definition rand {G A : Type} (d : G -> A * G) : M G A := fun g => Ok (d g).

(** A computation that does not touch the generator. *)
Definition pure_step {G A : Type} (x : result A) : M G A :=
  fun g =>
    match x with
    | Ok a => Ok (a, g)
    | Raise e => Raise e
    end.

Declare Scope pysim_scope.
Delimit Scope pysim_scope with pysim.
Notation "x <- m ;; k" := (bind m (fun x => k))
  (at level 61, m at next level, right associativity) : pysim_scope.
Open Scope pysim_scope.

(* ------------------------------------------------------------------ *)
(** ** Stimulation masks                                               *)
(* ------------------------------------------------------------------ *)

(** A 2-d boolean array of shape [(shape0, shape1)], indexed
    [mask[row, col]]. *)
Record Mask : Type := mkMask {
  shape0 : nat;
  shape1 : nat;
  pixel : nat -> nat -> bool
}.

(** NumPy's bounds check of one index against an axis of length [n]:
    [-n <= i < n], negative indices counting from the end. *)
Definition np_index (n : nat) (i : Z) : result nat :=
  if ((0 <=? i) && (i <? Z.of_nat n))%Z then Ok (Z.to_nat i)
  else if ((- Z.of_nat n <=? i) && (i <? 0))%Z then Ok (Z.to_nat (Z.of_nat n + i))
  else Raise IndexError.

(** [mask[iy, ix]] for one pair of indices. *)
Definition mask_at (m : Mask) (iy ix : Z) : result bool :=
  rbind (np_index (shape0 m) iy) (fun row =>
  rbind (np_index (shape1 m) ix) (fun col =>
  Ok (pixel m row col))).

(** [mask[iy, ix]] for index arrays; any index out of bounds raises. *)
Fixpoint mask_take (m : Mask) (iy ix : list Z) : result (list bool) :=
  match iy, ix with
  | y :: yt, x :: xt =>
      rbind (mask_at m y x) (fun b =>
      rbind (mask_take m yt xt) (fun bs => Ok (b :: bs)))
  | _, _ => Ok []
  end.

(** [mask.any()]. *)
Definition mask_any (m : Mask) : bool :=
  existsb (fun row => existsb (fun col => pixel m row col) (seq 0 (shape1 m)))
          (seq 0 (shape0 m)).

(** [a[flags]]: the elements selected by a boolean array. *)
Fixpoint compress {A : Type} (flags : list bool) (xs : list A) : list A :=
  match flags, xs with
  | f :: ft, x :: xt => if f then x :: compress ft xt else compress ft xt
  | _, _ => []
  end.

(** [flags.any()]. *)
Definition any (flags : list bool) : bool := existsb (fun b => b) flags.

(** [np.nonzero(flags)[0]]. *)
Definition nonzero (flags : list bool) : list nat :=
  compress flags (seq 0 (length flags)).

(** [a[idx]] for an index array within bounds. *)
Definition take (xs : list R) (idx : list nat) : list R :=
  map (fun i => nth i xs 0) idx.

(** [a[idx] += d]: every selected position is increased once. *)
Definition add_at (idx : list nat) (d : R) (xs : list R) : list R :=
  zip_with (fun i x => if existsb (Nat.eqb i) idx then x + d else x)
           (seq 0 (length xs)) xs.

(** [a.mean()] of a non-empty array. *)
Definition mean (xs : list R) : R := rsum xs / INR (length xs).

(* ------------------------------------------------------------------ *)
(** ** Cell                                                            *)
(* ------------------------------------------------------------------ *)

Record Cell : Type := mkCell {
  width : Z;
  height : Z;
  base_r : R;
  r : list R;
  angles : list R;
  area0 : R;
  vel : vec2;
  vertices : nat;
  friction : R;
  brownian_d : R;
  curvature_relax : R;
  radial_relax : R;
  protrusion_gain : R;
  impulse : R;
  ruffle_std : R;
  center : vec2
}.

Definition set_r (c : Cell) (r' : list R) : Cell :=
  mkCell (width c) (height c) (base_r c) r' (angles c) (area0 c) (vel c)
         (vertices c) (friction c) (brownian_d c) (curvature_relax c)
         (radial_relax c) (protrusion_gain c) (impulse c) (ruffle_std c)
         (center c).

Definition set_vel (c : Cell) (v : vec2) : Cell :=
  mkCell (width c) (height c) (base_r c) (r c) (angles c) (area0 c) v
         (vertices c) (friction c) (brownian_d c) (curvature_relax c)
         (radial_relax c) (protrusion_gain c) (impulse c) (ruffle_std c)
         (center c).

Definition set_center (c : Cell) (p : vec2) : Cell :=
  mkCell (width c) (height c) (base_r c) (r c) (angles c) (area0 c) (vel c)
         (vertices c) (friction c) (brownian_d c) (curvature_relax c)
         (radial_relax c) (protrusion_gain c) (impulse c) (ruffle_std c)
         p.

(** [np.linspace(0, 2 * math.pi, vertices, endpoint=False)]. *)
Definition linspace_2pi (n : nat) : list R :=
  map (fun i => INR i * (2 * PI / INR n)) (seq 0 n).

(** The two ends of the radius band used by both [np.clip] calls. *)
Definition band_lo (c : Cell) : R := 0.4 * base_r c.
Definition band_hi (c : Cell) : R := 2.2 * base_r c.

(** [_rel_pts], source lines 164-165. *)
Definition _rel_pts (c : Cell) : list vec2 :=
  zip_with (fun x y => (x, y))
           (zip_with Rmult (map cos (angles c)) (r c))
           (zip_with Rmult (map sin (angles c)) (r c)).

(** The vertex positions that [_conserve_area] hands to [polygon_area]. *)
Definition abs_pts (c : Cell) : list vec2 :=
  map (fun p => (fst p + fst (center c), snd p + snd (center c))) (_rel_pts c).

(** [_conserve_area], source lines 167-171.  [if area:] is decided in
    exact arithmetic: an outline whose exact area is 0 but whose
    computed area is a rounding residue (two vertices) is rescaled by
    the code, and no statement below concludes from that case. *)
Definition _conserve_area (c : Cell) : result Cell :=
  rbind (polygon_area (abs_pts c)) (fun a =>
  let area := Rabs a in
  if Req_dec_T area 0 then Ok c
  else rbind (math_sqrt (area0 c / area)) (fun s =>
       Ok (set_r c (map (fun x => x * s) (r c))))).

(** Radii after the ruffling line (source lines 105-107): one amplitude
    [sample], one harmonic [k] and one phase for the whole cell. *)
Definition ruffled (sample : R) (k : Z) (phase : R) (c : Cell) : list R :=
  zip_with Rplus (r c)
           (map (fun a => sample * cos (IZR k * a + phase)) (angles c)).

(** [lap], source line 108. *)
Definition lap (rs : list R) : list R :=
  zip_with Rminus (zip_with Rplus (roll_left rs) (roll_right rs))
           (map (Rmult 2) rs).

(** Radii after the relaxation line (source line 109). *)
Definition relaxed (c : Cell) (rs : list R) : list R :=
  zip_with Rplus rs
           (zip_with Rplus (map (Rmult (curvature_relax c)) (lap rs))
                     (map (fun x => radial_relax c * (base_r c - x)) rs)).

(** Raw vertex coordinates, source lines 64-65. *)
Definition vertex_x (c : Cell) : list R :=
  map (Rplus (fst (center c))) (zip_with Rmult (map cos (angles c)) (r c)).

Definition vertex_y (c : Cell) : list R :=
  map (Rplus (snd (center c))) (zip_with Rmult (map sin (angles c)) (r c)).

(** [inside], source line 68. *)
Definition inside_flags (c : Cell) : list bool :=
  zip_with
    (fun x y =>
       Rleb 0 x && Rltb x (IZR (width c)) && Rleb 0 y && Rltb y (IZR (height c)))
    (vertex_x c) (vertex_y c).

(** [round(d / w)]: a zero [w] gives [nan] or an infinity, which [round]
    refuses. *)
Definition round_div (d : R) (w : Z) : result Z :=
  if Z.eqb w 0 then
    if Req_dec_T d 0 then Raise ValueError else Raise OverflowError
  else Ok (round_half_even (d / IZR w)).

Section Methods.
Context {G : Type} `{PyRandom G}.

(** [Cell.__init__], source lines 37-54.  Three draws, in this order:
    [random()], [uniform(0, width)], [uniform(0, height)]. *)
Definition Cell_init (width height : Z) (base_radius : R) (vertices : nat)
           (friction brownian_d curvature_relax radial_relax
            protrusion_gain impulse ruffle_std : R) : M G Cell :=
  u <- rand next_random ;;
  let base_r := base_radius * (0.85 + 0.3 * u) in
  cx <- rand (uniform 0 (IZR width)) ;;
  cy <- rand (uniform 0 (IZR height)) ;;
  ret (mkCell width height base_r (repeat base_r vertices)
              (linspace_2pi vertices) (PI * (base_r * base_r)) (0, 0)
              vertices friction brownian_d curvature_relax radial_relax
              protrusion_gain impulse ruffle_std (cx, cy)).

(** [Cell.stimulate], source lines 57-94.  [if n:] is decided in exact
    arithmetic; where the hit vertices' centroid is the centre exactly,
    the code may still see a rounding residue and kick. *)
Definition stimulate (mask : Mask) (c : Cell) : M G Cell :=
  let vx := vertex_x c in
  let vy := vertex_y c in
  let inside := inside_flags c in
  if negb (any inside) then ret c
  else
    let ix := map trunc_int (compress inside vx) in
    let iy := map trunc_int (compress inside vy) in
    hit <- pure_step (mask_take mask iy ix) ;;
    if negb (any hit) then ret c
    else
      let idx := compress hit (nonzero inside) in
      let r1 := add_at idx (protrusion_gain c * base_r c) (r c) in
      let r2 := clip r1 (band_lo c) (band_hi c) in
      c1 <- pure_step (_conserve_area (set_r c r2)) ;;
      let tgt := (mean (take vx idx), mean (take vy idx)) in
      let vec := (fst tgt - fst (center c1), snd tgt - snd (center c1)) in
      let n := norm2 vec in
      if Req_dec_T n 0 then ret c1
      else ret (set_vel c1 (fst (vel c1) + fst vec / n * impulse c1,
                            snd (vel c1) + snd vec / n * impulse c1)).

(** [Cell.update], source lines 97-111.  Five draws, in this order:
    Brownian amplitude, Brownian heading, ruffle amplitude, ruffle
    harmonic, ruffle phase. *)
Definition update (dt : R) (c : Cell) : M G Cell :=
  sigma <- pure_step (math_sqrt (2 * brownian_d c * dt)) ;;
  amp <- rand (normalvariate 0 sigma) ;;
  ang <- rand (uniform 0 (2 * PI)) ;;
  let vel1 := (fst (vel c) + amp * cos ang, snd (vel c) + amp * sin ang) in
  let center1 := (fst (center c) + fst vel1 * dt,
                  snd (center c) + snd vel1 * dt) in
  center2 <- pure_step (wrap center1 (width c) (height c)) ;;
  let f := Rmax 0 (1 - friction c * dt) in
  let vel2 := (fst vel1 * f, snd vel1 * f) in
  sample <- rand (normalvariate 0 (ruffle_std c * base_r c)) ;;
  k <- rand (randint 1 3) ;;
  phase <- rand (uniform 0 (2 * PI)) ;;
  let r1 := ruffled sample k phase c in
  let r2 := relaxed c r1 in
  let r3 := clip r2 (band_lo c) (band_hi c) in
  pure_step (_conserve_area (set_r (set_center (set_vel c vel2) center2) r3)).

(** [Cell.collide], source lines 114-133; [a] is [self], [b] is
    [other]. *)
Definition collide (a b : Cell) : M G (Cell * Cell) :=
  let dvx0 := fst (center b) - fst (center a) in
  let dvy0 := snd (center b) - snd (center a) in
  kx <- pure_step (round_div dvx0 (width a)) ;;
  let dvx := dvx0 - IZR (width a) * IZR kx in
  ky <- pure_step (round_div dvy0 (height a)) ;;
  let dvy := dvy0 - IZR (height a) * IZR ky in
  let dist := norm2 (dvx, dvy) in
  if Req_dec_T dist 0 then ret (a, b)
  else
    ma <- pure_step (pymax (r a)) ;;
    mb <- pure_step (pymax (r b)) ;;
    let overlap := ma + mb - dist in
    if Rle_dec overlap 0 then ret (a, b)
    else
      let sx := 0.5 * (overlap + 0.5) * (dvx / dist) in
      let sy := 0.5 * (overlap + 0.5) * (dvy / dist) in
      ca <- pure_step (wrap (fst (center a) - sx, snd (center a) - sy)
                            (width a) (height a)) ;;
      cb <- pure_step (wrap (fst (center b) + sx, snd (center b) + sy)
                            (width b) (height b)) ;;
      ret (set_vel (set_center a ca) (0, 0),
           set_vel (set_center b cb) (0, 0)).
End Methods.

(* ------------------------------------------------------------------ *)
(** ** MicroscopeSim                                                   *)
(* ------------------------------------------------------------------ *)

(** The constructor's arguments that reach the physics (the rendering
    ones, [contrast] to [overlay_mask], do not). *)
Record Config : Type := mkConfig {
  cfg_width : Z;
  cfg_height : Z;
  cfg_nb_cells : nat;
  cfg_vertices : nat;
  cfg_base_radius : R;
  cfg_friction : R;
  cfg_brownian_d : R;
  cfg_curvature_relax : R;
  cfg_radial_relax : R;
  cfg_protrusion_gain : R;
  cfg_impulse : R;
  cfg_ruffle_std : R;
  cfg_rng_seed : Z
}.

Record Sim (G : Type) : Type := mkSim {
  config : Config;
  rng : G;
  _cells : list Cell;
  _last_time : R
}.

Arguments mkSim {G} _ _ _ _.
Arguments config {G} _.
Arguments rng {G} _.
Arguments _cells {G} _.
Arguments _last_time {G} _.

Fixpoint set_nth {A : Type} (i : nat) (x : A) (xs : list A) : list A :=
  match i, xs with
  | _, [] => []
  | O, _ :: t => x :: t
  | S i', y :: t => y :: set_nth i' x t
  end.

(** The index pairs of [itertools.combinations(range(n), 2)], in its
    order. *)
Definition index_pairs (n : nat) : list (nat * nat) :=
  flat_map (fun i => map (fun j => (i, j)) (seq (S i) (n - S i))) (seq 0 n).

Section Simulator.
Context {G : Type} `{PyRandom G}.

(** [for c in cells: f(c)], each call seeing the generator the
    previous one left. *)
Fixpoint for_each (f : Cell -> M G Cell) (cs : list Cell) : M G (list Cell) :=
  match cs with
  | [] => ret []
  | c :: t =>
      c' <- f c ;;
      t' <- for_each f t ;;
      ret (c' :: t')
  end.

(** The list comprehension that builds the population. *)
Fixpoint make_cells (cfg : Config) (n : nat) : M G (list Cell) :=
  match n with
  | O => ret []
  | S n' =>
      c <- Cell_init (cfg_width cfg) (cfg_height cfg) (cfg_base_radius cfg)
                     (cfg_vertices cfg) (cfg_friction cfg) (cfg_brownian_d cfg)
                     (cfg_curvature_relax cfg) (cfg_radial_relax cfg)
                     (cfg_protrusion_gain cfg) (cfg_impulse cfg)
                     (cfg_ruffle_std cfg) ;;
      t <- make_cells cfg n' ;;
      ret (c :: t)
  end.

(** [MicroscopeSim.__init__]; [now] is the reading of
    [time.perf_counter()]. *)
Definition Sim_init (cfg : Config) (now : R) : result (Sim G) :=
  rbind (make_cells cfg (cfg_nb_cells cfg) (seed_rng (cfg_rng_seed cfg)))
        (fun p => Ok (mkSim cfg (snd p) (fst p) now)).


(** One [a.collide(b)] of the pair loop, on the cells at positions
    [i] and [j]. *)
Definition collide_at (cs : list Cell) (ij : nat * nat) : M G (list Cell) :=
  match nth_error cs (fst ij), nth_error cs (snd ij) with
  | Some a, Some b =>
      ab <- collide a b ;;
      ret (set_nth (snd ij) (snd ab) (set_nth (fst ij) (fst ab) cs))
  | _, _ => ret cs
  end.

Fixpoint collide_pairs (ps : list (nat * nat)) (cs : list Cell)
  : M G (list Cell) :=
  match ps with
  | [] => ret cs
  | ij :: t => cs' <- collide_at cs ij ;; collide_pairs t cs'
  end.

(** The physics of one frame for a given [dt], source lines 245-252. *)
Definition tick (mask : Mask) (dt : R) (cs : list Cell) : M G (list Cell) :=
  cs1 <- (if mask_any mask then for_each (stimulate mask) cs else ret cs) ;;
  cs2 <- for_each (update dt) cs1 ;;
  collide_pairs (index_pairs (length cs2)) cs2.

(** The physics of [MicroscopeSim.get_frame], source lines 237-252;
    [now] is the reading of [time.perf_counter()].  The whole method,
    with the clock, the drawing, the filter and the overlay, is
    [MicroscopeSim_get_frame] below. *)
Definition get_frame (s : Sim G) (mask : Mask) (now : R) : result (Sim G) :=
  let dt := now - _last_time s in
  rbind (tick mask dt (_cells s) (rng s))
        (fun p => Ok (mkSim (config s) (snd p) (fst p) now)).

(** What the frame hands to the renderer: per cell, the centre and the
    vertex positions. *)
Definition polygon_set (cs : list Cell) : list (vec2 * list vec2) :=
  map (fun c => (center c, combine (vertex_x c) (vertex_y c))) cs.
End Simulator.

(* ------------------------------------------------------------------ *)
(** ** A scripted generator                                            *)
(* ------------------------------------------------------------------ *)

(** A generator that replays three prepared tapes, one per primitive
    draw; a tape entry outside the range of its draw, or an exhausted
    tape, yields 0.  Used to run the methods on concrete draws. *)
Record Tape : Type := mkTape {
  tape_random : list R;
  tape_gauss : list R;
  tape_below : list Z
}.

Definition tape_next_random (t : Tape) : R * Tape :=
  match tape_random t with
  | [] => (0, t)
  | u :: us =>
      ((if Rle_dec 0 u then if Rlt_dec u 1 then u else 0 else 0),
       mkTape us (tape_gauss t) (tape_below t))
  end.

Definition tape_next_gauss (t : Tape) : R * Tape :=
  match tape_gauss t with
  | [] => (0, t)
  | z :: zs => (z, mkTape (tape_random t) zs (tape_below t))
  end.

Definition tape_next_below (n : Z) (t : Tape) : Z * Tape :=
  match tape_below t with
  | [] => (0%Z, t)
  | k :: ks =>
      ((if ((0 <=? k) && (k <? n))%Z then k else 0%Z),
       mkTape (tape_random t) (tape_gauss t) ks)
  end.

(** The exhausted tape: every draw is 0. *)
Definition blank_tape : Tape := mkTape [] [] [].

(** A tape whose first three uniform draws are 1/2, 100/512 and
    100/512: on the default field [Cell.__init__] then draws base
    radius [base_radius * 1] and centre [(100, 100)]. *)
Definition tape_square (zs : list R) (ks : list Z) : Tape :=
  mkTape [1 / 2; 100 / 512; 100 / 512] zs ks.

(** The generators the seeds used below stand for.  Seeds 1 and 2 build
    one cell at [(100, 100)]; seed 1 then has a Brownian deviate of 0
    and a ruffle deviate of one standard deviation. *)
Definition seed_table (seed : Z) : Tape :=
  match seed with
  | 1%Z => tape_square [0; 1] []
  | 2%Z => tape_square [] []
  | _ => blank_tape
  end.

(** The scripted generator as a random source; the two range laws hold
    because out-of-range tape entries are replaced by 0. *)
#[export, refine] Instance TapeRandom_table : PyRandom Tape :=
  {| seed_rng := seed_table;
     next_random := tape_next_random;
     next_gauss := tape_next_gauss;
     next_below := tape_next_below |}.
Proof.
  - intros t. unfold tape_next_random.
    destruct (tape_random t) as [|u us]; simpl; [lra|].
    destruct (Rle_dec 0 u); [destruct (Rlt_dec u 1)|]; lra.
  - intros n t Hn. unfold tape_next_below.
    destruct (tape_below t) as [|k ks]; simpl; [lia|].
    destruct ((0 <=? k) && (k <? n))%Z eqn:E; [|lia].
    apply andb_prop in E. destruct E as [E1 E2].
    apply Z.leb_le in E1. apply Z.ltb_lt in E2. lia.
Defined.

(* ------------------------------------------------------------------ *)
(** ** Vocabulary of the statements, and concrete inputs              *)
(* ------------------------------------------------------------------ *)

(** [p] lies in [[0, w) x [0, h)]. *)
Definition in_rect (p : vec2) (w h : Z) : Prop :=
  0 <= fst p < IZR w /\ 0 <= snd p < IZR h.

(** The centre of [c] lies in its field. *)
Definition in_field (c : Cell) : Prop :=
  in_rect (center c) (width c) (height c).

(** The value [polygon_area] returns on a non-empty array. *)
Definition shoelace (pts : list vec2) : R :=
  0.5 * (dot (map fst pts) (roll_left (map snd pts))
         - dot (map snd pts) (roll_left (map fst pts))).

(** The factor [_conserve_area] multiplies the radii by. *)
Definition area_factor (c : Cell) : R :=
  if Req_dec_T (Rabs (shoelace (abs_pts c))) 0 then 1
  else sqrt (area0 c / Rabs (shoelace (abs_pts c))).

(** Both per-vertex arrays have [vertices] entries, and there is at
    least one vertex. *)
Definition well_shaped (c : Cell) : Prop :=
  length (r c) = vertices c /\ length (angles c) = vertices c /\
  (0 < vertices c)%nat.

(** The minimum-image correction of one axis, source lines 117-118. *)
Definition min_image (d : R) (w : Z) : R :=
  d - IZR w * IZR (round_half_even (d / IZR w)).

(** The displacement from [a] to [b] that [collide] works with. *)
Definition displacement (a b : Cell) : vec2 :=
  (min_image (fst (center b) - fst (center a)) (width a),
   min_image (snd (center b) - snd (center a)) (height a)).

(** [m] is the largest element of [xs]. *)
Definition is_max (m : R) (xs : list R) : Prop :=
  In m xs /\ Forall (fun x => x <= m) xs.

(** A four-vertex cell of base radius 1 at [(cx, cy)] on the default
    512 x 512 field, with the default parameters except the ruffle
    standard deviation, which is left open. *)
Definition square_cell (ruffle cx cy : R) : Cell :=
  mkCell 512 512 1 [1; 1; 1; 1] (linspace_2pi 4) (PI * (1 * 1)) (0, 0) 4
         3 80 0.06 0.02 0.05 10 ruffle (cx, cy).

(** The configuration whose cells are [square_cell]s when the first
    draw of each is 1/2. *)
Definition square_config (n : nat) (ruffle : R) (seed : Z) : Config :=
  mkConfig 512 512 n 4 1 3 80 0.06 0.02 0.05 10 ruffle seed.

(** A mask of the given shape with no pixel set. *)
Definition dark_mask (rows cols : nat) : Mask :=
  mkMask rows cols (fun _ _ => false).

(** A mask of the given shape with every pixel set. *)
Definition bright_mask (rows cols : nat) : Mask :=
  mkMask rows cols (fun _ _ => true).

(** The vertex positions [stimulate] tests against the sensor. *)
Definition vertex_positions (c : Cell) : list vec2 :=
  combine (vertex_x c) (vertex_y c).

(** The test of source line 68 on one position. *)
Definition inside_test (w h : Z) (x y : R) : bool :=
  Rleb 0 x && Rltb x (IZR w) && Rleb 0 y && Rltb y (IZR h).



(** One term of the shoelace sum. *)
Definition cross (p q : vec2) : R := fst p * snd q - snd p * fst q.

(** The cross products along the closed chain [p, rest..., first]. *)
Fixpoint chain (first p : vec2) (rest : list vec2) : R :=
  match rest with
  | [] => cross p first
  | q :: t => cross p q + chain first q t
  end.

(** A relative vertex, from its angle and radius. *)
Definition polar (a x : R) : vec2 := (cos a * x, sin a * x).

(** A cell whose vertices sit at the angles [Cell.__init__] gives them,
    at least three of them, with a positive base radius and a
    non-negative target area. *)
Definition regular (c : Cell) : Prop :=
  angles c = linspace_2pi (vertices c) /\
  length (r c) = vertices c /\
  (3 <= vertices c)%nat /\
  0 < base_r c /\
  0 <= area0 c.

(** [polygon_area] of the cell's vertices returns, and its absolute
    value is the target area. *)
Definition area_conserved (c : Cell) : Prop :=
  polygon_area (abs_pts c) = Ok (shoelace (abs_pts c)) /\
  Rabs (shoelace (abs_pts c)) = area0 c.

(** What the theorems above ask of a cell: a field of positive size,
    the centre in it, one radius per angle and at least one vertex, a
    non-negative target area. *)
Definition valid (c : Cell) : Prop :=
  (0 < width c)%Z /\ (0 < height c)%Z /\ in_field c /\ well_shaped c /\
  0 <= area0 c.

(** A cell at [(511, 256)] drifting at [(10, 0)], without friction and
    without Brownian motion. *)
Definition drifting_cell : Cell :=
  mkCell 512 512 1 [1; 1; 1; 1] (linspace_2pi 4) (PI * (1 * 1)) (10, 0) 4
         0 0 0.06 0.02 0.05 10 0.06 (511, 256).

Section Vocabulary.
Context {G : Type} `{PyRandom G}.

(** The cell handed to [_conserve_area] at the end of [update], as a
    function of the five values drawn. *)
Definition update_clamped (dt : R) (c : Cell) (amp ang sample : R) (k : Z)
           (phase : R) (center2 : vec2) : Cell :=
  let vel1 := (fst (vel c) + amp * cos ang, snd (vel c) + amp * sin ang) in
  let f := Rmax 0 (1 - friction c * dt) in
  set_r (set_center (set_vel c (fst vel1 * f, snd vel1 * f)) center2)
        (clip (relaxed c (ruffled sample k phase c)) (band_lo c) (band_hi c)).

(** The centre before wrapping in [update]. *)
Definition update_moved (dt : R) (c : Cell) (amp ang : R) : vec2 :=
  (fst (center c) + (fst (vel c) + amp * cos ang) * dt,
   snd (center c) + (snd (vel c) + amp * sin ang) * dt).

(** The outcome of a call without the generator it leaves. *)
Definition outcome {A : Type} (x : result (A * G)) : result A :=
  rbind x (fun p => Ok (fst p)).

(** The five values [update] draws, in the order of the calls in source
    lines 98, 99 and 105-107, and the generator left behind. *)
Definition update_draws (dt : R) (c : Cell) (g : G)
  : (R * R * R * Z * R) * G :=
  let (amp, g1) := normalvariate 0 (sqrt (2 * brownian_d c * dt)) g in
  let (ang, g2) := uniform 0 (2 * PI) g1 in
  let (sample, g3) := normalvariate 0 (ruffle_std c * base_r c) g2 in
  let (k, g4) := randint 1 3 g3 in
  let (phase, g5) := uniform 0 (2 * PI) g4 in
  ((amp, ang, sample, k, phase), g5).

Definition harmonic (d : (R * R * R * Z * R) * G) : Z :=
  match d with ((_, _, _, k, _), _) => k end.

Definition ruffle_sample (d : (R * R * R * Z * R) * G) : R :=
  match d with ((_, _, sample, _, _), _) => sample end.

Definition ruffle_phase (d : (R * R * R * Z * R) * G) : R :=
  match d with ((_, _, _, _, phase), _) => phase end.

Definition kick_amp (d : (R * R * R * Z * R) * G) : R :=
  match d with ((amp, _, _, _, _), _) => amp end.

Definition kick_angle (d : (R * R * R * Z * R) * G) : R :=
  match d with ((_, ang, _, _, _), _) => ang end.

End Vocabulary.

(* ------------------------------------------------------------------ *)
(** ** Further vocabulary                                              *)
(* ------------------------------------------------------------------ *)

(** Everything of a cell but its radii, velocity and centre: the fields
    no method assigns after [__init__]. *)
Definition same_params (c c' : Cell) : Prop :=
  width c' = width c /\ height c' = height c /\ base_r c' = base_r c /\
  angles c' = angles c /\ area0 c' = area0 c /\ vertices c' = vertices c /\
  friction c' = friction c /\ brownian_d c' = brownian_d c /\
  curvature_relax c' = curvature_relax c /\ radial_relax c' = radial_relax c /\
  protrusion_gain c' = protrusion_gain c /\ impulse c' = impulse c /\
  ruffle_std c' = ruffle_std c.

(** What a frame needs of a cell to run without fault under [mask] and
    an elapsed time [dt]: a valid cell, a mask at least as large as the
    cell's field, and a non-negative Brownian variance. *)
Definition frame_ready (mask : Mask) (dt : R) (c : Cell) : Prop :=
  valid c /\
  (height c <= Z.of_nat (shape0 mask))%Z /\
  (width c <= Z.of_nat (shape1 mask))%Z /\
  0 <= brownian_d c * dt.

(** The same without any condition on the centre: a field of positive
    size, one radius and one angle per vertex, at least one vertex, and
    a non-negative target area. *)
Definition sound (c : Cell) : Prop :=
  (0 < width c)%Z /\ (0 < height c)%Z /\ well_shaped c /\ 0 <= area0 c.

Definition frame_safe (mask : Mask) (dt : R) (c : Cell) : Prop :=
  sound c /\
  (height c <= Z.of_nat (shape0 mask))%Z /\
  (width c <= Z.of_nat (shape1 mask))%Z /\
  0 <= brownian_d c * dt.

(** What the cells of a running simulator keep from frame to frame on a
    field of size [w] x [h]. *)
Definition steady (w h : Z) (c : Cell) : Prop :=
  valid c /\ (3 <= vertices c)%nat /\ width c = w /\ height c = h /\
  0 <= brownian_d c.

(** The simulator of two square cells next to each other. *)
Definition two_squares : Sim Tape :=
  mkSim (square_config 2 0.06 0) blank_tape
        [square_cell 0.06 100 100; square_cell 0.06 101 100] 0.

(** A cell as [MicroscopeSim] builds it from its parameters: every
    parameter copied, the base radius within 15 % of the configured one,
    a round outline, at rest, somewhere in the field. *)
Definition newborn (cfg : Config) (c : Cell) : Prop :=
  width c = cfg_width cfg /\ height c = cfg_height cfg /\
  vertices c = cfg_vertices cfg /\ friction c = cfg_friction cfg /\
  brownian_d c = cfg_brownian_d cfg /\
  curvature_relax c = cfg_curvature_relax cfg /\
  radial_relax c = cfg_radial_relax cfg /\
  protrusion_gain c = cfg_protrusion_gain cfg /\
  impulse c = cfg_impulse cfg /\ ruffle_std c = cfg_ruffle_std cfg /\
  0.85 * cfg_base_radius cfg <= base_r c < 1.15 * cfg_base_radius cfg /\
  r c = repeat (base_r c) (cfg_vertices cfg) /\
  angles c = linspace_2pi (cfg_vertices cfg) /\
  area0 c = PI * (base_r c * base_r c) /\
  vel c = (0, 0) /\
  in_field c.

(* ------------------------------------------------------------------ *)
(** ** Rendering: [Cell.draw]                                          *)
(* ------------------------------------------------------------------ *)

(** A surface is modelled by the drawing calls made on it since it was
    last filled, in the order they were made.  Which pixels pygame
    paints for a call is not modelled. *)
Definition colour : Type := (Z * Z * Z)%type.

Inductive primitive : Type :=
| Fill (col : colour)
| Polygon (col : colour) (points : list vec2) (line_width : Z)
| Circle (col : colour) (centre : Z * Z) (radius : Z).

Definition Surface : Type := list primitive.

(** [pygame.draw.polygon]: a filled polygon needs three points; with a
    line width the call is a closed [lines], which needs two. *)
Definition draw_polygon (surf : Surface) (col : colour) (points : list vec2)
           (line_width : Z) : result Surface :=
  if (length points <? (if Z.eqb line_width 0 then 3 else 2))%nat
  then Raise ValueError
  else Ok (surf ++ [Polygon col points line_width]).

Definition draw_circle (surf : Surface) (col : colour) (centre : Z * Z)
           (radius : Z) : result Surface :=
  Ok (surf ++ [Circle col centre radius]).

(** A [for] loop over [xs] whose body may raise. *)
Fixpoint rfold {A S : Type} (f : S -> A -> result S) (xs : list A) (s : S)
  : result S :=
  match xs with
  | [] => Ok s
  | x :: t => rbind (f s x) (rfold f t)
  end.

Definition layers : nat := 6.

(** [pts] of [Cell.draw] for the image of the cell shifted by [(ox, oy)]. *)
Definition tile_pts (c : Cell) (ox oy : R) : list vec2 :=
  map (fun p => (fst p + ox + fst (center c), snd p + oy + snd (center c)))
      (_rel_pts c).

(** [0 <= px <= self.width and 0 <= py <= self.height]. *)
Definition on_screen (c : Cell) (p : vec2) : bool :=
  Rleb 0 (fst p) && Rleb (fst p) (IZR (width c)) &&
  Rleb 0 (snd p) && Rleb (snd p) (IZR (height c)).

Definition scaled (c : Cell) (ox oy s : R) (pts : list vec2) : list vec2 :=
  map (fun p => (fst (center c) + ox + (fst p - (fst (center c) + ox)) * s,
                 snd (center c) + oy + (snd p - (snd (center c) + oy)) * s))
      pts.

(** The body of the loop over [range(layers, 0, -1)]. *)
Definition draw_layer (c : Cell) (ox oy : R) (pts : list vec2)
           (surf : Surface) (i : nat) : result Surface :=
  let s := INR i / INR layers in
  let shade := (80 + trunc_int (100 * s))%Z in
  draw_polygon surf (shade, shade, 255%Z) (scaled c ox oy s pts) 0.

(** The body of the two loops over the offsets. *)
Definition draw_tile (c : Cell) (ox : R) (surf : Surface) (oy : R)
  : result Surface :=
  let pts := tile_pts c ox oy in
  if negb (existsb (on_screen c) pts) then Ok surf
  else
    rbind (rfold (draw_layer c ox oy pts) (rev (seq 1 layers)) surf)
          (fun surf1 =>
    rbind (draw_polygon surf1 (0, 0, 0)%Z pts 1) (fun surf2 =>
    draw_circle surf2 (60, 60, 150)%Z
                (trunc_int (fst (center c) + ox), trunc_int (snd (center c) + oy))
                (trunc_int (0.4 * base_r c)))).

(** [(-w, 0, w)]. *)
Definition offsets (w : Z) : list R := [IZR (- w); 0; IZR w].

Definition draw (c : Cell) (surf : Surface) : result Surface :=
  rfold (fun surf1 ox => rfold (draw_tile c ox) (offsets (height c)) surf1)
        (offsets (width c)) surf.

(** The cell layer of [get_frame]: filled, then every cell drawn. *)
Definition cell_layer {G : Type} (s : Sim G) : result Surface :=
  rfold (fun surf c => draw c surf) (_cells s) [Fill (235, 235, 235)%Z].

(** The nine periodic images of a cell, in the order of the loops, and
    whether an image has a vertex on the screen. *)
Definition tiles (c : Cell) : list (R * R) :=
  list_prod (offsets (width c)) (offsets (height c)).

Definition visible (c : Cell) (t : R * R) : bool :=
  existsb (on_screen c) (tile_pts c (fst t) (snd t)).

(** The outline of the cell contracted towards its centre by [s]. *)
Definition shrunk (c : Cell) (s : R) : list vec2 :=
  map (fun p => (fst (center c) + (fst p - fst (center c)) * s,
                 snd (center c) + (snd p - snd (center c)) * s))
      (abs_pts c).

(** What one visible image adds to the surface. *)
Definition tile_prims (c : Cell) (t : R * R) : list primitive :=
  map (fun i =>
         Polygon ((80 + trunc_int (100 * (INR i / INR layers)))%Z,
                  (80 + trunc_int (100 * (INR i / INR layers)))%Z, 255%Z)
                 (scaled c (fst t) (snd t) (INR i / INR layers)
                         (tile_pts c (fst t) (snd t))) 0)
      (rev (seq 1 layers))
  ++ [Polygon (0, 0, 0)%Z (tile_pts c (fst t) (snd t)) 1;
      Circle (60, 60, 150)%Z
             (trunc_int (fst (center c) + fst t), trunc_int (snd (center c) + snd t))
             (trunc_int (0.4 * base_r c))].

Definition tile_out (c : Cell) (t : R * R) : list primitive :=
  if visible c t then tile_prims c t else [].

(* ------------------------------------------------------------------ *)
(** ** The whole of [get_frame]: clock, cell layer, filter, overlay    *)
(* ------------------------------------------------------------------ *)

(** NumPy's global generator: [_microscope_filter] draws its noise from
    it, and nothing seeds it. *)
Class NumpyRandom (N : Type) : Type := {
  np_standard_normal : N -> R * N
}.

(** What a simulator reads from outside itself: the process clock, given
    by the readings that successive calls of [time.perf_counter()]
    return and the number of calls made so far, and NumPy's global
    generator. *)
Record World (N : Type) : Type := mkWorld {
  readings : nat -> R;
  reads : nat;
  np_random : N
}.

Arguments mkWorld {N} _ _ _.
Arguments readings {N} _ _.
Arguments reads {N} _.
Arguments np_random {N} _.

(** The rendering parameters of [MicroscopeSim.__init__], source lines
    193-197. *)
Record Optics : Type := mkOptics {
  contrast : R;
  blur_rad : R;
  noise_std : R;
  brightness : R;
  overlay_mask : bool
}.

(** A frame as [get_frame] returns it, described by what it is computed
    from: the drawing calls of the cell layer, the rendering parameters
    applied to it, the noise array added to it, and the mask laid over
    it if any.  Pixel values are not modelled. *)
Record Frame : Type := mkFrame {
  frame_layer : Surface;
  frame_optics : Optics;
  frame_noise : list R;
  frame_overlay : option Mask
}.

Section WholeFrame.
Context {G : Type} `{PyRandom G} {N : Type} `{NumpyRandom N}.

(** [time.perf_counter()]. *)
Definition perf_counter (w : World N) : R * World N :=
  (readings w (reads w), mkWorld (readings w) (S (reads w)) (np_random w)).

(** [np.random.normal(loc, scale, shape)] for [n] entries. *)
Fixpoint np_normal (loc scale : R) (n : nat) (g : N) : list R * N :=
  match n with
  | O => ([], g)
  | S k =>
      let (z, g1) := np_standard_normal g in
      let (t, g2) := np_normal loc scale k g1 in
      (loc + scale * z :: t, g2)
  end.

(** [_microscope_filter], source lines 276-288.  The array has shape
    [(height, width)]; [np.random.normal] refuses a negative scale.
    PIL's conversions are taken to return. *)
Definition _microscope_filter (o : Optics) (width height : Z)
           (surface : Surface) (g : N) : result (Frame * N) :=
  if Rlt_dec (noise_std o) 0 then Raise ValueError
  else
    let (noise, g') := np_normal 0 (noise_std o) (Z.to_nat (height * width)) g in
    Ok (mkFrame surface o noise None, g').

(** The overlay, source lines 260-273: [arr_rgb] has shape
    [(width, height, 3)] and is indexed by the transposed mask, which
    NumPy refuses unless the mask has shape [(height, width)]. *)
Definition overlay (width height : Z) (mask : Mask) (f : Frame)
  : result Frame :=
  if ((Z.of_nat (shape1 mask) =? width) && (Z.of_nat (shape0 mask) =? height))%Z
  then Ok (mkFrame (frame_layer f) (frame_optics f) (frame_noise f) (Some mask))
  else Raise IndexError.

(** [MicroscopeSim.__init__], source lines 179-225, with its reading of
    the clock. *)
Definition MicroscopeSim_init (cfg : Config) (w : World N)
  : result (Sim G * World N) :=
  let (now, w1) := perf_counter w in
  rbind (Sim_init cfg now) (fun s => Ok (s, w1)).

(** [MicroscopeSim.get_frame], source lines 237-274, whole: the clock
    is read, the physics runs ([get_frame] above), the cell layer is
    drawn, filtered, and overlaid with the mask when [overlay_mask] is
    set. *)
Definition MicroscopeSim_get_frame (o : Optics) (s : Sim G) (mask : Mask)
           (w : World N) : result ((Sim G * Frame) * World N) :=
  let (now, w1) := perf_counter w in
  rbind (get_frame s mask now) (fun s' =>
  rbind (cell_layer s') (fun layer =>
  rbind (_microscope_filter o (cfg_width (config s')) (cfg_height (config s'))
                            layer (np_random w1)) (fun fg =>
  let w2 := mkWorld (readings w1) (reads w1) (snd fg) in
  if overlay_mask o
  then rbind (overlay (cfg_width (config s')) (cfg_height (config s'))
                      mask (fst fg))
             (fun f => Ok ((s', f), w2))
  else Ok ((s', fst fg), w2)))).

(** The polygon sets a simulator hands out when it is called with the
    masks in turn, up to the first frame that raises. *)
Fixpoint frames (o : Optics) (s : Sim G) (masks : list Mask) (w : World N)
  : list (result (list (vec2 * list vec2))) :=
  match masks with
  | [] => []
  | m :: t =>
      match MicroscopeSim_get_frame o s m w with
      | Ok ((s', _), w') => Ok (polygon_set (_cells s')) :: frames o s' t w'
      | Raise e => [Raise e]
      end
  end.

(** A simulator built in the world [w] and then called with [masks]. *)
Definition session (o : Optics) (cfg : Config) (masks : list Mask)
           (w : World N) : list (result (list (vec2 * list vec2))) :=
  match MicroscopeSim_init cfg w with
  | Ok (s, w') => frames o s masks w'
  | Raise e => [Raise e]
  end.

End WholeFrame.

(** A scripted NumPy generator: the deviates it will return, then 0. *)
#[export] Instance NumpyTape : NumpyRandom (list R) :=
  {| np_standard_normal := fun zs => (hd 0 zs, tl zs) |}.

(** The default rendering parameters. *)
Definition default_optics : Optics := mkOptics 0.55 3 10 0.78 false.

(** A clock that starts at [t0] and gains [1/60] per reading. *)
Definition steady_clock (t0 : R) (i : nat) : R := t0 + INR i / 60.




(* ------------------------------------------------------------------ *)
(** ** Facts about the numeric helpers                                 *)
(* ------------------------------------------------------------------ *)

Lemma pymod_range (x : R) (w : Z) :
  (0 < w)%Z ->
  exists y, pymod x w = Ok y /\ 0 <= y < IZR w.
Proof.
  intros Hw. unfold pymod.
  destruct (Z.eqb_spec w 0) as [E|_]; [lia|].
  eexists; split; [reflexivity|].
  assert (Hp : 0 < IZR w) by (apply IZR_lt; exact Hw).
  destruct (base_Int_part (x / IZR w)) as [Hlo Hhi].
  assert (Hx : x = IZR w * (x / IZR w)) by (field; lra).
  set (q := IZR (Int_part (x / IZR w))) in *.
  set (t := x / IZR w) in *.
  split; rewrite Hx at 1; nra.
Qed.

Lemma pymod_fixed (x : R) (w : Z) :
  0 <= x < IZR w -> pymod x w = Ok x.
Proof.
  intros [H0 H1]. unfold pymod.
  assert (Hp : 0 < IZR w) by lra.
  destruct (Z.eqb_spec w 0) as [E|_].
  - subst w. simpl in Hp. lra.
  - f_equal.
    assert (Hx : x = IZR w * (x / IZR w)) by (field; lra).
    assert (E : Int_part (x / IZR w) = 0%Z).
    { symmetry. apply Int_part_spec. simpl.
      set (t := x / IZR w) in *. split; nra. }
    rewrite E. simpl. ring.
Qed.

Lemma wrap_in_rect (pos : vec2) (w h : Z) :
  (0 < w)%Z -> (0 < h)%Z ->
  exists p, wrap pos w h = Ok p /\ in_rect p w h.
Proof.
  intros Hw Hh. unfold wrap.
  destruct (pymod_range (fst pos) w Hw) as [x [Ex Hx]].
  destruct (pymod_range (snd pos) h Hh) as [y [Ey Hy]].
  rewrite Ex, Ey. simpl. exists (x, y). split; [reflexivity|].
  split; assumption.
Qed.

Lemma wrap_fixed (pos : vec2) (w h : Z) :
  in_rect pos w h -> wrap pos w h = Ok pos.
Proof.
  intros [Hx Hy]. unfold wrap.
  rewrite (pymod_fixed _ _ Hx), (pymod_fixed _ _ Hy). simpl.
  destruct pos; reflexivity.
Qed.

Lemma clip1_band (lo hi x : R) : lo <= hi -> lo <= clip1 lo hi x <= hi.
Proof.
  intros H. unfold clip1, Rmin, Rmax.
  destruct (Rle_dec x lo); destruct (Rle_dec hi _); lra.
Qed.

Lemma clip_band (lo hi : R) (xs : list R) :
  lo <= hi -> Forall (fun x => lo <= x <= hi) (clip xs lo hi).
Proof.
  intros H. unfold clip. apply Forall_forall. intros y Hy.
  apply in_map_iff in Hy. destruct Hy as [x [<- _]].
  now apply clip1_band.
Qed.

(* ------------------------------------------------------------------ *)
(** ** The shoelace sum under translation and scaling                  *)
(* ------------------------------------------------------------------ *)

Lemma polygon_area_shoelace (pts : list vec2) :
  pts <> [] -> polygon_area pts = Ok (shoelace pts).
Proof. destruct pts; [congruence|reflexivity]. Qed.

Lemma roll_left_map {A B : Type} (f : A -> B) (xs : list A) :
  roll_left (map f xs) = map f (roll_left xs).
Proof. destruct xs; simpl; [reflexivity|]. now rewrite map_app. Qed.

Lemma roll_left_length {A : Type} (xs : list A) :
  length (roll_left xs) = length xs.
Proof. destruct xs; simpl; [reflexivity|]. rewrite length_app. simpl. lia. Qed.

Lemma rsum_app (xs ys : list R) : rsum (xs ++ ys) = rsum xs + rsum ys.
Proof. induction xs; simpl; [lra|]. rewrite IHxs. lra. Qed.

Lemma rsum_roll_left (xs : list R) : rsum (roll_left xs) = rsum xs.
Proof. destruct xs; simpl; [reflexivity|]. rewrite rsum_app. simpl. lra. Qed.

Lemma dot_shift (a b : R) (xs zs : list R) :
  length xs = length zs ->
  dot (map (fun x => x + a) xs) (map (fun z => z + b) zs)
  = dot xs zs + b * rsum xs + a * rsum zs + INR (length xs) * (a * b).
Proof.
  revert zs. induction xs as [|x xt IH]; intros [|z zt] Hl;
    try discriminate.
  - simpl. lra.
  - injection Hl as Hl. change (length (x :: xt)) with (S (length xt)).
    rewrite S_INR. simpl. rewrite (IH zt Hl). lra.
Qed.

Lemma dot_scale (s : R) (xs zs : list R) :
  dot (map (fun x => x * s) xs) (map (fun z => z * s) zs) = s * s * dot xs zs.
Proof.
  revert zs. induction xs as [|x xt IH]; intros [|z zt]; simpl; try lra.
  rewrite IH. lra.
Qed.

Lemma shoelace_translate (a b : R) (pts : list vec2) :
  shoelace (map (fun p => (fst p + a, snd p + b)) pts) = shoelace pts.
Proof.
  unfold shoelace. rewrite !map_map. simpl.
  rewrite <- (map_map fst (fun x => x + a)), <- (map_map snd (fun y => y + b)).
  rewrite (roll_left_map (fun y => y + b)), (roll_left_map (fun x => x + a)).
  assert (L1 : length (map fst pts) = length (roll_left (map snd pts)))
    by (rewrite roll_left_length, !length_map; reflexivity).
  assert (L2 : length (map snd pts) = length (roll_left (map fst pts)))
    by (rewrite roll_left_length, !length_map; reflexivity).
  rewrite (dot_shift a b _ _ L1), (dot_shift b a _ _ L2).
  rewrite !rsum_roll_left, !length_map. lra.
Qed.

Lemma shoelace_scale (s : R) (pts : list vec2) :
  shoelace (map (fun p => (fst p * s, snd p * s)) pts) = s * s * shoelace pts.
Proof.
  unfold shoelace. rewrite !map_map. simpl.
  rewrite <- (map_map fst (fun x => x * s)), <- (map_map snd (fun y => y * s)).
  rewrite (roll_left_map (fun y => y * s)), (roll_left_map (fun x => x * s)).
  rewrite !dot_scale. lra.
Qed.


Lemma zip_with_length {A B C : Type} (f : A -> B -> C)
      (xs : list A) (ys : list B) :
  length (zip_with f xs ys) = Nat.min (length xs) (length ys).
Proof.
  revert ys. induction xs as [|x xt IH]; intros [|y yt]; simpl;
    try reflexivity.
  now rewrite IH.
Qed.

(** The relative vertices, one coordinate pair per (angle, radius). *)
Lemma rel_pts_pairs (c : Cell) :
  _rel_pts c
  = zip_with (fun a x => (cos a * x, sin a * x)) (angles c) (r c).
Proof.
  unfold _rel_pts. generalize (angles c) (r c).
  induction l as [|a at' IH]; intros [|x xt]; simpl; try reflexivity.
  now rewrite IH.
Qed.

Lemma rel_pts_scaled (c : Cell) (s : R) :
  _rel_pts (set_r c (map (fun x => x * s) (r c)))
  = map (fun p => (fst p * s, snd p * s)) (_rel_pts c).
Proof.
  rewrite !rel_pts_pairs. simpl. generalize (angles c) (r c).
  induction l as [|a at' IH]; intros [|x xt]; simpl; try reflexivity.
  rewrite IH. f_equal. f_equal; ring.
Qed.

Lemma abs_pts_shoelace (c : Cell) : shoelace (abs_pts c) = shoelace (_rel_pts c).
Proof. unfold abs_pts. apply shoelace_translate. Qed.

Lemma abs_pts_nil (c : Cell) : abs_pts c = [] <-> _rel_pts c = [].
Proof.
  unfold abs_pts. destruct (_rel_pts c); simpl; split; intro E;
    (reflexivity || discriminate).
Qed.

Lemma shoelace_scaled_cell (c : Cell) (s : R) :
  shoelace (abs_pts (set_r c (map (fun x => x * s) (r c))))
  = s * s * shoelace (abs_pts c).
Proof.
  rewrite !abs_pts_shoelace, rel_pts_scaled. apply shoelace_scale.
Qed.

(* ------------------------------------------------------------------ *)
(** ** Area conservation                                               *)
(* ------------------------------------------------------------------ *)

Lemma div_nonneg (a b : R) : 0 <= a -> 0 < b -> 0 <= a / b.
Proof. intros Ha Hb. unfold Rdiv. now apply Rle_mult_inv_pos. Qed.

Lemma map_mult_1 (xs : list R) : map (fun x => x * 1) xs = xs.
Proof. induction xs; simpl; [reflexivity|]. rewrite IHxs. f_equal. ring. Qed.

Lemma set_r_same (c : Cell) : set_r c (r c) = c.
Proof. destruct c; reflexivity. Qed.

Lemma conserve_area_inv (c c' : Cell) :
  _conserve_area c = Ok c' ->
  abs_pts c <> [] /\
  c' = set_r c (map (fun x => x * area_factor c) (r c)) /\
  0 <= area_factor c.
Proof.
  unfold _conserve_area, area_factor. intros E.
  destruct (abs_pts c) as [|p ps] eqn:Ep; [discriminate|].
  rewrite <- Ep in *.
  rewrite polygon_area_shoelace in E by (rewrite Ep; discriminate).
  simpl in E. split; [rewrite Ep; discriminate|].
  destruct (Req_dec_T (Rabs (shoelace (abs_pts c))) 0) as [Z|NZ].
  - injection E as <-. rewrite map_mult_1, set_r_same. split; [reflexivity|lra].
  - unfold math_sqrt in E.
    destruct (Rlt_dec (area0 c / Rabs (shoelace (abs_pts c))) 0);
      [discriminate|].
    simpl in E. injection E as <-. split; [reflexivity|apply sqrt_pos].
Qed.

Lemma conserve_area_returns (c : Cell) :
  abs_pts c <> [] -> 0 <= area0 c -> exists c', _conserve_area c = Ok c'.
Proof.
  intros Hne Ha. unfold _conserve_area.
  rewrite polygon_area_shoelace by assumption. simpl.
  destruct (Req_dec_T (Rabs (shoelace (abs_pts c))) 0) as [Z|NZ];
    [eexists; reflexivity|].
  unfold math_sqrt.
  destruct (Rlt_dec (area0 c / Rabs (shoelace (abs_pts c))) 0) as [Hneg|_];
    [|eexists; reflexivity].
  exfalso.
  assert (Hp : 0 < Rabs (shoelace (abs_pts c)))
    by (pose proof (Rabs_pos (shoelace (abs_pts c))); lra).
  pose proof (div_nonneg _ _ Ha Hp). lra.
Qed.

(** When the polygon is not degenerate the rescale is an exact
    projection onto the target area. *)
Lemma conserve_area_exact (c c' : Cell) :
  _conserve_area c = Ok c' ->
  shoelace (abs_pts c) <> 0 ->
  0 <= area0 c ->
  Rabs (shoelace (abs_pts c')) = area0 c.
Proof.
  intros E NZ Ha.
  destruct (conserve_area_inv _ _ E) as [_ [-> _]].
  rewrite shoelace_scaled_cell, Rabs_mult.
  unfold area_factor.
  assert (Hp : 0 < Rabs (shoelace (abs_pts c))) by (apply Rabs_pos_lt; exact NZ).
  destruct (Req_dec_T (Rabs (shoelace (abs_pts c))) 0) as [Z|_]; [lra|].
  assert (Hq : 0 <= area0 c / Rabs (shoelace (abs_pts c)))
    by (apply div_nonneg; assumption).
  rewrite (sqrt_sqrt _ Hq), (Rabs_pos_eq _ Hq). field. lra.
Qed.


(* ------------------------------------------------------------------ *)
(** ** Inversion of the methods                                        *)
(* ------------------------------------------------------------------ *)

Section MethodFacts.
Context {G : Type} `{PyRandom G}.

Lemma update_inv (dt : R) (c c' : Cell) (g g' : G) :
  update dt c g = Ok (c', g') ->
  exists z1 g1 u1 g2 z2 g3 kb g4 u2 center2,
    ~ 2 * brownian_d c * dt < 0 /\
    next_gauss g = (z1, g1) /\
    next_random g1 = (u1, g2) /\
    next_gauss g2 = (z2, g3) /\
    next_below 3 g3 = (kb, g4) /\
    next_random g4 = (u2, g') /\
    wrap (update_moved dt c (0 + z1 * sqrt (2 * brownian_d c * dt))
                       (0 + (2 * PI - 0) * u1))
         (width c) (height c) = Ok center2 /\
    _conserve_area
      (update_clamped dt c (0 + z1 * sqrt (2 * brownian_d c * dt))
                      (0 + (2 * PI - 0) * u1)
                      (0 + z2 * (ruffle_std c * base_r c))
                      (1 + kb) (0 + (2 * PI - 0) * u2) center2) = Ok c'.
Proof.
  unfold update, bind, pure_step, rand, math_sqrt, normalvariate, uniform,
    randint.
  intros E.
  destruct (Rlt_dec (2 * brownian_d c * dt) 0) as [|Hs]; [discriminate|].
  destruct (next_gauss g) as [z1 g1] eqn:E1.
  destruct (next_random g1) as [u1 g2] eqn:E2.
  match type of E with
  | context [wrap ?p ?w ?h] => destruct (wrap p w h) as [center2|] eqn:Ew
  end; [|discriminate].
  destruct (next_gauss g2) as [z2 g3] eqn:E3.
  change (3 + 1 - 1)%Z with 3%Z in E.
  destruct (next_below 3 g3) as [kb g4] eqn:E4.
  destruct (next_random g4) as [u2 g5] eqn:E5.
  match type of E with
  | context [_conserve_area ?x] => destruct (_conserve_area x) as [c2|] eqn:Ec
  end; [|discriminate].
  injection E as <- <-.
  exists z1, g1, u1, g2, z2, g3, kb, g4, u2, center2.
  repeat split; try assumption.
Qed.
End MethodFacts.

(* ------------------------------------------------------------------ *)
(** ** Shapes of the arrays                                            *)
(* ------------------------------------------------------------------ *)

Lemma roll_right_length {A : Type} (xs : list A) :
  length (roll_right xs) = length xs.
Proof.
  unfold roll_right. rewrite <- (length_rev xs).
  destruct (rev xs); simpl; [reflexivity|]. now rewrite length_rev.
Qed.

Lemma lap_length (rs : list R) : length (lap rs) = length rs.
Proof.
  unfold lap. rewrite !zip_with_length, roll_left_length, roll_right_length,
    length_map. lia.
Qed.

Lemma relaxed_length (c : Cell) (rs : list R) :
  length (relaxed c rs) = length rs.
Proof.
  unfold relaxed. rewrite !zip_with_length, !length_map, lap_length. lia.
Qed.

Lemma ruffled_length (sample : R) (k : Z) (phase : R) (c : Cell) :
  length (angles c) = length (r c) ->
  length (ruffled sample k phase c) = length (r c).
Proof.
  intros E. unfold ruffled. rewrite zip_with_length, length_map. lia.
Qed.

Lemma clip_length (xs : list R) (lo hi : R) : length (clip xs lo hi) = length xs.
Proof. unfold clip. apply length_map. Qed.

Lemma rel_pts_length (c : Cell) :
  length (_rel_pts c) = Nat.min (length (angles c)) (length (r c)).
Proof. rewrite rel_pts_pairs. apply zip_with_length. Qed.

Lemma abs_pts_length (c : Cell) :
  length (abs_pts c) = Nat.min (length (angles c)) (length (r c)).
Proof. unfold abs_pts. rewrite length_map. apply rel_pts_length. Qed.

Lemma abs_pts_nonempty (c : Cell) :
  (0 < length (angles c))%nat -> (0 < length (r c))%nat -> abs_pts c <> [].
Proof.
  intros Ha Hr E. apply (f_equal (@length _)) in E.
  rewrite abs_pts_length in E. simpl in E. lia.
Qed.

Section Returns.
Context {G : Type} `{PyRandom G}.

Lemma update_clamped_length (dt : R) (c : Cell) (amp ang sample : R)
      (k : Z) (phase : R) (p : vec2) :
  length (angles c) = length (r c) ->
  length (r (update_clamped dt c amp ang sample k phase p)) = length (r c).
Proof.
  intros E. simpl. now rewrite clip_length, relaxed_length, ruffled_length.
Qed.

(** [update] returns whenever the field is not empty, the Brownian
    variance is not negative and the cell has a vertex. *)
Lemma update_returns (dt : R) (c : Cell) (g : G) :
  (0 < width c)%Z -> (0 < height c)%Z ->
  0 <= brownian_d c * dt ->
  well_shaped c -> 0 <= area0 c ->
  exists c' g', update dt c g = Ok (c', g').
Proof.
  intros Hw Hh Hd [Lr [La Hv]] Ha.
  unfold update, bind, pure_step, rand, math_sqrt, normalvariate, uniform,
    randint.
  destruct (Rlt_dec (2 * brownian_d c * dt) 0) as [Hneg|_]; [lra|].
  destruct (next_gauss g) as [z1 g1].
  destruct (next_random g1) as [u1 g2].
  match goal with
  | |- context [wrap ?p ?w ?h] =>
      destruct (wrap_in_rect p w h Hw Hh) as [center2 [Ew _]]; rewrite Ew
  end.
  destruct (next_gauss g2) as [z2 g3].
  destruct (next_below (3 + 1 - 1) g3) as [kb g4].
  destruct (next_random g4) as [u2 g5].
  match goal with
  | |- context [_conserve_area ?x] =>
      destruct (conserve_area_returns x) as [c2 Ec]
  end.
  - apply abs_pts_nonempty; simpl.
    + lia.
    + rewrite clip_length, relaxed_length, ruffled_length; lia.
  - exact Ha.
  - rewrite Ec. eauto.
Qed.

Lemma update_keeps_base (dt : R) (c c' : Cell) (g g' : G) :
  update dt c g = Ok (c', g') ->
  base_r c' = base_r c /\ area0 c' = area0 c /\ width c' = width c /\
  height c' = height c /\ angles c' = angles c /\ vertices c' = vertices c.
Proof.
  intros E. apply update_inv in E.
  destruct E as (z1 & g1 & u1 & g2 & z2 & g3 & kb & g4 & u2 & p & _ & _ & _
                 & _ & _ & _ & _ & Ec).
  apply conserve_area_inv in Ec. destruct Ec as [_ [-> _]].
  simpl. repeat split; reflexivity.
Qed.
End Returns.

(* ------------------------------------------------------------------ *)
(** ** Collision geometry                                              *)
(* ------------------------------------------------------------------ *)

Lemma fold_left_Rmax_spec (t : list R) (x : R) :
  (fold_left Rmax t x = x \/ In (fold_left Rmax t x) t) /\
  x <= fold_left Rmax t x /\
  Forall (fun y => y <= fold_left Rmax t x) t.
Proof.
  revert x. induction t as [|y t IH]; intros x; simpl.
  - split; [now left|]. split; [lra|constructor].
  - destruct (IH (Rmax x y)) as [Hin [Hle Hall]].
    pose proof (Rmax_l x y). pose proof (Rmax_r x y).
    split; [|split].
    + destruct Hin as [E|Hin]; [|now right; right].
      rewrite E. unfold Rmax. destruct (Rle_dec x y); [right; now left|now left].
    + lra.
    + constructor; [lra|exact Hall].
Qed.

Lemma pymax_spec (xs : list R) :
  xs <> [] -> exists m, pymax xs = Ok m /\ is_max m xs.
Proof.
  destruct xs as [|x t]; [congruence|]. intros _. simpl.
  eexists; split; [reflexivity|].
  destruct (fold_left_Rmax_spec t x) as [Hin [Hle Hall]].
  split.
  - destruct Hin as [E|Hin]; [left; now rewrite E|now right].
  - constructor; assumption.
Qed.

Lemma round_half_even_near (x : R) :
  Rabs (x - IZR (round_half_even x)) <= 1 / 2.
Proof.
  unfold round_half_even.
  destruct (base_Int_part x) as [Hlo Hhi].
  set (f := Int_part x) in *.
  destruct (Rlt_dec (x - IZR f) (1 / 2)).
  - rewrite Rabs_pos_eq; lra.
  - destruct (Rlt_dec (1 / 2) (x - IZR f)).
    + rewrite plus_IZR. simpl. rewrite Rabs_left1; lra.
    + destruct (Z.even f).
      * rewrite Rabs_pos_eq; lra.
      * rewrite plus_IZR. simpl. rewrite Rabs_left1; lra.
Qed.

(** The corrected displacement is at most half the axis long. *)
Lemma min_image_short (d : R) (w : Z) :
  (0 < w)%Z -> Rabs (min_image d w) <= IZR w / 2.
Proof.
  intros Hw. unfold min_image.
  assert (Hp : 0 < IZR w) by (apply IZR_lt; exact Hw).
  pose proof (round_half_even_near (d / IZR w)) as Hn.
  set (k := IZR (round_half_even (d / IZR w))) in *.
  replace (d - IZR w * k) with (IZR w * (d / IZR w - k)) by (field; lra).
  rewrite Rabs_mult, (Rabs_pos_eq (IZR w)) by lra. nra.
Qed.

(** A vector scaled to length [s] along [d / |d|]. *)
Lemma norm2_along (s : R) (d : vec2) :
  0 <= s -> norm2 d <> 0 ->
  norm2 (s * (fst d / norm2 d), s * (snd d / norm2 d)) = s.
Proof.
  intros Hs Hn. unfold norm2 in *. simpl.
  set (q := fst d * fst d + snd d * snd d) in *.
  assert (Hq : 0 <= q) by (unfold q; nra).
  assert (Hpos : 0 < sqrt q) by (pose proof (sqrt_pos q); lra).
  replace (s * (fst d / sqrt q) * (s * (fst d / sqrt q))
           + s * (snd d / sqrt q) * (s * (snd d / sqrt q)))
    with (s * s * ((fst d * fst d + snd d * snd d) / (sqrt q * sqrt q)))
    by (field; lra).
  fold q. rewrite (sqrt_sqrt q Hq).
  replace (s * s * (q / q)) with (s * s).
  - apply sqrt_square. exact Hs.
  - field. intro E. rewrite E, sqrt_0 in Hpos. lra.
Qed.

(* ------------------------------------------------------------------ *)
(** ** Facts about the concrete inputs                                 *)
(* ------------------------------------------------------------------ *)

Lemma square_cell_shaped (ruffle cx cy : R) : well_shaped (square_cell ruffle cx cy).
Proof. unfold well_shaped. simpl. repeat split; lia. Qed.

Lemma PI_nonneg_area (b : R) : 0 <= PI * (b * b).
Proof. pose proof PI_RGT_0. nra. Qed.

(* ------------------------------------------------------------------ *)
(** ** Toroidal containment, in exact arithmetic                       *)
(* ------------------------------------------------------------------ *)

Section Containment.
Context {G : Type} `{PyRandom G}.

Lemma update_in_field (dt : R) (c c' : Cell) (g g' : G) :
  (0 < width c)%Z -> (0 < height c)%Z ->
  update dt c g = Ok (c', g') -> in_field c'.
Proof.
  intros Hw Hh E. apply update_inv in E.
  destruct E as (z1 & g1 & u1 & g2 & z2 & g3 & kb & g4 & u2 & p & _ & _ & _
                 & _ & _ & _ & Ew & Ec).
  apply conserve_area_inv in Ec. destruct Ec as [_ [-> _]].
  unfold in_field. simpl.
  destruct (wrap_in_rect (update_moved dt c (0 + z1 * sqrt (2 * brownian_d c * dt))
                                       (0 + (2 * PI - 0) * u1))
                         (width c) (height c) Hw Hh) as [p' [Ew' Hp]].
  rewrite Ew in Ew'. injection Ew' as ->. exact Hp.
Qed.

(** What [collide] returns, by cases on the source's two early
    returns. *)
Lemma collide_inv (a b a' b' : Cell) (g g' : G) :
  collide a b g = Ok ((a', b'), g') ->
  g' = g /\
  ((a' = a /\ b' = b) \/
   exists ma mb ca cb,
     norm2 (displacement a b) <> 0 /\
     pymax (r a) = Ok ma /\ pymax (r b) = Ok mb /\
     ~ ma + mb - norm2 (displacement a b) <= 0 /\
     wrap (fst (center a)
           - 0.5 * (ma + mb - norm2 (displacement a b) + 0.5)
             * (fst (displacement a b) / norm2 (displacement a b)),
           snd (center a)
           - 0.5 * (ma + mb - norm2 (displacement a b) + 0.5)
             * (snd (displacement a b) / norm2 (displacement a b)))
          (width a) (height a) = Ok ca /\
     wrap (fst (center b)
           + 0.5 * (ma + mb - norm2 (displacement a b) + 0.5)
             * (fst (displacement a b) / norm2 (displacement a b)),
           snd (center b)
           + 0.5 * (ma + mb - norm2 (displacement a b) + 0.5)
             * (snd (displacement a b) / norm2 (displacement a b)))
          (width b) (height b) = Ok cb /\
     a' = set_vel (set_center a ca) (0, 0) /\
     b' = set_vel (set_center b cb) (0, 0)).
Proof.
  unfold collide, bind, pure_step, ret, round_div, displacement, min_image.
  intros E.
  destruct (Z.eqb (width a) 0);
    [destruct (Req_dec_T (fst (center b) - fst (center a)) 0); discriminate|].
  destruct (Z.eqb (height a) 0);
    [destruct (Req_dec_T (snd (center b) - snd (center a)) 0); discriminate|].
  match type of E with
  | context [Req_dec_T ?d 0] => destruct (Req_dec_T d 0) as [Hd|Hd]
  end.
  { injection E as <- <- <-. split; [reflexivity|now left]. }
  destruct (pymax (r a)) as [ma|] eqn:Ea; [|discriminate].
  destruct (pymax (r b)) as [mb|] eqn:Eb; [|discriminate].
  match type of E with
  | context [Rle_dec ?o 0] => destruct (Rle_dec o 0) as [Ho|Ho]
  end.
  { injection E as <- <- <-. split; [reflexivity|now left]. }
  match type of E with
  | context [match wrap ?p ?w ?h with _ => _ end] =>
      destruct (wrap p w h) as [ca|] eqn:Eca; [|discriminate]
  end.
  match type of E with
  | context [match wrap ?p ?w ?h with _ => _ end] =>
      destruct (wrap p w h) as [cb|] eqn:Ecb; [|discriminate]
  end.
  injection E as <- <- <-. split; [reflexivity|]. right.
  exists ma, mb, ca, cb. repeat split; assumption.
Qed.

End Containment.

(** On the reals every wrapped coordinate lies in [[0, width)]; on
    floats the upper end is not kept. *)
Module Float64_facts.
Import PrimFloat.

(** C8, at the input where the code leaves the claim.  [wrap] never
    returns a negative coordinate here, but for the position
    [(-2^-70, 0)] on the 512 x 512 field it returns [(512, 0)]: the
    remainder [-2^-70] has the wrong sign, [512] is added, and the sum
    rounds to [512], so [x < width] is false.  The same happens to the
    centre [0.75] pushed by [0.75 + 2^-53] in [collide], and to the
    centre [0] moved by [vel * dt = -2^-70] in [update].  Wrapping the
    result once more gives [0]. *)
Theorem wrap_returns_the_width :
  Float64.wrap (-0x1p-70, 0)%float 512 512 = (512, 0)%float /\
  ltb (fst (Float64.wrap (-0x1p-70, 0)%float 512 512)) 512 = false /\
  leb 0 (fst (Float64.wrap (-0x1p-70, 0)%float 512 512)) = true /\
  Float64.wrap (0.75 - (0.75 + 0x1p-53), 0)%float 512 512 = (512, 0)%float /\
  Float64.wrap (0 + (-0x1p-70) * 1, 0)%float 512 512 = (512, 0)%float /\
  Float64.wrap (Float64.wrap (-0x1p-70, 0)%float 512 512) 512 512
  = (0, 0)%float /\
  Float64.wrap (-1, 600)%float 512 512 = (511, 88)%float.
Proof. repeat split; vm_compute; reflexivity. Qed.

End Float64_facts.

(* ------------------------------------------------------------------ *)
(** ** Stimulation: the early returns and the generator (C4, C10)      *)
(* ------------------------------------------------------------------ *)

Lemma inside_test_spec (w h : Z) (x y : R) :
  inside_test w h x y = true <-> in_rect (x, y) w h.
Proof.
  unfold inside_test, in_rect, Rleb, Rltb. simpl.
  destruct (Rle_dec 0 x), (Rlt_dec x (IZR w)), (Rle_dec 0 y),
    (Rlt_dec y (IZR h)); simpl; split; intros Hx;
    try discriminate; try reflexivity;
    try (split; split; assumption);
    destruct Hx as [Ha Hb]; simpl in Ha, Hb; lra.
Qed.

(** With no retained vertex on a set pixel, the lookup of source line
    74, when reached, returns an array without a [True]. *)
Lemma mask_take_dark (m : Mask) (w h : Z) (xs ys : list R) :
  (forall p, In p (combine xs ys) -> in_rect p w h ->
             mask_at m (trunc_int (snd p)) (trunc_int (fst p)) = Ok false) ->
  exists hit,
    mask_take m (map trunc_int (compress (zip_with (inside_test w h) xs ys) ys))
              (map trunc_int (compress (zip_with (inside_test w h) xs ys) xs))
    = Ok hit /\ any hit = false.
Proof.
  revert ys. induction xs as [|x xt IH]; intros [|y yt] Hd; simpl;
    try (exists []; split; reflexivity).
  destruct (IH yt) as [hit [Eh Ha]].
  { intros p Hp. apply Hd. now right. }
  destruct (inside_test w h x y) eqn:Et.
  - assert (Hxy : mask_at m (trunc_int y) (trunc_int x) = Ok false).
    { apply (Hd (x, y)); [now left|now apply inside_test_spec]. }
    simpl. rewrite Hxy. simpl. rewrite Eh. simpl. exists (false :: hit). split; [reflexivity|].
    simpl. exact Ha.
  - exists hit. split; assumption.
Qed.

Section Stimulation.
Context {G : Type} `{PyRandom G}.

Lemma stimulate_generator (mask : Mask) (c c' : Cell) (g g' : G) :
  stimulate mask c g = Ok (c', g') -> g' = g.
Proof.
  unfold stimulate, bind, pure_step, ret. intros E.
  destruct (negb (any (inside_flags c))); [now injection E as _ <-|].
  match type of E with
  | context [mask_take ?m ?iy ?ix] => destruct (mask_take m iy ix) as [hit|]
  end; [|discriminate].
  destruct (negb (any hit)); [now injection E as _ <-|].
  match type of E with
  | context [_conserve_area ?x] => destruct (_conserve_area x) as [c1|]
  end; [|discriminate].
  match type of E with
  | context [Req_dec_T ?n 0] => destruct (Req_dec_T n 0)
  end; now injection E as _ <-.
Qed.

Lemma stimulate_outcome (mask : Mask) (c : Cell) (g1 g2 : G) :
  outcome (stimulate mask c g1) = outcome (stimulate mask c g2).
Proof.
  unfold stimulate, bind, pure_step, ret, outcome.
  destruct (negb (any (inside_flags c))); [reflexivity|].
  match goal with
  | |- context [mask_take ?m ?iy ?ix] => destruct (mask_take m iy ix) as [hit|]
  end; [|reflexivity].
  destruct (negb (any hit)); [reflexivity|].
  match goal with
  | |- context [_conserve_area ?x] => destruct (_conserve_area x) as [c1|]
  end; [|reflexivity].
  match goal with
  | |- context [Req_dec_T ?n 0] => destruct (Req_dec_T n 0)
  end; reflexivity.
Qed.

Lemma for_each_stimulate_generator (mask : Mask) (cs cs' : list Cell) (g g' : G) :
  for_each (stimulate mask) cs g = Ok (cs', g') -> g' = g.
Proof.
  revert cs' g g'. induction cs as [|c t IH]; intros cs' g g' E; simpl in E.
  - unfold ret in E. now injection E as _ <-.
  - unfold bind in E.
    destruct (stimulate mask c g) as [[c1 g1]|] eqn:E1; [|discriminate].
    apply stimulate_generator in E1. subst g1.
    destruct (for_each (stimulate mask) t g) as [[t1 g2]|] eqn:E2;
      [|discriminate].
    apply IH in E2. subst g2. unfold ret in E. now injection E as _ <-.
Qed.

Lemma collide_pairs_generator (ps : list (nat * nat)) (cs cs' : list Cell)
      (g g' : G) :
  collide_pairs ps cs g = Ok (cs', g') -> g' = g.
Proof.
  revert cs cs' g g'. induction ps as [|ij t IH]; intros cs cs' g g' E;
    simpl in E.
  - unfold ret in E. now injection E as _ <-.
  - unfold bind in E.
    destruct (collide_at cs ij g) as [[cs1 g1]|] eqn:E1; [|discriminate].
    apply IH in E. subst g'.
    unfold collide_at in E1.
    destruct (nth_error cs (fst ij)) as [a|];
      [|unfold ret in E1; now injection E1 as _ <-].
    destruct (nth_error cs (snd ij)) as [b|];
      [|unfold ret in E1; now injection E1 as _ <-].
    unfold bind in E1.
    destruct (collide a b g) as [[[a' b'] g2]|] eqn:E2; [|discriminate].
    apply collide_inv in E2. destruct E2 as [-> _].
    unfold ret in E1. now injection E1 as _ <-.
Qed.

(** C4.  When no retained vertex (a vertex inside
    [[0,width) x [0,height)]) lies on a set pixel of the mask - in
    particular when no vertex is retained at all - [stimulate] returns
    with the cell (velocity, radii, centre and all) and the generator
    exactly as they were. *)
Theorem stimulate_without_hit_is_noop (mask : Mask) (c : Cell) (g : G) :
  (forall p, In p (vertex_positions c) ->
             in_rect p (width c) (height c) ->
             mask_at mask (trunc_int (snd p)) (trunc_int (fst p)) = Ok false) ->
  stimulate mask c g = Ok (c, g).
Proof.
  intros Hd. unfold stimulate, bind, pure_step, ret.
  destruct (negb (any (inside_flags c))) eqn:Ei; [reflexivity|].
  destruct (mask_take_dark mask (width c) (height c) (vertex_x c) (vertex_y c) Hd)
    as [hit [Eh Ha]].
  unfold inside_flags. unfold inside_test in Eh. rewrite Eh, Ha. reflexivity.
Qed.

(** C10.  [stimulate] never draws: the generator it leaves is the one it
    was given, also when vertices are hit; its outcome does not depend
    on the generator; a whole stimulation pass leaves the generator
    alone, and so does the collision pass, so the generator after a
    frame is the one the [update] pass leaves. *)
Theorem stimulate_draws_nothing
        (mask : Mask) (c : Cell) (cs : list Cell) (dt : R) (g g2 : G) :
  (forall c' g', stimulate mask c g = Ok (c', g') -> g' = g) /\
  outcome (stimulate mask c g) = outcome (stimulate mask c g2) /\
  (forall cs' g', for_each (stimulate mask) cs g = Ok (cs', g') -> g' = g) /\
  (forall cs' g', tick mask dt cs g = Ok (cs', g') ->
     exists cs1 cs2,
       (if mask_any mask then for_each (stimulate mask) cs else ret cs) g
       = Ok (cs1, g) /\
       for_each (update dt) cs1 g = Ok (cs2, g') /\
       collide_pairs (index_pairs (length cs2)) cs2 g' = Ok (cs', g')).
Proof.
  split; [|split; [|split]].
  - intros c' g'. apply stimulate_generator.
  - apply stimulate_outcome.
  - intros cs' g'. apply for_each_stimulate_generator.
  - intros cs' g' E. unfold tick, bind in E.
    destruct ((if mask_any mask then for_each (stimulate mask) cs else ret cs) g)
      as [[cs1 g1]|] eqn:E1; [|discriminate].
    assert (g1 = g) as ->.
    { destruct (mask_any mask).
      - now apply for_each_stimulate_generator in E1.
      - unfold ret in E1. now injection E1 as _ <-. }
    destruct (for_each (update dt) cs1 g) as [[cs2 g3]|] eqn:E2; [|discriminate].
    pose proof (collide_pairs_generator _ _ _ _ _ E) as ->.
    exists cs1, cs2. repeat split; assumption.
Qed.
End Stimulation.

(* ------------------------------------------------------------------ *)
(** ** Mask lookups inside the mask's extent                           *)
(* ------------------------------------------------------------------ *)

Lemma trunc_int_range (x : R) (w : Z) :
  0 <= x < IZR w -> (0 <= trunc_int x < w)%Z.
Proof.
  intros [H0 H1]. unfold trunc_int.
  destruct (Rle_dec 0 x) as [_|N]; [|lra].
  destruct (base_Int_part x) as [Hlo Hhi]. split.
  - apply le_IZR. simpl.
    assert (E : Int_part x = (Int_part x - 0)%Z) by lia.
    destruct (Z_lt_le_dec (Int_part x) 0) as [Hneg|Hpos]; [|now apply IZR_le].
    exfalso. assert (Hz : (Int_part x <= -1)%Z) by lia.
    apply IZR_le in Hz. simpl in Hz. lra.
  - apply lt_IZR. lra.
Qed.

Lemma np_index_inside (n : nat) (i : Z) :
  (0 <= i < Z.of_nat n)%Z -> np_index n i = Ok (Z.to_nat i).
Proof.
  intros [H0 H1]. unfold np_index.
  destruct (Z.leb_spec 0 i); [|lia].
  destruct (Z.ltb_spec i (Z.of_nat n)); [|lia]. reflexivity.
Qed.

(** A position inside the field indexes a mask that is at least as tall
    and as wide as the field without fault. *)
Lemma mask_at_covered (m : Mask) (w h : Z) (p : vec2) :
  (h <= Z.of_nat (shape0 m))%Z -> (w <= Z.of_nat (shape1 m))%Z ->
  in_rect p w h ->
  mask_at m (trunc_int (snd p)) (trunc_int (fst p))
  = Ok (pixel m (Z.to_nat (trunc_int (snd p))) (Z.to_nat (trunc_int (fst p)))).
Proof.
  intros Hh Hw [Hx Hy]. unfold mask_at.
  apply trunc_int_range in Hx. apply trunc_int_range in Hy.
  rewrite !np_index_inside by lia. reflexivity.
Qed.

Lemma mask_take_covered (m : Mask) (w h : Z) (xs ys : list R) :
  (h <= Z.of_nat (shape0 m))%Z -> (w <= Z.of_nat (shape1 m))%Z ->
  exists hit,
    mask_take m (map trunc_int (compress (zip_with (inside_test w h) xs ys) ys))
              (map trunc_int (compress (zip_with (inside_test w h) xs ys) xs))
    = Ok hit.
Proof.
  intros Hh Hw. revert ys.
  induction xs as [|x xt IH]; intros [|y yt]; simpl;
    try (exists []; reflexivity).
  destruct (IH yt) as [hit Eh].
  destruct (inside_test w h x y) eqn:Et; [|exists hit; exact Eh].
  apply inside_test_spec in Et.
  pose proof (mask_at_covered m w h (x, y) Hh Hw Et) as Hxy. simpl in Hxy.
  simpl. rewrite Hxy. simpl. rewrite Eh. simpl. eexists; reflexivity.
Qed.

Section DarkMask.
Context {G : Type} `{PyRandom G}.

(** A mask without a set pixel that covers the field stimulates
    nothing. *)
Lemma stimulate_dark (rows cols : nat) (c : Cell) (g : G) :
  (height c <= Z.of_nat rows)%Z -> (width c <= Z.of_nat cols)%Z ->
  stimulate (dark_mask rows cols) c g = Ok (c, g).
Proof.
  intros Hh Hw. unfold stimulate, bind, pure_step, ret.
  destruct (negb (any (inside_flags c))) eqn:Ei; [reflexivity|].
  destruct (mask_take_dark (dark_mask rows cols) (width c) (height c)
                           (vertex_x c) (vertex_y c)) as [hit [Eh Ha]].
  { intros p _ Hp.
    now rewrite (mask_at_covered (dark_mask rows cols) (width c) (height c) p). }
  unfold inside_flags. unfold inside_test in Eh. rewrite Eh, Ha. reflexivity.
Qed.
End DarkMask.

Lemma stimulate_without_hit_is_noop_witness :
  stimulate (dark_mask 512 512) (square_cell 0.06 100 100) blank_tape
  = Ok (square_cell 0.06 100 100, blank_tape).
Proof.
  apply (stimulate_without_hit_is_noop
           (dark_mask 512 512) (square_cell 0.06 100 100) blank_tape).
  intros p _ Hp.
  rewrite (mask_at_covered (dark_mask 512 512) 512 512 p); simpl;
    [reflexivity|lia|lia|exact Hp].
Defined.

(* ------------------------------------------------------------------ *)
(** ** Collision resolution (C5)                                       *)
(* ------------------------------------------------------------------ *)

Section Collision.
Context {G : Type} `{PyRandom G}.

(** [collide] returns early when the cells coincide or do not
    overlap. *)
Lemma collide_early (a b : Cell) (g : G) (ma mb : R) :
  (0 < width a)%Z -> (0 < height a)%Z ->
  pymax (r a) = Ok ma -> pymax (r b) = Ok mb ->
  ma + mb - norm2 (displacement a b) <= 0 \/ norm2 (displacement a b) = 0 ->
  collide a b g = Ok ((a, b), g).
Proof.
  intros Hwa Hha Ea Eb Hcase.
  assert (Hza : Z.eqb (width a) 0 = false) by (apply Z.eqb_neq; lia).
  assert (Hzh : Z.eqb (height a) 0 = false) by (apply Z.eqb_neq; lia).
  unfold collide, bind, pure_step, ret, round_div.
  rewrite Hza, Hzh.
  fold (min_image (fst (center b) - fst (center a)) (width a)).
  fold (min_image (snd (center b) - snd (center a)) (height a)).
  fold (displacement a b).
  destruct (Req_dec_T (norm2 (displacement a b)) 0) as [Hd|Hd];
    [reflexivity|].
  rewrite Ea, Eb.
  destruct (Rle_dec (ma + mb - norm2 (displacement a b)) 0) as [Ho|Ho];
    [reflexivity|].
  destruct Hcase; contradiction.
Qed.

(** Otherwise it moves both centres, wraps them and stops both cells. *)
Lemma collide_moves (a b : Cell) (g : G) (ma mb : R) (ca cb : vec2) :
  (0 < width a)%Z -> (0 < height a)%Z ->
  pymax (r a) = Ok ma -> pymax (r b) = Ok mb ->
  ~ ma + mb - norm2 (displacement a b) <= 0 ->
  norm2 (displacement a b) <> 0 ->
  wrap (fst (center a)
        - 0.5 * (ma + mb - norm2 (displacement a b) + 0.5)
          * (fst (displacement a b) / norm2 (displacement a b)),
        snd (center a)
        - 0.5 * (ma + mb - norm2 (displacement a b) + 0.5)
          * (snd (displacement a b) / norm2 (displacement a b)))
       (width a) (height a) = Ok ca ->
  wrap (fst (center b)
        + 0.5 * (ma + mb - norm2 (displacement a b) + 0.5)
          * (fst (displacement a b) / norm2 (displacement a b)),
        snd (center b)
        + 0.5 * (ma + mb - norm2 (displacement a b) + 0.5)
          * (snd (displacement a b) / norm2 (displacement a b)))
       (width b) (height b) = Ok cb ->
  collide a b g
  = Ok ((set_vel (set_center a ca) (0, 0), set_vel (set_center b cb) (0, 0)), g).
Proof.
  intros Hwa Hha Ea Eb Ho Hd Eca Ecb.
  assert (Hza : Z.eqb (width a) 0 = false) by (apply Z.eqb_neq; lia).
  assert (Hzh : Z.eqb (height a) 0 = false) by (apply Z.eqb_neq; lia).
  unfold collide, bind, pure_step, ret, round_div.
  rewrite Hza, Hzh.
  fold (min_image (fst (center b) - fst (center a)) (width a)).
  fold (min_image (snd (center b) - snd (center a)) (height a)).
  change (min_image (fst (center b) - fst (center a)) (width a))
    with (fst (displacement a b)).
  change (min_image (snd (center b) - snd (center a)) (height a))
    with (snd (displacement a b)).
  replace (fst (displacement a b), snd (displacement a b))
    with (displacement a b) by (destruct (displacement a b); reflexivity).
  destruct (Req_dec_T (norm2 (displacement a b)) 0) as [Hd'|_];
    [contradiction|].
  rewrite Ea, Eb.
  destruct (Rle_dec (ma + mb - norm2 (displacement a b)) 0) as [Ho'|_];
    [contradiction|].
  rewrite Eca, Ecb. reflexivity.
Qed.

(** C5.  For two cells on a field of positive size, each with at least
    one vertex: with [ma], [mb] the largest radius of each, [d] the
    minimum-image displacement from [a] to [b] (each component at most
    half the axis long) and
    [overlap = ma + mb - |d|], [collide] leaves both cells (and the
    generator) as they were when [overlap <= 0] or [|d| = 0];
    otherwise it returns [a] with its centre moved by
    [0.5 * (overlap + 0.5)] along [- d / |d|] and wrapped, [b] with its
    centre moved by the same length along [+ d / |d|] and wrapped, and
    both velocities set to [(0, 0)]; nothing else of either cell
    changes. *)
Theorem collide_pushes_apart (a b : Cell) (g : G) :
  (0 < width a)%Z -> (0 < height a)%Z ->
  (0 < width b)%Z -> (0 < height b)%Z ->
  r a <> [] -> r b <> [] ->
  exists ma mb,
    is_max ma (r a) /\ is_max mb (r b) /\
    let d := displacement a b in
    let dist := norm2 d in
    let overlap := ma + mb - dist in
    let push := 0.5 * (overlap + 0.5) in
    let shift := (push * (fst d / dist), push * (snd d / dist)) in
    (Rabs (fst d) <= IZR (width a) / 2 /\ Rabs (snd d) <= IZR (height a) / 2) /\
    (overlap <= 0 \/ dist = 0 -> collide a b g = Ok ((a, b), g)) /\
    (~ (overlap <= 0 \/ dist = 0) ->
     norm2 shift = push /\
     exists ca cb,
       wrap (fst (center a) - fst shift, snd (center a) - snd shift)
            (width a) (height a) = Ok ca /\
       wrap (fst (center b) + fst shift, snd (center b) + snd shift)
            (width b) (height b) = Ok cb /\
       collide a b g
       = Ok ((set_vel (set_center a ca) (0, 0),
              set_vel (set_center b cb) (0, 0)), g)).
Proof.
  intros Hwa Hha Hwb Hhb Hra Hrb.
  destruct (pymax_spec (r a) Hra) as [ma [Ea Hma]].
  destruct (pymax_spec (r b) Hrb) as [mb [Eb Hmb]].
  exists ma, mb. split; [exact Hma|]. split; [exact Hmb|].
  cbv zeta.
  split; [split; apply min_image_short; assumption|].
  split.
  - intros Hcase. exact (collide_early a b g ma mb Hwa Hha Ea Eb Hcase).
  - intros Hcase.
    assert (Ho : ~ ma + mb - norm2 (displacement a b) <= 0) by tauto.
    assert (Hd : norm2 (displacement a b) <> 0) by tauto.
    split.
    { apply norm2_along; [lra|exact Hd]. }
    cbn [fst snd].
    match goal with
    | |- exists ca cb, wrap ?pa _ _ = _ /\ wrap ?pb _ _ = _ /\ _ =>
        destruct (wrap_in_rect pa (width a) (height a) Hwa Hha) as [ca [Eca _]];
        destruct (wrap_in_rect pb (width b) (height b) Hwb Hhb) as [cb [Ecb _]]
    end.
    exists ca, cb. repeat (split; [assumption|]).
    exact (collide_moves a b g ma mb ca cb Hwa Hha Ea Eb Ho Hd Eca Ecb).
Qed.
End Collision.

Lemma collide_pushes_apart_witness :
  exists ma mb,
    is_max ma (r (square_cell 0.06 100 100)) /\
    is_max mb (r (square_cell 0.06 101 100)) /\
    let d := displacement (square_cell 0.06 100 100) (square_cell 0.06 101 100) in
    let dist := norm2 d in
    let overlap := ma + mb - dist in
    let push := 0.5 * (overlap + 0.5) in
    let shift := (push * (fst d / dist), push * (snd d / dist)) in
    (Rabs (fst d) <= 512 / 2 /\ Rabs (snd d) <= 512 / 2) /\
    (overlap <= 0 \/ dist = 0 ->
     collide (square_cell 0.06 100 100) (square_cell 0.06 101 100) blank_tape
     = Ok ((square_cell 0.06 100 100, square_cell 0.06 101 100), blank_tape)) /\
    (~ (overlap <= 0 \/ dist = 0) ->
     norm2 shift = push /\
     exists ca cb,
       wrap (100 - fst shift, 100 - snd shift) 512 512 = Ok ca /\
       wrap (101 + fst shift, 100 + snd shift) 512 512 = Ok cb /\
       collide (square_cell 0.06 100 100) (square_cell 0.06 101 100) blank_tape
       = Ok ((set_vel (set_center (square_cell 0.06 100 100) ca) (0, 0),
              set_vel (set_center (square_cell 0.06 101 100) cb) (0, 0)),
             blank_tape)).
Proof.
  apply (collide_pushes_apart (square_cell 0.06 100 100)
                              (square_cell 0.06 101 100) blank_tape);
    simpl; (reflexivity || discriminate).
Defined.

(* ------------------------------------------------------------------ *)
(** ** A zero time step (C9)                                           *)
(* ------------------------------------------------------------------ *)

Section ZeroStep.
Context {G : Type} `{PyRandom G}.

(** C9.  For a cell with at least one vertex, a non-negative target
    area and its centre in the field, [update 0] returns (no fault: no
    square root of a negative number, no modulo by zero, no division by
    zero); the Brownian standard deviation is [sqrt (2 * D * 0) = 0],
    the friction factor is [max(0, 1 - friction * 0) = 1], and the
    returned cell has the centre and the velocity it started with. *)
Theorem update_zero_dt (c : Cell) (g : G) :
  in_field c -> well_shaped c -> 0 <= area0 c ->
  sqrt (2 * brownian_d c * 0) = 0 /\
  Rmax 0 (1 - friction c * 0) = 1 /\
  exists c' g',
    update 0 c g = Ok (c', g') /\ center c' = center c /\ vel c' = vel c.
Proof.
  intros Hf Hs Ha.
  assert (Hsig : sqrt (2 * brownian_d c * 0) = 0).
  { replace (2 * brownian_d c * 0) with 0 by ring. apply sqrt_0. }
  assert (Hfr : Rmax 0 (1 - friction c * 0) = 1).
  { replace (1 - friction c * 0) with 1 by ring. apply Rmax_right. lra. }
  split; [exact Hsig|]. split; [exact Hfr|].
  assert (Hw : (0 < width c)%Z).
  { apply lt_IZR. destruct Hf as [[? ?] _]. simpl. lra. }
  assert (Hh : (0 < height c)%Z).
  { apply lt_IZR. destruct Hf as [_ [? ?]]. simpl. lra. }
  destruct (update_returns 0 c g Hw Hh) as [c' [g' E]];
    [lra|exact Hs|exact Ha|].
  exists c', g'. split; [exact E|].
  apply update_inv in E.
  destruct E as (z1 & g1 & u1 & g2 & z2 & g3 & kb & g4 & u2 & p & _ & _ & _
                 & _ & _ & _ & Ew & Ec).
  apply conserve_area_inv in Ec. destruct Ec as [_ [-> _]].
  simpl. rewrite Hsig, Hfr. split.
  - assert (Em : update_moved 0 c (0 + z1 * sqrt (2 * brownian_d c * 0))
                              (0 + (2 * PI - 0) * u1) = center c).
    { unfold update_moved. destruct (center c) as [cx cy]. simpl.
      f_equal; ring. }
    rewrite Em, (wrap_fixed (center c) (width c) (height c) Hf) in Ew.
    now injection Ew as <-.
  - destruct (vel c) as [vx vy]. simpl. f_equal; ring.
Qed.
End ZeroStep.

Lemma square_cell_in_field (ruffle : R) : in_field (square_cell ruffle 100 100).
Proof. unfold in_field, in_rect. simpl. lra. Qed.

Lemma update_zero_dt_witness :
  sqrt (2 * 80 * 0) = 0 /\
  Rmax 0 (1 - 3 * 0) = 1 /\
  exists c' g',
    update 0 (square_cell 0.06 100 100) blank_tape = Ok (c', g') /\
    center c' = (100, 100) /\ vel c' = (0, 0).
Proof.
  apply (update_zero_dt (square_cell 0.06 100 100) blank_tape).
  - unfold in_field, in_rect. simpl. lra.
  - unfold well_shaped. simpl. repeat split; lia.
  - simpl. pose proof PI_RGT_0. lra.
Defined.

(* ------------------------------------------------------------------ *)
(** ** Determinism (C7)                                                *)
(* ------------------------------------------------------------------ *)

Section Determinism.
Context {G : Type} `{PyRandom G}.

Lemma make_cells_returns (cfg : Config) (n : nat) (g : G) :
  exists cs g', make_cells cfg n g = Ok (cs, g').
Proof.
  revert g. induction n as [|n IH]; intros g; simpl.
  - eexists; eexists; reflexivity.
  - unfold Cell_init, uniform, rand, ret, bind.
    destruct (next_random g) as [u g1].
    destruct (next_random g1) as [u1 g2].
    destruct (next_random g2) as [u2 g3].
    destruct (IH g3) as [cs [g' E]]. unfold bind, ret in E. rewrite E.
    eexists; eexists; reflexivity.
Qed.

Context {N : Type} `{NumpyRandom N}.

(** The filter returns or raises whatever NumPy's generator holds. *)
Lemma microscope_filter_outcome (o : Optics) (w h : Z) (layer : Surface)
      (n : N) :
  (noise_std o < 0 /\ _microscope_filter o w h layer n = Raise ValueError) \/
  (exists noise n',
      _microscope_filter o w h layer n
      = Ok (mkFrame layer o noise None, n')).
Proof.
  unfold _microscope_filter. destruct (Rlt_dec (noise_std o) 0) as [Hn|_].
  - left. split; [exact Hn|reflexivity].
  - right. destruct (np_normal 0 (noise_std o) (Z.to_nat (h * w)) n)
      as [noise n'].
    exists noise, n'. reflexivity.
Qed.

(** C7.  Two simulators built with the same configuration (seed
    included) and the same rendering parameters, each in a world of its
    own, and called with the same masks.  [get_frame] takes no [dt]: it
    reads the clock.  When the two clocks show the same elapsed time
    between successive readings (whatever the readings themselves are),
    the two simulators hand out the same polygon sets (centres and
    vertex positions) frame after frame, and raise at the same frame
    with the same exception if they raise.  This holds whatever NumPy's
    global generator holds in either world: the noise of the filter is
    drawn after the physics of a frame and never reaches the cells. *)
Theorem same_seed_same_trajectory
        (o : Optics) (cfg : Config) (masks : list Mask) (w1 w2 : World N) :
  (forall i,
      readings w1 (reads w1 + S i) - readings w1 (reads w1 + i)
      = readings w2 (reads w2 + S i) - readings w2 (reads w2 + i)) ->
  session (G := G) o cfg masks w1 = session (G := G) o cfg masks w2.
Proof.
  intros Hdt.
  assert (Hgen : forall (ms : list Mask) (s1 s2 : Sim G) (u1 u2 : World N),
             config s1 = config s2 -> rng s1 = rng s2 ->
             _cells s1 = _cells s2 ->
             readings u1 (reads u1) - _last_time s1
             = readings u2 (reads u2) - _last_time s2 ->
             (forall i,
                 readings u1 (reads u1 + S i) - readings u1 (reads u1 + i)
                 = readings u2 (reads u2 + S i) - readings u2 (reads u2 + i)) ->
             frames o s1 ms u1 = frames o s2 ms u2).
  { induction ms as [|m t IH]; intros s1 s2 u1 u2 Ecfg Eg Ec E0 Ei;
      [reflexivity|].
    cbn [frames]. unfold MicroscopeSim_get_frame, perf_counter, get_frame.
    cbn [fst snd readings reads np_random].
    rewrite E0, Ec, Eg, Ecfg.
    destruct (tick m (readings u2 (reads u2) - _last_time s2)
                   (_cells s2) (rng s2)) as [[cs g]|e]; cbn [rbind fst snd];
      [|reflexivity].
    unfold cell_layer. cbn [_cells config].
    destruct (rfold (fun surf c => draw c surf) cs [Fill (235, 235, 235)%Z])
      as [layer|e]; cbn [rbind]; [|reflexivity].
    destruct (microscope_filter_outcome o (cfg_width (config s2))
                (cfg_height (config s2)) layer (np_random u1))
      as [[Hneg E1]|[noise1 [n1 E1]]];
      destruct (microscope_filter_outcome o (cfg_width (config s2))
                  (cfg_height (config s2)) layer (np_random u2))
      as [[Hneg' E2]|[noise2 [n2 E2]]];
      rewrite E1, E2; cbn [rbind fst snd]; try reflexivity;
      try (exfalso;
           unfold _microscope_filter in *;
           destruct (Rlt_dec (noise_std o) 0);
           [ repeat match goal with
                    | K : context [np_normal ?a ?b ?c ?d] |- _ =>
                        destruct (np_normal a b c d)
                    end; discriminate
           | contradiction ]).
    assert (Enext :
              frames o (mkSim (config s2) g cs (readings u1 (reads u1))) t
                     (mkWorld (readings u1) (S (reads u1)) n1)
              = frames o (mkSim (config s2) g cs (readings u2 (reads u2))) t
                       (mkWorld (readings u2) (S (reads u2)) n2)).
    { apply IH; cbn [config rng _cells _last_time readings reads];
        try reflexivity.
      - specialize (Ei 0%nat). rewrite !Nat.add_0_r in Ei.
        rewrite !Nat.add_1_r in Ei. exact Ei.
      - intros i. specialize (Ei (S i)).
        replace (reads u1 + S (S i))%nat with (S (reads u1) + S i)%nat in Ei
          by lia.
        replace (reads u1 + S i)%nat with (S (reads u1) + i)%nat in Ei by lia.
        replace (reads u2 + S (S i))%nat with (S (reads u2) + S i)%nat in Ei
          by lia.
        replace (reads u2 + S i)%nat with (S (reads u2) + i)%nat in Ei by lia.
        exact Ei. }
    unfold overlay. cbn [frame_layer frame_optics frame_noise].
    destruct (overlay_mask o); [|cbn [fst snd]; now rewrite Enext].
    destruct ((Z.of_nat (shape1 m) =? cfg_width (config s2))
              && (Z.of_nat (shape0 m) =? cfg_height (config s2)))%Z;
      cbn [rbind fst snd]; [now rewrite Enext|reflexivity]. }
  unfold session, MicroscopeSim_init, perf_counter, Sim_init.
  cbn [fst snd readings reads np_random].
  destruct (make_cells_returns cfg (cfg_nb_cells cfg)
                               (seed_rng (cfg_rng_seed cfg))) as [cs [g E]].
  rewrite E. cbn [rbind fst snd].
  apply Hgen; cbn [config rng _cells _last_time readings reads];
    try reflexivity.
  - specialize (Hdt 0%nat). rewrite !Nat.add_0_r, !Nat.add_1_r in Hdt.
    exact Hdt.
  - intros i. specialize (Hdt (S i)).
    replace (reads w1 + S (S i))%nat with (S (reads w1) + S i)%nat in Hdt
      by lia.
    replace (reads w1 + S i)%nat with (S (reads w1) + i)%nat in Hdt by lia.
    replace (reads w2 + S (S i))%nat with (S (reads w2) + S i)%nat in Hdt
      by lia.
    replace (reads w2 + S i)%nat with (S (reads w2) + i)%nat in Hdt by lia.
    exact Hdt.
Qed.
End Determinism.


(* ------------------------------------------------------------------ *)
(** ** The draws of one [update] (C3)                                  *)
(* ------------------------------------------------------------------ *)

Section Ruffling.
Context {G : Type} `{PyRandom G}.

(** [update], as a function of its draws. *)
Lemma update_by_draws (dt : R) (c c' : Cell) (g g' : G) :
  update dt c g = Ok (c', g') ->
  let d := update_draws dt c g in
  g' = snd d /\
  exists center2,
    wrap (update_moved dt c (kick_amp d) (kick_angle d)) (width c) (height c)
    = Ok center2 /\
    _conserve_area
      (update_clamped dt c (kick_amp d) (kick_angle d) (ruffle_sample d)
                      (harmonic d) (ruffle_phase d) center2) = Ok c'.
Proof.
  intros E. apply update_inv in E.
  destruct E as (z1 & g1 & u1 & g2 & z2 & g3 & kb & g4 & u2 & p & _ & E1 & E2
                 & E3 & E4 & E5 & Ew & Ec).
  unfold update_draws, normalvariate, uniform, randint.
  rewrite E1, E2, E3. change (3 + 1 - 1)%Z with 3%Z. rewrite E4, E5.
  simpl. split; [reflexivity|]. exists p. split; assumption.
Qed.



End Ruffling.


(* ------------------------------------------------------------------ *)
(** ** Four-vertex cells, evaluated                                    *)
(* ------------------------------------------------------------------ *)

(** Equality of two explicit arrays, element by element. *)
Ltac by_elements tac :=
  repeat (apply (f_equal2 (@cons _)); [tac|]); try reflexivity.

Lemma linspace_4 : linspace_2pi 4 = [0; PI / 2; PI; 3 * (PI / 2)].
Proof. unfold linspace_2pi. simpl. by_elements ltac:(field). Qed.

Lemma square_rel_pts (c : Cell) (r0 r1 r2 r3 : R) :
  angles c = linspace_2pi 4 -> r c = [r0; r1; r2; r3] ->
  _rel_pts c = [(r0, 0); (0, r1); (- r2, 0); (0, - r3)].
Proof.
  intros Ea Er. rewrite rel_pts_pairs, Ea, Er, linspace_4. simpl.
  rewrite cos_0, sin_0, cos_PI2, sin_PI2, cos_PI, sin_PI, cos_3PI2, sin_3PI2.
  by_elements ltac:(apply (f_equal2 (@pair _ _)); ring).
Qed.

(** The shoelace sum of a four-vertex cell. *)
Lemma square_shoelace (c : Cell) (r0 r1 r2 r3 : R) :
  angles c = linspace_2pi 4 -> r c = [r0; r1; r2; r3] ->
  shoelace (abs_pts c) = 0.5 * (r0 + r2) * (r1 + r3).
Proof.
  intros Ea Er. rewrite abs_pts_shoelace, (square_rel_pts c r0 r1 r2 r3 Ea Er).
  unfold shoelace. simpl. ring.
Qed.






(* ------------------------------------------------------------------ *)
(** ** The radius band (C1)                                            *)
(* ------------------------------------------------------------------ *)


Lemma PI_gt_3 : 3 < PI.
Proof. pose proof PI2_3_2. lra. Qed.



Section RadiusBand.
Context {G : Type} `{PyRandom G}.

Lemma clamped_in_band (c : Cell) (rs : list R) :
  0 <= base_r c ->
  Forall (fun x => band_lo c <= x <= band_hi c) (clip rs (band_lo c) (band_hi c)).
Proof.
  intros Hb. apply clip_band. unfold band_lo, band_hi. lra.
Qed.

(** What [stimulate] returns when it did not return early. *)
Lemma stimulate_inv (mask : Mask) (c c' : Cell) (g g' : G) :
  stimulate mask c g = Ok (c', g') ->
  c' = c \/
  exists idx c1 v,
    _conserve_area
      (set_r c (clip (add_at idx (protrusion_gain c * base_r c) (r c))
                     (band_lo c) (band_hi c))) = Ok c1 /\
    c' = set_vel c1 v.
Proof.
  unfold stimulate, bind, pure_step, ret. intros E.
  destruct (negb (any (inside_flags c))); [left; now injection E as <- _|].
  match type of E with
  | context [mask_take ?m ?iy ?ix] => destruct (mask_take m iy ix) as [hit|]
  end; [|discriminate].
  destruct (negb (any hit)); [left; now injection E as <- _|].
  right.
  match type of E with
  | context [_conserve_area ?x] => destruct (_conserve_area x) as [c1|] eqn:Ec
  end; [|discriminate].
  exists (compress hit (nonzero (inside_flags c))), c1.
  match type of E with
  | context [Req_dec_T ?n 0] => destruct (Req_dec_T n 0)
  end; injection E as <- _.
  - exists (vel c1). split; [exact Ec|]. destruct c1; reflexivity.
  - eexists. split; [exact Ec|reflexivity].
Qed.


End RadiusBand.



(* ------------------------------------------------------------------ *)
(** ** A one-cell simulator, from its constructor                      *)
(* ------------------------------------------------------------------ *)

Lemma tape_next_random_cons (u : R) (us zs : list R) (ks : list Z) :
  0 <= u < 1 ->
  tape_next_random (mkTape (u :: us) zs ks) = (u, mkTape us zs ks).
Proof.
  intros [H0 H1]. unfold tape_next_random. simpl.
  destruct (Rle_dec 0 u); [|lra]. destruct (Rlt_dec u 1); [|lra]. reflexivity.
Qed.

(** [Cell.__init__] on [tape_square] builds [square_cell _ 100 100]. *)
Lemma square_cell_fresh (ruffle : R) (zs : list R) (ks : list Z) :
  Cell_init 512 512 1 4 3 80 0.06 0.02 0.05 10 ruffle (tape_square zs ks)
  = Ok (square_cell ruffle 100 100, mkTape [] zs ks).
Proof.
  unfold Cell_init, uniform, rand, ret, bind, tape_square. simpl next_random.
  rewrite !tape_next_random_cons by lra.
  replace (1 * (0.85 + 0.3 * (1 / 2))) with 1 by lra.
  replace (0 + (512 - 0) * (100 / 512)) with 100 by lra.
  reflexivity.
Qed.


Section OneCell.
Context {G : Type} `{PyRandom G}.

End OneCell.


(* ------------------------------------------------------------------ *)
(** ** The polygon of a cell with equally spaced vertices              *)
(* ------------------------------------------------------------------ *)

Lemma dot_chain (first p : vec2) (rest : list vec2) :
  dot (map fst (p :: rest)) (map snd rest ++ [snd first])
  - dot (map snd (p :: rest)) (map fst rest ++ [fst first])
  = chain first p rest.
Proof.
  revert p. induction rest as [|q t IH]; intros p.
  - simpl. unfold cross. ring.
  - specialize (IH q). simpl in *. unfold cross. lra.
Qed.

Lemma shoelace_chain (p : vec2) (rest : list vec2) :
  shoelace (p :: rest) = 0.5 * chain p p rest.
Proof. unfold shoelace. rewrite <- dot_chain. reflexivity. Qed.

Lemma cross_polar (a b x y : R) :
  cross (polar a x) (polar b y) = x * y * sin (b - a).
Proof. unfold cross, polar. simpl. rewrite sin_minus. ring. Qed.

Lemma chain_polar_positive (V : nat) (h x0 : R) :
  INR V * h = 2 * PI -> 0 < sin h -> 0 < x0 ->
  forall (n j : nat) (rs : list R) (xj : R),
    length rs = n -> (j + 1 + n = V)%nat ->
    Forall (fun x => 0 < x) rs -> 0 < xj ->
    0 < chain (polar (INR 0 * h) x0) (polar (INR j * h) xj)
              (zip_with polar (map (fun i => INR i * h) (seq (S j) n)) rs).
Proof.
  intros HV Hsin Hx0. induction n as [|n IH]; intros j rs xj Hl Hj Hrs Hxj.
  - destruct rs; [|discriminate]. simpl. rewrite cross_polar.
    assert (E : 0 * h - INR j * h = h - 2 * PI).
    { rewrite <- HV, <- Hj. rewrite !plus_INR. simpl. ring. }
    rewrite E. unfold Rminus. rewrite sin_plus, cos_neg, sin_neg, cos_2PI, sin_2PI.
    replace (xj * x0 * (sin h * 1 + cos h * - 0)) with (xj * x0 * sin h) by ring.
    apply Rmult_lt_0_compat; [apply Rmult_lt_0_compat|]; assumption.
  - destruct rs as [|x rt]; [discriminate|]. injection Hl as Hl.
    inversion Hrs as [|? ? Hx Hrt]; subst.
    cbn [seq map zip_with chain]. rewrite cross_polar.
    assert (E : INR (S j) * h - INR j * h = h) by (rewrite S_INR; ring).
    rewrite E.
    assert (0 < chain (polar (INR 0 * h) x0) (polar (INR (S j) * h) x)
                      (zip_with polar
                                (map (fun i => INR i * h) (seq (S (S j)) (length rt)))
                                rt))
      by (apply IH; [reflexivity|lia|assumption|assumption]).
    assert (0 < xj * x * sin h)
      by (apply Rmult_lt_0_compat; [apply Rmult_lt_0_compat|]; assumption).
    lra.
Qed.

Lemma sin_step_positive (V : nat) : (3 <= V)%nat -> 0 < sin (2 * PI / INR V).
Proof.
  intros HV. pose proof PI_RGT_0 as Hpi.
  assert (H3 : 3 <= INR V) by (apply (le_INR 3) in HV; simpl in HV; lra).
  apply sin_gt_0.
  - apply Rdiv_lt_0_compat; lra.
  - apply (Rmult_lt_reg_r (INR V)); [lra|].
    replace (2 * PI / INR V * INR V) with (2 * PI) by (field; lra). nra.
Qed.

(** With positive radii the polygon of a regular cell has positive
    signed area. *)
Lemma regular_area_positive (c : Cell) :
  regular c -> Forall (fun x => 0 < x) (r c) -> 0 < shoelace (abs_pts c).
Proof.
  intros (Ha & Hl & HV & _ & _) Hr.
  rewrite abs_pts_shoelace, rel_pts_pairs, Ha. unfold linspace_2pi.
  destruct (vertices c) as [|n] eqn:EV; [lia|].
  destruct (r c) as [|x0 rt]; [discriminate|]. injection Hl as Hl.
  apply Forall_cons_iff in Hr. destruct Hr as [Hx0 Hrt]. subst n.
  cbn [seq map zip_with].
  change (fun a x => (cos a * x, sin a * x)) with polar.
  change (cos (INR 0 * (2 * PI / INR (S (length rt)))) * x0,
          sin (INR 0 * (2 * PI / INR (S (length rt)))) * x0)
    with (polar (INR 0 * (2 * PI / INR (S (length rt)))) x0).
  rewrite shoelace_chain.
  assert (0 < chain (polar (INR 0 * (2 * PI / INR (S (length rt)))) x0)
                    (polar (INR 0 * (2 * PI / INR (S (length rt)))) x0)
                    (zip_with polar
                       (map (fun i => INR i * (2 * PI / INR (S (length rt))))
                            (seq 1 (length rt))) rt)).
  { apply (chain_polar_positive (S (length rt))); try assumption.
    - field. apply not_0_INR. discriminate.
    - apply sin_step_positive. lia.
    - reflexivity.
    - lia. }
  apply Rmult_lt_0_compat; [lra|assumption].
Qed.

Lemma add_at_length (idx : list nat) (d : R) (xs : list R) :
  length (add_at idx d xs) = length xs.
Proof.
  unfold add_at. rewrite zip_with_length, length_seq. lia.
Qed.

Lemma clamped_positive (c : Cell) (rs : list R) :
  0 < base_r c ->
  Forall (fun x => 0 < x) (clip rs (band_lo c) (band_hi c)).
Proof.
  intros Hb.
  assert (Hband : Forall (fun x => band_lo c <= x <= band_hi c)
                         (clip rs (band_lo c) (band_hi c)))
    by (apply clamped_in_band; lra).
  rewrite Forall_forall in *. intros x Hx. specialize (Hband x Hx).
  unfold band_lo in Hband. lra.
Qed.

(** The rescale of a regular cell whose radii were just clamped. *)
Lemma conserve_clamped (c x c' : Cell) (rs : list R) :
  regular c ->
  angles x = angles c -> vertices x = vertices c -> base_r x = base_r c ->
  area0 x = area0 c ->
  r x = clip rs (band_lo c) (band_hi c) -> length rs = vertices c ->
  _conserve_area x = Ok c' ->
  regular c' /\ area_conserved c'.
Proof.
  intros Hreg Ea Ev Eb E0 Er Hl Ec.
  assert (Hregx : regular x).
  { destruct Hreg as (H1 & H2 & H3 & H4 & H5).
    unfold regular. rewrite Ea, Ev, Eb, E0, Er, clip_length.
    repeat split; assumption. }
  assert (Hpos : 0 < shoelace (abs_pts x)).
  { apply regular_area_positive; [exact Hregx|].
    rewrite Er. apply clamped_positive. apply Hreg. }
  assert (Hnz : shoelace (abs_pts x) <> 0) by lra.
  pose proof (conserve_area_exact x c' Ec Hnz) as Hexact.
  pose proof (conserve_area_inv x c' Ec) as [Hne [E1 _]].
  assert (Hregc : regular c').
  { destruct Hregx as (H1 & H2 & H3 & H4 & H5).
    rewrite E1. unfold regular. simpl. rewrite length_map.
    repeat split; assumption. }
  split; [exact Hregc|]. split.
  - apply polygon_area_shoelace. apply abs_pts_nonempty.
    + destruct Hregc as (H1 & H2 & H3 & _). rewrite H1.
      unfold linspace_2pi. rewrite length_map, length_seq. lia.
    + destruct Hregc as (_ & H2 & H3 & _). lia.
  - rewrite Hexact by (destruct Hregx as (_ & _ & _ & _ & H5); exact H5).
    rewrite E1. reflexivity.
Qed.

(* ------------------------------------------------------------------ *)
(** ** Area conservation (C2)                                          *)
(* ------------------------------------------------------------------ *)

Lemma linspace_length (n : nat) : length (linspace_2pi n) = n.
Proof. unfold linspace_2pi. now rewrite length_map, length_seq. Qed.

Lemma set_nth_Forall {A : Type} (P : A -> Prop) (i : nat) (x : A) (xs : list A) :
  P x -> Forall P xs -> Forall P (set_nth i x xs).
Proof.
  intros Hx. revert i. induction xs as [|y t IH]; intros i Hxs.
  - destruct i; constructor.
  - inversion Hxs as [|? ? Hy Ht]; subst.
    destruct i; simpl; constructor; auto.
Qed.

Lemma nth_error_Forall {A : Type} (P : A -> Prop) (i : nat) (x : A) (xs : list A) :
  Forall P xs -> nth_error xs i = Some x -> P x.
Proof.
  intros Hxs Hi. rewrite Forall_forall in Hxs. apply Hxs.
  eapply nth_error_In; eassumption.
Qed.

Section AreaConservation.
Context {G : Type} `{PyRandom G}.

Lemma for_each_Forall (P Q : Cell -> Prop) (f : Cell -> M G Cell) :
  (forall c c' g g', P c -> f c g = Ok (c', g') -> Q c') ->
  forall cs cs' g g',
    Forall P cs -> for_each f cs g = Ok (cs', g') -> Forall Q cs'.
Proof.
  intros Hf. induction cs as [|c t IH]; intros cs' g g' HP E; simpl in E.
  - unfold ret in E. injection E as <- _. constructor.
  - inversion HP as [|? ? Hc Ht]; subst. unfold bind in E.
    destruct (f c g) as [[c1 g1]|] eqn:E1; [|discriminate].
    destruct (for_each f t g1) as [[t1 g2]|] eqn:E2; [|discriminate].
    unfold ret in E. injection E as <- _. constructor.
    + exact (Hf c c1 g g1 Hc E1).
    + exact (IH t1 g1 g2 Ht E2).
Qed.

Lemma collide_pairs_Forall (P : Cell -> Prop) :
  (forall (a b a' b' : Cell) (g g' : G),
      P a -> P b -> collide a b g = Ok ((a', b'), g') -> P a' /\ P b') ->
  forall (ps : list (nat * nat)) (cs cs' : list Cell) (g g' : G),
    Forall P cs -> collide_pairs ps cs g = Ok (cs', g') -> Forall P cs'.
Proof.
  intros Hc. induction ps as [|ij t IH]; intros cs cs' g g' HP E; simpl in E.
  - unfold ret in E. now injection E as <- _.
  - unfold bind in E.
    destruct (collide_at cs ij g) as [[cs1 g1]|] eqn:E1; [|discriminate].
    apply (IH cs1 cs' g1 g'); [|exact E].
    unfold collide_at in E1.
    destruct (nth_error cs (fst ij)) as [a|] eqn:Ea;
      [|unfold ret in E1; now injection E1 as <- _].
    destruct (nth_error cs (snd ij)) as [b|] eqn:Eb;
      [|unfold ret in E1; now injection E1 as <- _].
    unfold bind in E1.
    destruct (collide a b g) as [[[a' b'] g2]|] eqn:E2; [|discriminate].
    unfold ret in E1. injection E1 as <- _. simpl.
    destruct (Hc a b a' b' g g2) as [Ha' Hb'];
      [exact (nth_error_Forall P _ a cs HP Ea)
      |exact (nth_error_Forall P _ b cs HP Eb)|exact E2|].
    apply set_nth_Forall; [exact Hb'|].
    apply set_nth_Forall; [exact Ha'|exact HP].
Qed.

Lemma update_area (dt : R) (c c' : Cell) (g g' : G) :
  regular c -> update dt c g = Ok (c', g') -> regular c' /\ area_conserved c'.
Proof.
  intros Hreg E. apply update_by_draws in E. cbv zeta in E.
  destruct E as [_ [p [_ Ec]]].
  destruct Hreg as (Ha & Hl & HV & Hb & H0).
  eapply (conserve_clamped c); [repeat split; eassumption| | | | | | |exact Ec];
    try reflexivity.
  rewrite relaxed_length, ruffled_length; [exact Hl|].
  rewrite Ha, linspace_length. symmetry. exact Hl.
Qed.

Lemma area_conserved_set_vel (c : Cell) (v : vec2) :
  area_conserved c -> area_conserved (set_vel c v).
Proof. intros Hc. exact Hc. Qed.

Lemma regular_set_vel (c : Cell) (v : vec2) : regular c -> regular (set_vel c v).
Proof. intros Hc. exact Hc. Qed.

Lemma stimulate_area (mask : Mask) (c c' : Cell) (g g' : G) :
  regular c -> stimulate mask c g = Ok (c', g') ->
  regular c' /\ (c' = c \/ area_conserved c').
Proof.
  intros Hreg E. apply stimulate_inv in E.
  destruct E as [->|[idx [c1 [v [Ec ->]]]]]; [split; [exact Hreg|now left]|].
  assert (Hc1 : regular c1 /\ area_conserved c1).
  { destruct Hreg as (Ha & Hl & HV & Hb & H0).
    eapply (conserve_clamped c); [repeat split; eassumption| | | | | | |exact Ec];
      try reflexivity.
    rewrite add_at_length. exact Hl. }
  destruct Hc1 as [Hr1 Ha1]. split.
  - apply regular_set_vel. exact Hr1.
  - right. apply area_conserved_set_vel. exact Ha1.
Qed.

(** Moving the centre moves every vertex by the same vector. *)
Lemma area_conserved_set_center (c : Cell) (p : vec2) :
  area_conserved c -> area_conserved (set_center c p).
Proof.
  intros [Hp Ha]. unfold area_conserved.
  assert (Es : shoelace (abs_pts (set_center c p)) = shoelace (abs_pts c)).
  { rewrite !abs_pts_shoelace. reflexivity. }
  rewrite Es. split; [|exact Ha].
  rewrite polygon_area_shoelace; [now rewrite Es|].
  intro E. apply abs_pts_nil in E.
  assert (E' : abs_pts c = []) by (apply abs_pts_nil; exact E).
  rewrite E' in Hp. discriminate.
Qed.

Lemma collide_area (a b a' b' : Cell) (g g' : G) :
  regular a /\ area_conserved a -> regular b /\ area_conserved b ->
  collide a b g = Ok ((a', b'), g') ->
  (regular a' /\ area_conserved a') /\ (regular b' /\ area_conserved b').
Proof.
  intros [Hra Haa] [Hrb Hab] E. apply collide_inv in E.
  destruct E as [_ [[-> ->]|E]]; [split; split; assumption|].
  destruct E as (ma & mb & ca & cb & _ & _ & _ & _ & _ & _ & -> & ->).
  split; split.
  - exact Hra.
  - apply area_conserved_set_vel, area_conserved_set_center. exact Haa.
  - exact Hrb.
  - apply area_conserved_set_vel, area_conserved_set_center. exact Hab.
Qed.

Lemma frame_area (s s' : Sim G) (mask : Mask) (now : R) :
  Forall regular (_cells s) ->
  get_frame s mask now = Ok s' ->
  Forall (fun c => regular c /\ area_conserved c) (_cells s').
Proof.
  intros Hreg E. unfold get_frame in E.
  destruct (tick mask (now - _last_time s) (_cells s) (rng s))
    as [[cs g]|] eqn:Et; [|discriminate].
  simpl in E. injection E as <-. simpl.
  unfold tick, bind in Et.
  destruct ((if mask_any mask then for_each (stimulate mask) (_cells s)
             else ret (_cells s)) (rng s)) as [[cs1 g1]|] eqn:E1;
    [|discriminate].
  destruct (for_each (update (now - _last_time s)) cs1 g1) as [[cs2 g2]|] eqn:E2;
    [|discriminate].
  assert (H1 : Forall regular cs1).
  { destruct (mask_any mask).
    - apply (for_each_Forall regular regular (stimulate mask)
                             (fun c c' g0 g0' Hc E0 =>
                                proj1 (stimulate_area mask c c' g0 g0' Hc E0))
                             _ _ _ _ Hreg E1).
    - unfold ret in E1. now injection E1 as <- _. }
  assert (H2 : Forall (fun c => regular c /\ area_conserved c) cs2).
  { apply (for_each_Forall regular _ (update (now - _last_time s))
                           (update_area (now - _last_time s)) _ _ _ _ H1 E2). }
  apply (collide_pairs_Forall _ collide_area _ _ _ _ _ H2 Et).
Qed.

(** C2, as the code has it (in real arithmetic, where the rescale is
    exact).  For a cell with at least three equally spaced vertices, a
    positive base radius and a non-negative target area: after every
    [update], and after every [stimulate] that did not return early,
    [polygon_area] of the cell's vertices has absolute value [area0];
    a [stimulate] that returns early leaves the cell as it was (area
    included); [collide] keeps the area of both cells; hence after
    every completed frame every cell has area [area0]. *)
Theorem area_restored_by_rescale
        (mask : Mask) (dt now : R) (c b : Cell) (s : Sim G) (g : G) :
  regular c -> regular b -> Forall regular (_cells s) ->
  (forall c' g', update dt c g = Ok (c', g') ->
     exists A, polygon_area (abs_pts c') = Ok A /\ Rabs A = area0 c /\
               area0 c' = area0 c) /\
  (forall c' g', stimulate mask c g = Ok (c', g') ->
     c' = c \/
     exists A, polygon_area (abs_pts c') = Ok A /\ Rabs A = area0 c /\
               area0 c' = area0 c) /\
  (forall c' b' g', area_conserved c -> area_conserved b ->
     collide c b g = Ok ((c', b'), g') ->
     area_conserved c' /\ area_conserved b') /\
  (forall s', get_frame s mask now = Ok s' ->
     Forall (fun c' => exists A, polygon_area (abs_pts c') = Ok A /\
                                 Rabs A = area0 c') (_cells s')).
Proof.
  intros Hc Hb Hs. split; [|split; [|split]].
  - intros c' g' E.
    pose proof (update_keeps_base _ _ _ _ _ E) as (_ & E0 & _).
    destruct (update_area dt c c' g g' Hc E) as [_ [Hp Ha]].
    eexists. split; [exact Hp|]. split; [rewrite Ha; exact E0|exact E0].
  - intros c' g' E.
    destruct (stimulate_area mask c c' g g' Hc E) as [_ [->|[Hp Ha]]];
      [now left|right].
    apply stimulate_inv in E.
    destruct E as [->|[idx [c1 [v [Ec ->]]]]].
    + eexists. split; [exact Hp|]. split; [exact Ha|reflexivity].
    + apply conserve_area_inv in Ec. destruct Ec as [_ [E1 _]].
      assert (E0 : area0 (set_vel c1 v) = area0 c) by (rewrite E1; reflexivity).
      eexists. split; [exact Hp|]. split; [rewrite Ha; exact E0|exact E0].
  - intros c' b' g' Hac Hab E.
    destruct (collide_area c b c' b' g g' (conj Hc Hac) (conj Hb Hab) E)
      as [[_ H1] [_ H2]].
    split; assumption.
  - intros s' E. pose proof (frame_area s s' mask now Hs E) as HF.
    rewrite Forall_forall in *. intros c' Hin.
    destruct (HF c' Hin) as [_ [Hp Ha]]. eexists. split; eassumption.
Qed.
End AreaConservation.

Lemma square_cell_regular (ruffle cx cy : R) : regular (square_cell ruffle cx cy).
Proof.
  unfold regular. simpl. repeat split; try lia; try lra.
  apply PI_nonneg_area.
Qed.


Lemma area_restored_by_rescale_witness :
  (forall c' g',
      update (1 / 60) (square_cell 0.06 100 100) blank_tape = Ok (c', g') ->
      exists A, polygon_area (abs_pts c') = Ok A /\
                Rabs A = area0 (square_cell 0.06 100 100) /\
                area0 c' = area0 (square_cell 0.06 100 100)) /\
  (forall c' g',
      stimulate (bright_mask 512 512) (square_cell 0.06 100 100) blank_tape
      = Ok (c', g') ->
      c' = square_cell 0.06 100 100 \/
      exists A, polygon_area (abs_pts c') = Ok A /\
                Rabs A = area0 (square_cell 0.06 100 100) /\
                area0 c' = area0 (square_cell 0.06 100 100)) /\
  (forall c' b' g',
      area_conserved (square_cell 0.06 100 100) ->
      area_conserved (square_cell 0.06 101 100) ->
      collide (square_cell 0.06 100 100) (square_cell 0.06 101 100) blank_tape
      = Ok ((c', b'), g') ->
      area_conserved c' /\ area_conserved b') /\
  (forall s',
      get_frame (mkSim (square_config 2 0.06 0) blank_tape
                       [square_cell 0.06 100 100; square_cell 0.06 101 100] 0)
                (bright_mask 512 512) (1 / 60) = Ok s' ->
      Forall (fun c' => exists A, polygon_area (abs_pts c') = Ok A /\
                                  Rabs A = area0 c') (_cells s')).
Proof.
  apply (area_restored_by_rescale
           (bright_mask 512 512) (1 / 60) (1 / 60)
           (square_cell 0.06 100 100) (square_cell 0.06 101 100)
           (mkSim (square_config 2 0.06 0) blank_tape
                  [square_cell 0.06 100 100; square_cell 0.06 101 100] 0)
           blank_tape).
  - apply square_cell_regular.
  - apply square_cell_regular.
  - simpl. constructor; [apply square_cell_regular|].
    constructor; [apply square_cell_regular|constructor].
Defined.

(** C2 as stated fails.  A freshly built four-vertex cell of base radius
    1 has polygon area 2 while its target area is [PI]; a [stimulate]
    with a mask that has no pixel set returns early, without a rescale,
    so after this call the area is off the target by more than a
    millionth of it. *)
Lemma fresh_cell_area_off_target :
  exists c g A,
    Cell_init 512 512 1 4 3 80 0.06 0.02 0.05 10 0.06 (tape_square [] [])
    = Ok (c, g) /\
    stimulate (dark_mask 512 512) c g = Ok (c, g) /\
    polygon_area (abs_pts c) = Ok A /\
    A = 2 /\ area0 c = PI /\
    ~ Rabs (Rabs A - area0 c) <= 0.000001 * area0 c.
Proof.
  exists (square_cell 0.06 100 100), blank_tape, 2.
  split; [apply square_cell_fresh|].
  split.
  { apply stimulate_dark; simpl; lia. }
  split.
  { rewrite polygon_area_shoelace
      by (apply abs_pts_nonempty; simpl; lia).
    rewrite (square_shoelace _ 1 1 1 1) by reflexivity.
    f_equal. lra. }
  split; [reflexivity|]. split; [simpl; ring|].
  simpl area0. replace (PI * (1 * 1)) with PI by ring.
  pose proof PI_gt_3. pose proof PI_4.
  rewrite (Rabs_pos_eq 2) by lra.
  rewrite Rabs_left1 by lra. lra.
Qed.

(* ------------------------------------------------------------------ *)
(** ** Masks whose shape is not the field's (C6)                       *)
(* ------------------------------------------------------------------ *)






Section MaskShape.
Context {G : Type} `{PyRandom G}.

Lemma stimulate_covered_returns (mask : Mask) (c : Cell) (g : G) :
  (height c <= Z.of_nat (shape0 mask))%Z ->
  (width c <= Z.of_nat (shape1 mask))%Z ->
  well_shaped c -> 0 <= area0 c ->
  exists c', stimulate mask c g = Ok (c', g).
Proof.
  intros Hh Hw [Lr [La Hv]] Ha. unfold stimulate, bind, pure_step, ret.
  destruct (negb (any (inside_flags c))); [eexists; reflexivity|].
  destruct (mask_take_covered mask (width c) (height c) (vertex_x c) (vertex_y c)
                              Hh Hw) as [hit Eh].
  unfold inside_flags. unfold inside_test in Eh. rewrite Eh.
  destruct (negb (any hit)); [eexists; reflexivity|].
  match goal with
  | |- context [_conserve_area ?x] =>
      destruct (conserve_area_returns x) as [c1 Ec]
  end.
  - apply abs_pts_nonempty; simpl; [lia|].
    rewrite clip_length, add_at_length. lia.
  - exact Ha.
  - rewrite Ec.
    match goal with
    | |- context [Req_dec_T ?n 0] => destruct (Req_dec_T n 0)
    end; eexists; reflexivity.
Qed.



End MaskShape.

Section OneCellLit.
Context {G : Type} `{PyRandom G}.

End OneCellLit.


(* ------------------------------------------------------------------ *)
(** ** Cells as the constructor and the methods leave them             *)
(* ------------------------------------------------------------------ *)

Section Validity.
Context {G : Type} `{PyRandom G}.

Lemma Cell_init_valid (w h : Z) (base_radius : R) (v : nat)
      (fr bd cr rr pg im rs : R) (c : Cell) (g g' : G) :
  (0 < w)%Z -> (0 < h)%Z -> (0 < v)%nat ->
  Cell_init w h base_radius v fr bd cr rr pg im rs g = Ok (c, g') ->
  valid c /\ angles c = linspace_2pi (vertices c) /\ vel c = (0, 0) /\
  area0 c = PI * (base_r c * base_r c) /\
  Forall (fun x => x = base_r c) (r c).
Proof.
  intros Hw Hh Hv. unfold Cell_init, uniform, rand, ret, bind.
  pose proof (next_random_range g) as H0.
  destruct (next_random g) as [u g1].
  pose proof (next_random_range g1) as H1.
  destruct (next_random g1) as [u1 g2].
  pose proof (next_random_range g2) as H2.
  destruct (next_random g2) as [u2 g3].
  intros E. injection E as <- _. simpl in *.
  assert (Hpw : 0 < IZR w) by (apply IZR_lt; exact Hw).
  assert (Hph : 0 < IZR h) by (apply IZR_lt; exact Hh).
  unfold valid, in_field, in_rect, well_shaped. simpl.
  rewrite repeat_length, linspace_length.
  repeat split; try assumption; try reflexivity; try nra.
  - apply PI_nonneg_area.
  - apply Forall_forall. intros x Hx. now apply repeat_spec in Hx.
Qed.

Lemma update_valid (dt : R) (c c' : Cell) (g g' : G) :
  valid c -> update dt c g = Ok (c', g') -> valid c'.
Proof.
  intros (Hw & Hh & _ & [Lr [La Hv]] & Ha) E.
  pose proof (update_in_field dt c c' g g' Hw Hh E) as Hf.
  pose proof (update_keeps_base _ _ _ _ _ E) as (_ & E0 & Ew & Eh & Ea & Ev).
  apply update_by_draws in E. cbv zeta in E. destruct E as [_ [p [_ Ec]]].
  apply conserve_area_inv in Ec. destruct Ec as [_ [Ec _]].
  unfold valid, well_shaped. rewrite Ew, Eh, E0, Ea, Ev.
  split; [exact Hw|]. split; [exact Hh|]. split; [exact Hf|].
  split; [|exact Ha]. split; [|split; assumption].
  rewrite Ec. simpl.
  rewrite length_map, clip_length, relaxed_length, ruffled_length; lia.
Qed.

Lemma stimulate_valid (mask : Mask) (c c' : Cell) (g g' : G) :
  valid c -> stimulate mask c g = Ok (c', g') -> valid c'.
Proof.
  intros Hval E. apply stimulate_inv in E.
  destruct E as [->|[idx [c1 [v [Ec ->]]]]]; [exact Hval|].
  destruct Hval as (Hw & Hh & Hf & [Lr [La Hv]] & Ha).
  apply conserve_area_inv in Ec. destruct Ec as [_ [-> _]].
  unfold valid, in_field, well_shaped. simpl.
  rewrite length_map, clip_length, add_at_length.
  split; [exact Hw|]. split; [exact Hh|]. split; [exact Hf|].
  split; [|exact Ha]. split; [exact Lr|split; assumption].
Qed.

Lemma valid_moved (c : Cell) (p : vec2) :
  valid c -> in_rect p (width c) (height c) ->
  valid (set_vel (set_center c p) (0, 0)).
Proof.
  intros (Hw & Hh & _ & Hs & Ha) Hp.
  split; [exact Hw|]. split; [exact Hh|]. split; [exact Hp|].
  split; [exact Hs|exact Ha].
Qed.

Lemma collide_valid (a b a' b' : Cell) (g g' : G) :
  valid a -> valid b -> collide a b g = Ok ((a', b'), g') ->
  valid a' /\ valid b'.
Proof.
  intros Hva Hvb E.
  pose proof Hva as (Hwa & Hha & _). pose proof Hvb as (Hwb & Hhb & _).
  apply collide_inv in E. destruct E as [_ [[-> ->]|E]]; [now split|].
  destruct E as (ma & mb & ca & cb & _ & _ & _ & _ & Eca & Ecb & -> & ->).
  split; apply valid_moved; try assumption.
  - match type of Eca with
    | wrap ?q ?w ?h = _ => destruct (wrap_in_rect q w h Hwa Hha) as [x [Ex Hx]]
    end.
    rewrite Eca in Ex. injection Ex as ->. exact Hx.
  - match type of Ecb with
    | wrap ?q ?w ?h = _ => destruct (wrap_in_rect q w h Hwb Hhb) as [x [Ex Hx]]
    end.
    rewrite Ecb in Ex. injection Ex as ->. exact Hx.
Qed.

(** Every completed frame leaves every cell valid. *)
Lemma frame_valid (s s' : Sim G) (mask : Mask) (now : R) :
  Forall valid (_cells s) -> get_frame s mask now = Ok s' ->
  Forall valid (_cells s').
Proof.
  intros Hval E. unfold get_frame in E.
  destruct (tick mask (now - _last_time s) (_cells s) (rng s))
    as [[cs g]|] eqn:Et; [|discriminate].
  simpl in E. injection E as <-. simpl.
  unfold tick, bind in Et.
  destruct ((if mask_any mask then for_each (stimulate mask) (_cells s)
             else ret (_cells s)) (rng s)) as [[cs1 g1]|] eqn:E1;
    [|discriminate].
  destruct (for_each (update (now - _last_time s)) cs1 g1) as [[cs2 g2]|] eqn:E2;
    [|discriminate].
  assert (H1 : Forall valid cs1).
  { destruct (mask_any mask).
    - apply (for_each_Forall valid valid (stimulate mask)
                             (stimulate_valid mask) _ _ _ _ Hval E1).
    - unfold ret in E1. now injection E1 as <- _. }
  assert (H2 : Forall valid cs2)
    by apply (for_each_Forall valid valid _
                              (update_valid (now - _last_time s)) _ _ _ _ H1 E2).
  apply (collide_pairs_Forall valid
           (fun a b a' b' g0 g0' Ha Hb E0 => collide_valid a b a' b' g0 g0' Ha Hb E0)
           _ _ _ _ _ H2 Et).
Qed.
End Validity.

(* ------------------------------------------------------------------ *)
(** ** The model on small inputs                                       *)
(* ------------------------------------------------------------------ *)

Lemma Int_part_between (x : R) (z : Z) :
  IZR z <= x < IZR z + 1 -> Int_part x = z.
Proof. intros Hx. symmetry. apply Int_part_spec. lra. Qed.

Example pymod_negative : pymod (-1) 512 = Ok 511.
Proof.
  unfold pymod. simpl Z.eqb. cbv iota.
  rewrite (Int_part_between (-1 / 512) (-1)) by lra. f_equal. lra.
Qed.

Example pymod_beyond : pymod 521 512 = Ok 9.
Proof.
  unfold pymod. simpl Z.eqb. cbv iota.
  rewrite (Int_part_between (521 / 512) 1) by lra. f_equal. lra.
Qed.

Example round_half_even_tie_down : round_half_even 2.5 = 2%Z.
Proof.
  unfold round_half_even. rewrite (Int_part_between 2.5 2) by lra.
  destruct (Rlt_dec (2.5 - 2) (1 / 2)); [lra|].
  destruct (Rlt_dec (1 / 2) (2.5 - 2)); [lra|]. reflexivity.
Qed.

Example round_half_even_tie_up : round_half_even 3.5 = 4%Z.
Proof.
  unfold round_half_even. rewrite (Int_part_between 3.5 3) by lra.
  destruct (Rlt_dec (3.5 - 3) (1 / 2)); [lra|].
  destruct (Rlt_dec (1 / 2) (3.5 - 3)); [lra|]. reflexivity.
Qed.

Example index_pairs_3 : index_pairs 3 = [(0, 1); (0, 2); (1, 2)]%nat.
Proof. reflexivity. Qed.

Example roll_both : roll_left [1; 2; 3] = [2; 3; 1] /\ roll_right [1; 2; 3] = [3; 1; 2].
Proof. split; reflexivity. Qed.

Example add_at_twice : add_at [1; 1]%nat 5 [10; 20; 30] = [10; 20 + 5; 30].
Proof. reflexivity. Qed.

Lemma round_half_even_small (x : R) : 0 <= x < 1 / 2 -> round_half_even x = 0%Z.
Proof.
  intros Hx. unfold round_half_even.
  rewrite (Int_part_between x 0) by (simpl; lra). simpl.
  destruct (Rlt_dec (x - 0) (1 / 2)); [reflexivity|lra].
Qed.

(** Two unit squares one pixel apart overlap by 1: each is pushed by
    0.75 along the x axis and both stop. *)
Example collide_overlapping :
  collide (square_cell 0.06 100 100) (square_cell 0.06 101 100) blank_tape
  = Ok ((set_vel (set_center (square_cell 0.06 100 100) (99.25, 100)) (0, 0),
         set_vel (set_center (square_cell 0.06 101 100) (101.75, 100)) (0, 0)),
        blank_tape).
Proof.
  assert (Ed : displacement (square_cell 0.06 100 100) (square_cell 0.06 101 100)
               = (1, 0)).
  { unfold displacement, min_image. simpl center. simpl width. simpl height.
    simpl fst. simpl snd.
    rewrite !round_half_even_small by lra. f_equal; simpl; lra. }
  assert (En : norm2 (1, 0) = 1).
  { unfold norm2. simpl. replace (1 * 1 + 0 * 0) with 1 by ring. apply sqrt_1. }
  assert (Em : pymax [1; 1; 1; 1] = Ok 1).
  { assert (E1 : Rmax 1 1 = 1) by (apply Rmax_left; lra).
    unfold pymax. cbn [fold_left]. now rewrite !E1. }
  apply (collide_moves (square_cell 0.06 100 100) (square_cell 0.06 101 100)
                       blank_tape 1 1);
    try reflexivity; try exact Em; rewrite ?Ed, ?En; simpl fst; simpl snd.
  - lra.
  - lra.
  - rewrite wrap_fixed by (unfold in_rect; simpl; lra). f_equal. f_equal; lra.
  - rewrite wrap_fixed by (unfold in_rect; simpl; lra). f_equal. f_equal; lra.
Qed.

Section Drift.
Context {G : Type} `{PyRandom G}.

Lemma kick_amp_value (dt : R) (c : Cell) (g : G) :
  kick_amp (update_draws dt c g)
  = 0 + fst (next_gauss g) * sqrt (2 * brownian_d c * dt).
Proof.
  unfold update_draws, normalvariate.
  destruct (next_gauss g) as [z1 g1].
  destruct (uniform 0 (2 * PI) g1) as [ang g2].
  destruct (next_gauss g2) as [z g3].
  destruct (randint 1 3 g3) as [k g4].
  destruct (uniform 0 (2 * PI) g4) as [phase g5].
  reflexivity.
Qed.

(** The spec's wrap-around scenario: after one second the cell has
    crossed the right edge and sits at [x = (511 + 10) mod 512 = 9]. *)
Example drift_wraps_around (g : G) :
  exists c' g',
    update 1 drifting_cell g = Ok (c', g') /\
    center c' = (9, 256) /\ vel c' = (10, 0).
Proof.
  destruct (update_returns 1 drifting_cell g) as [c' [g' E]];
    [reflexivity|reflexivity|simpl; lra| |apply PI_nonneg_area|].
  { unfold well_shaped. simpl. repeat split; lia. }
  exists c', g'. split; [exact E|].
  apply update_by_draws in E. cbv zeta in E. destruct E as [_ [p [Ew Ec]]].
  apply conserve_area_inv in Ec. destruct Ec as [_ [-> _]].
  rewrite kick_amp_value in *.
  assert (E0 : sqrt (2 * brownian_d drifting_cell * 1) = 0).
  { simpl. replace (2 * 0 * 1) with 0 by ring. apply sqrt_0. }
  rewrite E0 in *. simpl. split.
  - unfold update_moved in Ew.
    cbn [center vel width height drifting_cell fst snd] in Ew.
    match type of Ew with
    | wrap (?x, ?y) _ _ = _ =>
        replace x with 521 in Ew by ring; replace y with 256 in Ew by ring
    end.
    unfold wrap in Ew. cbn [fst snd] in Ew.
    rewrite pymod_beyond in Ew. rewrite pymod_fixed in Ew by lra.
    simpl in Ew. now injection Ew as <-.
  - f_equal.
    + replace (1 - 0 * 1) with 1 by ring. rewrite Rmax_right by lra. ring.
    + replace (1 - 0 * 1) with 1 by ring. rewrite Rmax_right by lra. ring.
Qed.
End Drift.

(* ------------------------------------------------------------------ *)
(** ** Construction of a cell                                          *)
(* ------------------------------------------------------------------ *)

Section Construction.
Context {G : Type} `{PyRandom G}.

End Construction.


(* ------------------------------------------------------------------ *)
(** ** When [update] raises                                            *)
(* ------------------------------------------------------------------ *)

Section UpdateFaults.
Context {G : Type} `{PyRandom G}.

(** X2.  For a valid cell, [update] raises exactly when the Brownian
    variance [2 * brownian_d * dt] is negative (a clock that ran
    backwards, with a positive diffusion coefficient): it is then the
    [ValueError] of [math.sqrt]; otherwise [update] returns. *)
Theorem update_raises_iff_negative_variance (dt : R) (c : Cell) (g : G) :
  valid c ->
  (2 * brownian_d c * dt < 0 -> update dt c g = Raise ValueError) /\
  (~ 2 * brownian_d c * dt < 0 -> exists c' g', update dt c g = Ok (c', g')) /\
  (forall e, update dt c g = Raise e -> e = ValueError /\ 2 * brownian_d c * dt < 0).
Proof.
  intros (Hw & Hh & _ & Hs & Ha).
  assert (Hneg : 2 * brownian_d c * dt < 0 -> update dt c g = Raise ValueError).
  { intros Hn. unfold update, bind, pure_step, math_sqrt.
    destruct (Rlt_dec (2 * brownian_d c * dt) 0); [reflexivity|contradiction]. }
  assert (Hpos : ~ 2 * brownian_d c * dt < 0 ->
                 exists c' g', update dt c g = Ok (c', g')).
  { intros Hn. apply update_returns; try assumption. lra. }
  split; [exact Hneg|]. split; [exact Hpos|].
  intros e E. destruct (Rlt_dec (2 * brownian_d c * dt) 0) as [Hn|Hn].
  - rewrite (Hneg Hn) in E. injection E as <-. split; [reflexivity|exact Hn].
  - destruct (Hpos Hn) as [c' [g' E']]. rewrite E' in E. discriminate.
Qed.
End UpdateFaults.

Lemma square_cell_valid (ruffle : R) : valid (square_cell ruffle 100 100).
Proof.
  split; [reflexivity|]. split; [reflexivity|].
  split; [apply square_cell_in_field|].
  split; [apply square_cell_shaped|apply PI_nonneg_area].
Qed.

Lemma update_raises_iff_negative_variance_witness :
  (2 * 80 * (-1) < 0 ->
   update (-1) (square_cell 0.06 100 100) blank_tape = Raise ValueError) /\
  (~ 2 * 80 * (-1) < 0 ->
   exists c' g', update (-1) (square_cell 0.06 100 100) blank_tape = Ok (c', g')) /\
  (forall e, update (-1) (square_cell 0.06 100 100) blank_tape = Raise e ->
             e = ValueError /\ 2 * 80 * (-1) < 0).
Proof.
  apply (update_raises_iff_negative_variance (-1) (square_cell 0.06 100 100)
                                             blank_tape).
  apply square_cell_valid.
Defined.

(* ------------------------------------------------------------------ *)
(** ** Whole frames                                                    *)
(* ------------------------------------------------------------------ *)

Lemma same_params_refl (c : Cell) : same_params c c.
Proof. unfold same_params. repeat split; reflexivity. Qed.

Lemma same_params_trans (a b c : Cell) :
  same_params a b -> same_params b c -> same_params a c.
Proof.
  unfold same_params.
  intros (A1 & A2 & A3 & A4 & A5 & A6 & A7 & A8 & A9 & A10 & A11 & A12 & A13)
         (B1 & B2 & B3 & B4 & B5 & B6 & B7 & B8 & B9 & B10 & B11 & B12 & B13).
  repeat split; congruence.
Qed.

Lemma same_params_moved (c : Cell) (rs : list R) (v p : vec2) :
  same_params c (set_r (set_center (set_vel c v) p) rs).
Proof. unfold same_params. repeat split; reflexivity. Qed.

Lemma set_nth_length {A : Type} (i : nat) (x : A) (xs : list A) :
  length (set_nth i x xs) = length xs.
Proof.
  revert i. induction xs as [|y t IH]; intros [|i]; simpl; try reflexivity.
  now rewrite IH.
Qed.

Lemma Forall2_set_nth {A : Type} (Rel : A -> A -> Prop) (i : nat) (y y' : A)
      (xs ys : list A) :
  Forall2 Rel xs ys -> nth_error ys i = Some y ->
  (forall x, Rel x y -> Rel x y') ->
  Forall2 Rel xs (set_nth i y' ys).
Proof.
  intros HF. revert i. induction HF as [|x z xs ys Hxz HF IH]; intros i Hi Hy.
  - destruct i; discriminate.
  - destruct i; simpl in *.
    + injection Hi as ->. constructor; [now apply Hy|exact HF].
    + constructor; [exact Hxz|now apply IH].
Qed.

Lemma Forall2_refl_on {A : Type} (Rel : A -> A -> Prop) (xs : list A) :
  (forall x, Rel x x) -> Forall2 Rel xs xs.
Proof. intros Hr. induction xs; constructor; auto. Qed.

Lemma Forall2_trans_on {A : Type} (Rel : A -> A -> Prop) (xs ys zs : list A) :
  (forall x y z, Rel x y -> Rel y z -> Rel x z) ->
  Forall2 Rel xs ys -> Forall2 Rel ys zs -> Forall2 Rel xs zs.
Proof.
  intros Ht HF. revert zs.
  induction HF as [|x y xs ys Hxy HF IH]; intros zs HG; inversion HG; subst;
    constructor; eauto.
Qed.

Section Frames.
Context {G : Type} `{PyRandom G}.

Lemma update_same_params (dt : R) (c c' : Cell) (g g' : G) :
  update dt c g = Ok (c', g') -> same_params c c'.
Proof.
  intros E. apply update_by_draws in E. cbv zeta in E.
  destruct E as [_ [p [_ Ec]]].
  apply conserve_area_inv in Ec. destruct Ec as [_ [-> _]].
  unfold same_params. repeat split; reflexivity.
Qed.

Lemma stimulate_same_params (mask : Mask) (c c' : Cell) (g g' : G) :
  stimulate mask c g = Ok (c', g') -> same_params c c'.
Proof.
  intros E. apply stimulate_inv in E.
  destruct E as [->|[idx [c1 [v [Ec ->]]]]]; [apply same_params_refl|].
  apply conserve_area_inv in Ec. destruct Ec as [_ [-> _]].
  unfold same_params. repeat split; reflexivity.
Qed.

Lemma collide_same_params (a b a' b' : Cell) (g g' : G) :
  collide a b g = Ok ((a', b'), g') -> same_params a a' /\ same_params b b'.
Proof.
  intros E. apply collide_inv in E.
  destruct E as [_ [[-> ->]|E]]; [split; apply same_params_refl|].
  destruct E as (ma & mb & ca & cb & _ & _ & _ & _ & _ & _ & -> & ->).
  split; unfold same_params; repeat split; reflexivity.
Qed.

Lemma frame_ready_same (mask : Mask) (dt : R) (c c' : Cell) :
  frame_ready mask dt c -> valid c' -> same_params c c' ->
  frame_ready mask dt c'.
Proof.
  intros (_ & Hh & Hw & Hd) Hv (Ew & Eh & _ & _ & _ & _ & _ & Ed & _).
  unfold frame_ready. rewrite Ew, Eh, Ed.
  split; [exact Hv|]. split; [exact Hh|]. split; [exact Hw|exact Hd].
Qed.

Lemma for_each_related (Rel : Cell -> Cell -> Prop) (f : Cell -> M G Cell) :
  (forall c c' g g', f c g = Ok (c', g') -> Rel c c') ->
  forall cs cs' g g', for_each f cs g = Ok (cs', g') -> Forall2 Rel cs cs'.
Proof.
  intros Hf. induction cs as [|c t IH]; intros cs' g g' E; simpl in E.
  - unfold ret in E. injection E as <- _. constructor.
  - unfold bind in E.
    destruct (f c g) as [[c1 g1]|] eqn:E1; [|discriminate].
    destruct (for_each f t g1) as [[t1 g2]|] eqn:E2; [|discriminate].
    unfold ret in E. injection E as <- _. constructor.
    + exact (Hf c c1 g g1 E1).
    + exact (IH t1 g1 g2 E2).
Qed.

Lemma for_each_returns (P : Cell -> Prop) (f : Cell -> M G Cell) :
  (forall c g, P c -> exists c' g', f c g = Ok (c', g')) ->
  forall cs g, Forall P cs -> exists cs' g', for_each f cs g = Ok (cs', g').
Proof.
  intros Hf. induction cs as [|c t IH]; intros g HP; simpl.
  - eexists; eexists; reflexivity.
  - inversion HP as [|? ? Hc Ht]; subst. unfold bind.
    destruct (Hf c g Hc) as [c1 [g1 E1]]. rewrite E1.
    destruct (IH g1 Ht) as [t1 [g2 E2]]. rewrite E2.
    eexists; eexists; reflexivity.
Qed.

Lemma collide_returns (a b : Cell) (g : G) :
  valid a -> valid b -> exists a' b', collide a b g = Ok ((a', b'), g).
Proof.
  intros (Hwa & Hha & _ & [Lra [_ Hva]] & _) (Hwb & Hhb & _ & [Lrb [_ Hvb]] & _).
  destruct (pymax_spec (r a)) as [ma [Ea _]];
    [intros E; rewrite E in Lra; simpl in Lra; lia|].
  destruct (pymax_spec (r b)) as [mb [Eb _]];
    [intros E; rewrite E in Lrb; simpl in Lrb; lia|].
  destruct (Req_dec_T (norm2 (displacement a b)) 0) as [Hd|Hd].
  { exists a, b. apply (collide_early a b g ma mb); auto. }
  destruct (Rle_dec (ma + mb - norm2 (displacement a b)) 0) as [Ho|Ho].
  { exists a, b. apply (collide_early a b g ma mb); auto. }
  match type of Ho with
  | ~ ?o <= 0 =>
      destruct (wrap_in_rect
                  (fst (center a)
                   - 0.5 * (o + 0.5)
                     * (fst (displacement a b) / norm2 (displacement a b)),
                   snd (center a)
                   - 0.5 * (o + 0.5)
                     * (snd (displacement a b) / norm2 (displacement a b)))
                  (width a) (height a) Hwa Hha) as [ca [Eca _]];
      destruct (wrap_in_rect
                  (fst (center b)
                   + 0.5 * (o + 0.5)
                     * (fst (displacement a b) / norm2 (displacement a b)),
                   snd (center b)
                   + 0.5 * (o + 0.5)
                     * (snd (displacement a b) / norm2 (displacement a b)))
                  (width b) (height b) Hwb Hhb) as [cb [Ecb _]]
  end.
  eexists; eexists.
  apply (collide_moves a b g ma mb ca cb); assumption.
Qed.

Lemma collide_pairs_returns (ps : list (nat * nat)) (cs : list Cell) (g : G) :
  Forall valid cs -> exists cs', collide_pairs ps cs g = Ok (cs', g).
Proof.
  revert cs. induction ps as [|ij t IH]; intros cs Hv; simpl.
  - eexists; reflexivity.
  - unfold bind, collide_at.
    destruct (nth_error cs (fst ij)) as [a|] eqn:Ea;
      [|unfold ret; apply IH; exact Hv].
    destruct (nth_error cs (snd ij)) as [b|] eqn:Eb;
      [|unfold ret; apply IH; exact Hv].
    pose proof (nth_error_Forall valid _ a cs Hv Ea) as Hva.
    pose proof (nth_error_Forall valid _ b cs Hv Eb) as Hvb.
    destruct (collide_returns a b g Hva Hvb) as [a' [b' E]].
    unfold bind. rewrite E. unfold ret. simpl.
    apply IH.
    destruct (collide_valid a b a' b' g g Hva Hvb E) as [Ha' Hb'].
    apply set_nth_Forall; [exact Hb'|].
    apply set_nth_Forall; [exact Ha'|exact Hv].
Qed.

Lemma collide_pairs_related (ps : list (nat * nat)) :
  forall (cs cs' : list Cell) (g g' : G),
    collide_pairs ps cs g = Ok (cs', g') -> Forall2 same_params cs cs'.
Proof.
  induction ps as [|ij t IH]; intros cs cs' g g' E; simpl in E.
  - unfold ret in E. injection E as <- _.
    apply Forall2_refl_on. apply same_params_refl.
  - unfold bind in E.
    destruct (collide_at cs ij g) as [[cs1 g1]|] eqn:E1; [|discriminate].
    apply (Forall2_trans_on same_params cs cs1 cs' same_params_trans);
      [|exact (IH cs1 cs' g1 g' E)].
    unfold collide_at in E1.
    destruct (nth_error cs (fst ij)) as [a|] eqn:Ea;
      [|unfold ret in E1; injection E1 as <- _;
        apply Forall2_refl_on; apply same_params_refl].
    destruct (nth_error cs (snd ij)) as [b|] eqn:Eb;
      [|unfold ret in E1; injection E1 as <- _;
        apply Forall2_refl_on; apply same_params_refl].
    unfold bind in E1.
    destruct (collide a b g) as [[[a' b'] g2]|] eqn:E2; [|discriminate].
    unfold ret in E1. injection E1 as <- _. simpl.
    destruct (collide_same_params a b a' b' g g2 E2) as [Sa Sb].
    destruct (Nat.eq_dec (fst ij) (snd ij)) as [Eij|Nij].
    + (* the pair loop never pairs a cell with itself; covered all the same *)
      rewrite <- Eij in *.
      assert (b = a) by congruence. subst b.
      apply (Forall2_set_nth same_params (fst ij) a' b').
      * apply (Forall2_set_nth same_params (fst ij) a a');
          [apply Forall2_refl_on; apply same_params_refl|exact Ea|].
        intros x Hx. exact (same_params_trans x a a' Hx Sa).
      * clear - Ea. revert Ea. generalize (fst ij). induction cs as [|y u IHu];
          intros [|i] Ei; simpl in *; try discriminate; auto.
      * intros x Hx.
        apply (same_params_trans x a b'); [|exact Sb].
        destruct Sa as (A1 & A2 & A3 & A4 & A5 & A6 & A7 & A8 & A9 & A10 & A11
                        & A12 & A13).
        destruct Hx as (B1 & B2 & B3 & B4 & B5 & B6 & B7 & B8 & B9 & B10 & B11
                        & B12 & B13).
        unfold same_params. repeat split; congruence.
    + apply (Forall2_set_nth same_params (snd ij) b b').
      * apply (Forall2_set_nth same_params (fst ij) a a');
          [apply Forall2_refl_on; apply same_params_refl|exact Ea|].
        intros x Hx. exact (same_params_trans x a a' Hx Sa).
      * clear - Eb Nij. revert Eb Nij. generalize (fst ij) (snd ij).
        induction cs as [|y u IHu]; intros [|i] [|j] Ej Nij; simpl in *;
          try discriminate; try congruence; auto.
      * intros x Hx. exact (same_params_trans x b b' Hx Sb).
Qed.
End Frames.

Section FrameTheorems.
Context {G : Type} `{PyRandom G}.

Lemma stimulate_ready (mask : Mask) (dt : R) (c c' : Cell) (g g' : G) :
  frame_ready mask dt c -> stimulate mask c g = Ok (c', g') ->
  frame_ready mask dt c'.
Proof.
  intros Hr E. apply (frame_ready_same mask dt c c' Hr).
  - apply (stimulate_valid mask c c' g g'); [apply Hr|exact E].
  - exact (stimulate_same_params mask c c' g g' E).
Qed.

Lemma update_ready (mask : Mask) (dt : R) (c c' : Cell) (g g' : G) :
  frame_ready mask dt c -> update dt c g = Ok (c', g') ->
  frame_ready mask dt c'.
Proof.
  intros Hr E. apply (frame_ready_same mask dt c c' Hr).
  - apply (update_valid dt c c' g g'); [apply Hr|exact E].
  - exact (update_same_params dt c c' g g' E).
Qed.

Lemma collide_ready (mask : Mask) (dt : R) (a b a' b' : Cell) (g g' : G) :
  frame_ready mask dt a -> frame_ready mask dt b ->
  collide a b g = Ok ((a', b'), g') ->
  frame_ready mask dt a' /\ frame_ready mask dt b'.
Proof.
  intros Ha Hb E.
  destruct (collide_valid a b a' b' g g') as [Va Vb];
    [apply Ha|apply Hb|exact E|].
  destruct (collide_same_params a b a' b' g g' E) as [Sa Sb].
  split; [exact (frame_ready_same mask dt a a' Ha Va Sa)
         |exact (frame_ready_same mask dt b b' Hb Vb Sb)].
Qed.

Lemma ready_valid (mask : Mask) (dt : R) (cs : list Cell) :
  Forall (frame_ready mask dt) cs -> Forall valid cs.
Proof.
  intros HF. rewrite Forall_forall in *. intros c Hc. apply (HF c Hc).
Qed.

(** A frame over ready cells returns, and leaves the cells ready. *)
Lemma get_frame_returns (s : Sim G) (mask : Mask) (now : R) :
  Forall (frame_ready mask (now - _last_time s)) (_cells s) ->
  exists s', get_frame s mask now = Ok s' /\
             Forall (frame_ready mask (now - _last_time s)) (_cells s').
Proof.
  set (dt := now - _last_time s). intros Hr.
  unfold get_frame, tick. fold dt. unfold bind.
  assert (H1 : exists cs1,
             (if mask_any mask then for_each (stimulate mask) (_cells s)
              else ret (_cells s)) (rng s) = Ok (cs1, rng s) /\
             Forall (frame_ready mask dt) cs1).
  { destruct (mask_any mask).
    - assert (Hst : forall (c : Cell) (g : G), frame_ready mask dt c ->
                      exists c' g', stimulate mask c g = Ok (c', g')).
      { intros c g (Hv & Hh & Hw & _).
        destruct (stimulate_covered_returns mask c g Hh Hw) as [c' E];
          [apply Hv|apply Hv|]. eauto. }
      destruct (for_each_returns (frame_ready mask dt) (stimulate mask) Hst
                                 (_cells s) (rng s) Hr) as [cs1 [g1 E1]].
      pose proof (for_each_stimulate_generator mask _ _ _ _ E1) as ->.
      exists cs1. split; [exact E1|].
      exact (for_each_Forall (frame_ready mask dt) (frame_ready mask dt)
                             (stimulate mask) (stimulate_ready mask dt)
                             _ _ _ _ Hr E1).
    - exists (_cells s). split; [reflexivity|exact Hr]. }
  destruct H1 as [cs1 [E1 Hr1]]. rewrite E1.
  assert (Hup : forall (c : Cell) (g : G), frame_ready mask dt c ->
                  exists c' g', update dt c g = Ok (c', g')).
  { intros c g (Hv & _ & _ & Hd).
    apply update_returns; try apply Hv; exact Hd. }
  destruct (for_each_returns (frame_ready mask dt) (update dt) Hup
                             cs1 (rng s) Hr1) as [cs2 [g2 E2]].
  rewrite E2.
  pose proof (for_each_Forall (frame_ready mask dt) (frame_ready mask dt)
                              (update dt) (update_ready mask dt)
                              _ _ _ _ Hr1 E2) as Hr2.
  destruct (collide_pairs_returns (index_pairs (length cs2)) cs2 g2
                                  (ready_valid mask dt cs2 Hr2)) as [cs3 E3].
  rewrite E3. simpl. eexists. split; [reflexivity|]. simpl.
  exact (collide_pairs_Forall (frame_ready mask dt) (collide_ready mask dt)
                              _ _ _ _ _ Hr2 E3).
Qed.

Lemma tick_related (mask : Mask) (dt : R) (cs cs' : list Cell) (g g' : G) :
  tick mask dt cs g = Ok (cs', g') -> Forall2 same_params cs cs'.
Proof.
  intros Et. unfold tick, bind in Et.
  destruct ((if mask_any mask then for_each (stimulate mask) cs
             else ret cs) g) as [[cs1 g1]|] eqn:E1; [|discriminate].
  destruct (for_each (update dt) cs1 g1) as [[cs2 g2]|] eqn:E2;
    [|discriminate].
  apply (Forall2_trans_on same_params _ cs1 _ same_params_trans).
  - destruct (mask_any mask).
    + exact (for_each_related same_params (stimulate mask)
                              (stimulate_same_params mask) _ _ _ _ E1).
    + unfold ret in E1. injection E1 as <- _.
      apply Forall2_refl_on. apply same_params_refl.
  - apply (Forall2_trans_on same_params _ cs2 _ same_params_trans).
    + exact (for_each_related same_params (update dt)
                              (update_same_params dt) _ _ _ _ E2).
    + exact (collide_pairs_related _ _ _ _ _ Et).
Qed.

(** X3.  A frame that returns keeps the configuration, records the
    clock reading, and keeps the population: the same number of cells,
    in the same order, each with the parameters it had (field size,
    base radius, angles, target area, vertex count and the seven
    physical coefficients); only radii, velocities and centres change. *)
Theorem frame_keeps_population (s s' : Sim G) (mask : Mask) (now : R) :
  get_frame s mask now = Ok s' ->
  config s' = config s /\ _last_time s' = now /\
  length (_cells s') = length (_cells s) /\
  Forall2 same_params (_cells s) (_cells s').
Proof.
  intros E. unfold get_frame in E.
  destruct (tick mask (now - _last_time s) (_cells s) (rng s))
    as [[cs g]|] eqn:Et; [|discriminate].
  simpl in E. injection E as <-. simpl.
  split; [reflexivity|]. split; [reflexivity|].
  pose proof (tick_related _ _ _ _ _ _ Et) as HF.
  split; [|exact HF]. symmetry. exact (Forall2_length HF).
Qed.

Lemma sound_same (c c' : Cell) :
  sound c -> same_params c c' -> length (r c') = length (r c) -> sound c'.
Proof.
  intros (Hw & Hh & (Lr & La & Hv) & Ha)
         (Ew & Eh & _ & Ea & E0 & Ev & _) El.
  unfold sound, well_shaped. rewrite Ew, Eh, Ea, E0, Ev, El.
  split; [exact Hw|]. split; [exact Hh|]. split; [|exact Ha].
  split; [exact Lr|]. split; [exact La|exact Hv].
Qed.

Lemma update_length (dt : R) (c c' : Cell) (g g' : G) :
  well_shaped c -> update dt c g = Ok (c', g') ->
  length (r c') = length (r c).
Proof.
  intros (Lr & La & Hv) E.
  apply update_by_draws in E. cbv zeta in E. destruct E as [_ [p [_ Ec]]].
  apply conserve_area_inv in Ec. destruct Ec as [_ [-> _]]. simpl.
  rewrite length_map, clip_length, relaxed_length, ruffled_length; lia.
Qed.

Lemma stimulate_length (mask : Mask) (c c' : Cell) (g g' : G) :
  stimulate mask c g = Ok (c', g') -> length (r c') = length (r c).
Proof.
  intros E. apply stimulate_inv in E.
  destruct E as [->|[idx [c1 [v [Ec ->]]]]]; [reflexivity|].
  apply conserve_area_inv in Ec. destruct Ec as [_ [-> _]]. simpl.
  now rewrite length_map, clip_length, add_at_length.
Qed.

Lemma collide_length (a b a' b' : Cell) (g g' : G) :
  collide a b g = Ok ((a', b'), g') ->
  length (r a') = length (r a) /\ length (r b') = length (r b).
Proof.
  intros E. apply collide_inv in E. destruct E as [_ [[-> ->]|E]];
    [split; reflexivity|].
  destruct E as (ma & mb & ca & cb & _ & _ & _ & _ & _ & _ & -> & ->).
  split; reflexivity.
Qed.

Lemma frame_safe_same (mask : Mask) (dt : R) (c c' : Cell) :
  frame_safe mask dt c -> same_params c c' ->
  length (r c') = length (r c) -> frame_safe mask dt c'.
Proof.
  intros (Hs & Hh & Hw & Hd) Hp El.
  pose proof (sound_same c c' Hs Hp El) as Hs'.
  destruct Hp as (Ew & Eh & _ & _ & _ & _ & _ & Ed & _).
  unfold frame_safe. rewrite Ew, Eh, Ed.
  split; [exact Hs'|]. split; [exact Hh|]. split; [exact Hw|exact Hd].
Qed.

Lemma collide_returns_sound (a b : Cell) (g : G) :
  sound a -> sound b -> exists a' b', collide a b g = Ok ((a', b'), g).
Proof.
  intros (Hwa & Hha & [Lra [_ Hva]] & _) (Hwb & Hhb & [Lrb [_ Hvb]] & _).
  destruct (pymax_spec (r a)) as [ma [Ea _]];
    [intros E; rewrite E in Lra; simpl in Lra; lia|].
  destruct (pymax_spec (r b)) as [mb [Eb _]];
    [intros E; rewrite E in Lrb; simpl in Lrb; lia|].
  destruct (Req_dec_T (norm2 (displacement a b)) 0) as [Hd|Hd].
  { exists a, b. apply (collide_early a b g ma mb); auto. }
  destruct (Rle_dec (ma + mb - norm2 (displacement a b)) 0) as [Ho|Ho].
  { exists a, b. apply (collide_early a b g ma mb); auto. }
  match type of Ho with
  | ~ ?o <= 0 =>
      destruct (wrap_in_rect
                  (fst (center a)
                   - 0.5 * (o + 0.5)
                     * (fst (displacement a b) / norm2 (displacement a b)),
                   snd (center a)
                   - 0.5 * (o + 0.5)
                     * (snd (displacement a b) / norm2 (displacement a b)))
                  (width a) (height a) Hwa Hha) as [ca [Eca _]];
      destruct (wrap_in_rect
                  (fst (center b)
                   + 0.5 * (o + 0.5)
                     * (fst (displacement a b) / norm2 (displacement a b)),
                   snd (center b)
                   + 0.5 * (o + 0.5)
                     * (snd (displacement a b) / norm2 (displacement a b)))
                  (width b) (height b) Hwb Hhb) as [cb [Ecb _]]
  end.
  eexists; eexists.
  apply (collide_moves a b g ma mb ca cb); assumption.
Qed.

Lemma collide_safe (mask : Mask) (dt : R) (a b a' b' : Cell) (g g' : G) :
  frame_safe mask dt a -> frame_safe mask dt b ->
  collide a b g = Ok ((a', b'), g') ->
  frame_safe mask dt a' /\ frame_safe mask dt b'.
Proof.
  intros Ha Hb E.
  destruct (collide_same_params a b a' b' g g' E) as [Sa Sb].
  destruct (collide_length a b a' b' g g' E) as [La Lb].
  split; [exact (frame_safe_same mask dt a a' Ha Sa La)
         |exact (frame_safe_same mask dt b b' Hb Sb Lb)].
Qed.

Lemma collide_pairs_returns_safe (mask : Mask) (dt : R)
      (ps : list (nat * nat)) (cs : list Cell) (g : G) :
  Forall (frame_safe mask dt) cs ->
  exists cs', collide_pairs ps cs g = Ok (cs', g).
Proof.
  revert cs. induction ps as [|ij t IH]; intros cs Hv; simpl.
  - eexists; reflexivity.
  - unfold bind, collide_at.
    destruct (nth_error cs (fst ij)) as [a|] eqn:Ea;
      [|unfold ret; apply IH; exact Hv].
    destruct (nth_error cs (snd ij)) as [b|] eqn:Eb;
      [|unfold ret; apply IH; exact Hv].
    pose proof (nth_error_Forall (frame_safe mask dt) _ a cs Hv Ea) as Hva.
    pose proof (nth_error_Forall (frame_safe mask dt) _ b cs Hv Eb) as Hvb.
    destruct (collide_returns_sound a b g) as [a' [b' E]];
      [apply Hva|apply Hvb|].
    unfold bind. rewrite E. unfold ret. simpl.
    apply IH.
    destruct (collide_safe mask dt a b a' b' g g Hva Hvb E) as [Ha' Hb'].
    apply set_nth_Forall; [exact Hb'|].
    apply set_nth_Forall; [exact Ha'|exact Hv].
Qed.

(** X4.  A frame never faults on a well-formed input, wherever the
    centres are.  When every cell has a field of positive size, at
    least one vertex with one radius and one angle each, and a
    non-negative target area, the mask is at least as tall and as wide
    as the field, and the Brownian variance for the elapsed time is not
    negative, then the stimulation, update and collision passes of
    [get_frame] return, and every cell they leave meets the same
    conditions, so that the next frame with such a mask and elapsed
    time returns as well. *)
Theorem frame_never_faults (s : Sim G) (mask : Mask) (now : R) :
  Forall (frame_safe mask (now - _last_time s)) (_cells s) ->
  exists s', get_frame s mask now = Ok s' /\
             _last_time s' = now /\
             length (_cells s') = length (_cells s) /\
             Forall (frame_safe mask (now - _last_time s)) (_cells s').
Proof.
  set (dt := now - _last_time s). intros Hr.
  unfold get_frame, tick. fold dt. unfold bind.
  assert (H1 : exists cs1,
             (if mask_any mask then for_each (stimulate mask) (_cells s)
              else ret (_cells s)) (rng s) = Ok (cs1, rng s) /\
             length cs1 = length (_cells s) /\
             Forall (frame_safe mask dt) cs1).
  { destruct (mask_any mask).
    - assert (Hst : forall (c : Cell) (g : G), frame_safe mask dt c ->
                      exists c' g', stimulate mask c g = Ok (c', g')).
      { intros c g ((_ & _ & Hs & Ha) & Hh & Hw & _).
        destruct (stimulate_covered_returns mask c g Hh Hw Hs Ha) as [c' E].
        eauto. }
      destruct (for_each_returns (frame_safe mask dt) (stimulate mask) Hst
                                 (_cells s) (rng s) Hr) as [cs1 [g1 E1]].
      pose proof (for_each_stimulate_generator mask _ _ _ _ E1) as ->.
      exists cs1. split; [exact E1|]. split.
      + symmetry. apply (Forall2_length
          (for_each_related same_params (stimulate mask)
                            (stimulate_same_params mask) _ _ _ _ E1)).
      + apply (for_each_Forall (frame_safe mask dt) (frame_safe mask dt)
                               (stimulate mask)) with (3 := E1); [|exact Hr].
        intros c c' g g' Hc E. apply (frame_safe_same mask dt c c' Hc).
        * exact (stimulate_same_params mask c c' g g' E).
        * exact (stimulate_length mask c c' g g' E).
    - exists (_cells s). split; [reflexivity|]. split; [reflexivity|exact Hr]. }
  destruct H1 as [cs1 [E1 [L1 Hr1]]]. rewrite E1.
  assert (Hup : forall (c : Cell) (g : G), frame_safe mask dt c ->
                  exists c' g', update dt c g = Ok (c', g')).
  { intros c g ((Hw & Hh & Hs & Ha) & _ & _ & Hd).
    apply update_returns; assumption. }
  destruct (for_each_returns (frame_safe mask dt) (update dt) Hup
                             cs1 (rng s) Hr1) as [cs2 [g2 E2]].
  rewrite E2.
  assert (L2 : length cs2 = length cs1).
  { symmetry. apply (Forall2_length
      (for_each_related same_params (update dt)
                        (update_same_params dt) _ _ _ _ E2)). }
  assert (Hr2 : Forall (frame_safe mask dt) cs2).
  { apply (for_each_Forall (frame_safe mask dt) (frame_safe mask dt)
                           (update dt)) with (3 := E2); [|exact Hr1].
    intros c c' g g' Hc E. apply (frame_safe_same mask dt c c' Hc).
    - exact (update_same_params dt c c' g g' E).
    - apply (update_length dt c c' g g'); [apply Hc|exact E]. }
  destruct (collide_pairs_returns_safe mask dt (index_pairs (length cs2))
                                       cs2 g2 Hr2) as [cs3 E3].
  rewrite E3. cbn [rbind fst snd]. eexists. split; [reflexivity|].
  cbn [_last_time _cells]. split; [reflexivity|].
  split.
  - rewrite <- L1, <- L2. symmetry.
    exact (Forall2_length (collide_pairs_related _ _ _ _ _ E3)).
  - exact (collide_pairs_Forall (frame_safe mask dt) (collide_safe mask dt)
                                _ _ _ _ _ Hr2 E3).
Qed.
End FrameTheorems.

Lemma square_cell_ready (mask : Mask) (dt cx cy : R) :
  0 <= cx < 512 -> 0 <= cy < 512 -> 0 <= dt ->
  (512 <= Z.of_nat (shape0 mask))%Z -> (512 <= Z.of_nat (shape1 mask))%Z ->
  frame_ready mask dt (square_cell 0.06 cx cy).
Proof.
  intros Hx Hy Hdt Hh Hw.
  split; [|split; [exact Hh|split; [exact Hw|simpl; lra]]].
  split; [reflexivity|]. split; [reflexivity|].
  split; [split; simpl; lra|].
  split; [apply square_cell_shaped|apply PI_nonneg_area].
Qed.

Lemma two_squares_ready :
  Forall (frame_ready (bright_mask 512 512) (1 / 60 - _last_time two_squares))
         (_cells two_squares).
Proof.
  simpl. constructor; [|constructor; [|constructor]];
    apply square_cell_ready; simpl; try lra; lia.
Qed.

Lemma square_cell_safe (mask : Mask) (dt cx cy : R) :
  0 <= dt ->
  (512 <= Z.of_nat (shape0 mask))%Z -> (512 <= Z.of_nat (shape1 mask))%Z ->
  frame_safe mask dt (square_cell 0.06 cx cy).
Proof.
  intros Hdt Hh Hw.
  split; [|split; [exact Hh|split; [exact Hw|simpl; lra]]].
  split; [reflexivity|]. split; [reflexivity|].
  split; [apply square_cell_shaped|apply PI_nonneg_area].
Qed.

Lemma two_squares_safe :
  Forall (frame_safe (bright_mask 512 512) (1 / 60 - _last_time two_squares))
         (_cells two_squares).
Proof.
  simpl. constructor; [|constructor; [|constructor]];
    apply square_cell_safe; simpl; try lra; lia.
Qed.

Lemma frame_never_faults_witness :
  exists s', get_frame two_squares (bright_mask 512 512) (1 / 60) = Ok s' /\
             _last_time s' = 1 / 60 /\
             length (_cells s') = length (_cells two_squares) /\
             Forall (frame_safe (bright_mask 512 512)
                                (1 / 60 - _last_time two_squares)) (_cells s').
Proof.
  apply (frame_never_faults two_squares (bright_mask 512 512) (1 / 60)).
  exact two_squares_safe.
Defined.

Lemma frame_keeps_population_witness :
  exists s', get_frame two_squares (bright_mask 512 512) (1 / 60) = Ok s' /\
             config s' = config two_squares /\ _last_time s' = 1 / 60 /\
             length (_cells s') = length (_cells two_squares) /\
             Forall2 same_params (_cells two_squares) (_cells s').
Proof.
  destruct (get_frame_returns two_squares (bright_mask 512 512) (1 / 60)
                              two_squares_ready) as [s' [E _]].
  exists s'. split; [exact E|].
  exact (frame_keeps_population two_squares s' (bright_mask 512 512) (1 / 60) E).
Defined.

(* ------------------------------------------------------------------ *)
(** ** What a collision achieves                                       *)
(* ------------------------------------------------------------------ *)

Lemma pymod_form (x : R) (w : Z) (y : R) :
  pymod x w = Ok y -> exists k : Z, y = x - IZR w * IZR k.
Proof.
  unfold pymod. destruct (Z.eqb w 0); [discriminate|].
  intros E. injection E as <-. eexists; reflexivity.
Qed.

Lemma wrap_form (p q : vec2) (w h : Z) :
  wrap p w h = Ok q ->
  exists kx ky : Z,
    fst q = fst p - IZR w * IZR kx /\ snd q = snd p - IZR h * IZR ky.
Proof.
  unfold wrap. destruct (pymod (fst p) w) as [x|] eqn:Ex; [|discriminate].
  destruct (pymod (snd p) h) as [y|] eqn:Ey; [|discriminate].
  simpl. intros E. injection E as <-.
  destruct (pymod_form _ _ _ Ex) as [kx Hx].
  destruct (pymod_form _ _ _ Ey) as [ky Hy].
  exists kx, ky. split; assumption.
Qed.

Lemma round_half_even_near_int (u : R) (m : Z) :
  Rabs u < 1 / 2 -> round_half_even (u + IZR m) = m.
Proof.
  intros Hu. unfold round_half_even.
  destruct (Rle_dec 0 u) as [Hpos|Hneg].
  - rewrite Rabs_pos_eq in Hu by exact Hpos.
    rewrite (Int_part_between (u + IZR m) m) by lra.
    destruct (Rlt_dec (u + IZR m - IZR m) (1 / 2)); [reflexivity|lra].
  - rewrite Rabs_left in Hu by lra.
    rewrite (Int_part_between (u + IZR m) (m - 1))
      by (rewrite minus_IZR; simpl; lra).
    rewrite minus_IZR. simpl.
    destruct (Rlt_dec (u + IZR m - (IZR m - 1)) (1 / 2)); [lra|].
    destruct (Rlt_dec (1 / 2) (u + IZR m - (IZR m - 1))); [lia|lra].
Qed.

(** A displacement shorter than half the axis is its own minimum
    image, whatever multiple of the axis length is added to it. *)
Lemma min_image_unique (t : R) (w m : Z) :
  (0 < w)%Z -> Rabs t < IZR w / 2 ->
  min_image (t + IZR w * IZR m) w = t.
Proof.
  intros Hw Ht. unfold min_image.
  assert (Hp : 0 < IZR w) by (apply IZR_lt; exact Hw).
  replace ((t + IZR w * IZR m) / IZR w) with (t / IZR w + IZR m)
    by (field; lra).
  rewrite round_half_even_near_int; [ring|].
  unfold Rdiv. rewrite Rabs_mult, (Rabs_pos_eq (/ IZR w)).
  - apply (Rmult_lt_reg_r (IZR w)); [exact Hp|].
    replace (Rabs t * / IZR w * IZR w) with (Rabs t) by (field; lra). lra.
  - left. apply Rinv_0_lt_compat. exact Hp.
Qed.

Lemma abs_le_norm2 (v : vec2) : Rabs (fst v) <= norm2 v /\ Rabs (snd v) <= norm2 v.
Proof.
  unfold norm2. set (q := fst v * fst v + snd v * snd v).
  assert (Hq : 0 <= q) by (unfold q; nra).
  pose proof (sqrt_pos q) as Hs. pose proof (sqrt_sqrt q Hq) as Hss.
  split; unfold Rabs; destruct (Rcase_abs _); unfold q in *; nra.
Qed.

Section Separation.
Context {G : Type} `{PyRandom G}.

(** X5.  Two overlapping cells on one field, whose largest radii [ma]
    and [mb] satisfy [ma + mb + 0.5 < width / 2] and [< height / 2]:
    [collide] returns them with their centres [ma + mb + 0.5] apart
    (measured, as [collide] does, by the minimum-image displacement),
    so that they no longer overlap, and a second [collide] on the
    result changes nothing. *)
Theorem collide_separates (a b : Cell) (g : G) (ma mb : R) :
  (0 < width a)%Z -> (0 < height a)%Z ->
  width b = width a -> height b = height a ->
  pymax (r a) = Ok ma -> pymax (r b) = Ok mb ->
  0 < ma + mb - norm2 (displacement a b) -> norm2 (displacement a b) <> 0 ->
  ma + mb + 0.5 < IZR (width a) / 2 -> ma + mb + 0.5 < IZR (height a) / 2 ->
  exists a' b',
    collide a b g = Ok ((a', b'), g) /\
    norm2 (displacement a' b') = ma + mb + 0.5 /\
    ma + mb - norm2 (displacement a' b') <= 0 /\
    collide a' b' g = Ok ((a', b'), g).
Proof.
  intros Hwa Hha Ewb Ehb Ea Eb Ho Hd Hhalfw Hhalfh.
  assert (Hwb : (0 < width b)%Z) by (rewrite Ewb; exact Hwa).
  assert (Hhb : (0 < height b)%Z) by (rewrite Ehb; exact Hha).
  set (d := displacement a b) in *. set (dist := norm2 d) in *.
  set (push := 0.5 * (ma + mb - dist + 0.5)).
  destruct (wrap_in_rect (fst (center a) - push * (fst d / dist),
                          snd (center a) - push * (snd d / dist))
                         (width a) (height a) Hwa Hha) as [ca [Eca _]].
  destruct (wrap_in_rect (fst (center b) + push * (fst d / dist),
                          snd (center b) + push * (snd d / dist))
                         (width b) (height b) Hwb Hhb) as [cb [Ecb _]].
  assert (E : collide a b g
              = Ok ((set_vel (set_center a ca) (0, 0),
                     set_vel (set_center b cb) (0, 0)), g)).
  { apply (collide_moves a b g ma mb ca cb); try assumption.
    fold d. fold dist. lra. }
  exists (set_vel (set_center a ca) (0, 0)), (set_vel (set_center b cb) (0, 0)).
  split; [exact E|].
  (* the displacement between the wrapped centres *)
  destruct (wrap_form _ _ _ _ Eca) as [kax [kay [Hax Hay]]].
  destruct (wrap_form _ _ _ _ Ecb) as [kbx [kby [Hbx Hby]]].
  simpl fst in Hax, Hay, Hbx, Hby. simpl snd in Hax, Hay, Hbx, Hby.
  rewrite Ewb in Hbx. rewrite Ehb in Hby.
  assert (Hdist : 0 < dist).
  { unfold dist. pose proof (sqrt_pos (fst d * fst d + snd d * snd d)).
    unfold dist, norm2 in Hd. unfold norm2. lra. }
  set (tx := (dist + 2 * push) * (fst d / dist)).
  set (ty := (dist + 2 * push) * (snd d / dist)).
  assert (Hlen : norm2 (tx, ty) = ma + mb + 0.5).
  { unfold tx, ty.
    assert (Hn : norm2 ((dist + 2 * push) * (fst d / norm2 d),
                        (dist + 2 * push) * (snd d / norm2 d))
                 = dist + 2 * push).
    { apply norm2_along; [unfold push; lra|exact Hd]. }
    fold dist in Hn. rewrite Hn. unfold push. lra. }
  assert (Hnew : displacement (set_vel (set_center a ca) (0, 0))
                              (set_vel (set_center b cb) (0, 0)) = (tx, ty)).
  { unfold displacement. cbn [center width height set_vel set_center fst snd].
    pose proof (abs_le_norm2 (tx, ty)) as [Hx Hy]. rewrite Hlen in Hx, Hy.
    simpl in Hx, Hy.
    f_equal.
    - replace (fst cb - fst ca)
        with (tx + IZR (width a)
                   * IZR (round_half_even
                            ((fst (center b) - fst (center a)) / IZR (width a))
                          - kbx + kax)).
      + apply min_image_unique; [exact Hwa|lra].
      + rewrite Hax, Hbx, plus_IZR, minus_IZR. unfold tx.
        unfold d, displacement, min_image. cbn [fst snd]. field. lra.
    - replace (snd cb - snd ca)
        with (ty + IZR (height a)
                   * IZR (round_half_even
                            ((snd (center b) - snd (center a)) / IZR (height a))
                          - kby + kay)).
      + apply min_image_unique; [exact Hha|lra].
      + rewrite Hay, Hby, plus_IZR, minus_IZR. unfold ty.
        unfold d, displacement, min_image. cbn [fst snd]. field. lra. }
  rewrite Hnew, Hlen. split; [reflexivity|]. split; [lra|].
  apply (collide_early _ _ g ma mb); try assumption.
  left. rewrite Hnew, Hlen. lra.
Qed.
End Separation.

Lemma pymax_unit_square : pymax [1; 1; 1; 1] = Ok 1.
Proof.
  assert (E1 : Rmax 1 1 = 1) by (apply Rmax_left; lra).
  unfold pymax. cbn [fold_left]. now rewrite !E1.
Qed.

Lemma displacement_squares :
  displacement (square_cell 0.06 100 100) (square_cell 0.06 101 100) = (1, 0).
Proof.
  unfold displacement, min_image. simpl center. simpl width. simpl height.
  simpl fst. simpl snd.
  rewrite !round_half_even_small by lra. f_equal; simpl; lra.
Qed.

Lemma norm2_unit_x : norm2 (1, 0) = 1.
Proof.
  unfold norm2. simpl. replace (1 * 1 + 0 * 0) with 1 by ring. apply sqrt_1.
Qed.

Lemma collide_separates_witness :
  exists a' b',
    collide (square_cell 0.06 100 100) (square_cell 0.06 101 100) blank_tape
    = Ok ((a', b'), blank_tape) /\
    norm2 (displacement a' b') = 1 + 1 + 0.5 /\
    1 + 1 - norm2 (displacement a' b') <= 0 /\
    collide a' b' blank_tape = Ok ((a', b'), blank_tape).
Proof.
  apply (collide_separates (square_cell 0.06 100 100) (square_cell 0.06 101 100)
                           blank_tape 1 1);
    try reflexivity; try exact pymax_unit_square;
    rewrite ?displacement_squares, ?norm2_unit_x; simpl; lra.
Defined.

(* ------------------------------------------------------------------ *)
(** ** What a stimulation does to the velocity                         *)
(* ------------------------------------------------------------------ *)

Lemma norm2_opp (x y : R) : norm2 (- x, - y) = norm2 (x, y).
Proof. unfold norm2. simpl. f_equal. ring. Qed.

Lemma norm2_unit_scaled (i : R) (d : vec2) :
  norm2 d <> 0 ->
  norm2 (fst d / norm2 d * i, snd d / norm2 d * i) = Rabs i.
Proof.
  intros Hd. destruct (Rle_dec 0 i) as [Hpos|Hneg].
  - rewrite Rabs_pos_eq by exact Hpos.
    replace (fst d / norm2 d * i, snd d / norm2 d * i)
      with (i * (fst d / norm2 d), i * (snd d / norm2 d))
      by (f_equal; ring).
    apply norm2_along; assumption.
  - rewrite Rabs_left by lra.
    replace (fst d / norm2 d * i, snd d / norm2 d * i)
      with (- (- i * (fst d / norm2 d)), - (- i * (snd d / norm2 d)))
      by (f_equal; ring).
    rewrite norm2_opp. apply norm2_along; [lra|exact Hd].
Qed.

Section Kick.
Context {G : Type} `{PyRandom G}.

(** X6.  A [stimulate] that returns never moves the centre and never
    changes a parameter or the number of radii; the velocity is either
    left as it was (early return, or the hit vertices' centroid is the
    centre itself) or changed by a vector of length exactly
    [|impulse|]. *)
Theorem stimulate_kick_has_impulse_length
        (mask : Mask) (c c' : Cell) (g g' : G) :
  stimulate mask c g = Ok (c', g') ->
  center c' = center c /\ same_params c c' /\
  length (r c') = length (r c) /\
  (vel c' = vel c \/
   norm2 (fst (vel c') - fst (vel c), snd (vel c') - snd (vel c))
   = Rabs (impulse c)).
Proof.
  unfold stimulate, bind, pure_step, ret. intros E.
  destruct (negb (any (inside_flags c))).
  { injection E as <- _. split; [reflexivity|].
    split; [apply same_params_refl|]. split; [reflexivity|now left]. }
  match type of E with
  | context [mask_take ?m ?iy ?ix] => destruct (mask_take m iy ix) as [hit|]
  end; [|discriminate].
  destruct (negb (any hit)).
  { injection E as <- _. split; [reflexivity|].
    split; [apply same_params_refl|]. split; [reflexivity|now left]. }
  match type of E with
  | context [_conserve_area ?x] => destruct (_conserve_area x) as [c1|] eqn:Ec
  end; [|discriminate].
  pose proof (conserve_area_inv _ _ Ec) as [_ [E1 _]].
  assert (Hlen : length (r c1) = length (r c)).
  { rewrite E1. simpl. now rewrite length_map, clip_length, add_at_length. }
  assert (Hc : center c1 = center c) by (rewrite E1; reflexivity).
  assert (Hv : vel c1 = vel c) by (rewrite E1; reflexivity).
  assert (Hi : impulse c1 = impulse c) by (rewrite E1; reflexivity).
  assert (Hp : same_params c c1).
  { rewrite E1. unfold same_params. repeat split; reflexivity. }
  match type of E with
  | context [Req_dec_T (norm2 ?vec) 0] =>
      destruct (Req_dec_T (norm2 vec) 0) as [Hn|Hn];
      [|pose proof (norm2_unit_scaled (impulse c1) vec Hn) as Hk]
  end; injection E as <- _.
  - split; [exact Hc|]. split; [exact Hp|]. split; [exact Hlen|].
    left. exact Hv.
  - split; [exact Hc|]. split; [exact Hp|]. split; [exact Hlen|].
    right. cbn [vel set_vel fst snd]. rewrite <- Hi, <- Hk, <- Hv.
    cbn [fst snd]. f_equal. f_equal; ring.
Qed.
End Kick.

Lemma stimulate_kick_has_impulse_length_witness :
  exists c',
    stimulate (bright_mask 512 512) (square_cell 0.06 100 100) blank_tape
    = Ok (c', blank_tape) /\
    center c' = (100, 100) /\
    same_params (square_cell 0.06 100 100) c' /\
    length (r c') = 4%nat /\
    (vel c' = (0, 0) \/
     norm2 (fst (vel c') - 0, snd (vel c') - 0) = Rabs 10).
Proof.
  destruct (stimulate_covered_returns (bright_mask 512 512)
                                      (square_cell 0.06 100 100) blank_tape)
    as [c' E];
    [simpl; lia|simpl; lia|apply square_cell_shaped|apply PI_nonneg_area|].
  exists c'. split; [exact E|].
  exact (stimulate_kick_has_impulse_length
           (bright_mask 512 512) (square_cell 0.06 100 100) c'
           blank_tape blank_tape E).
Defined.

(* ------------------------------------------------------------------ *)
(** ** Friction and drift in [update]                                  *)
(* ------------------------------------------------------------------ *)

Section Motion.
Context {G : Type} `{PyRandom G}.

Lemma update_vel_center (dt : R) (c c' : Cell) (g g' : G) :
  update dt c g = Ok (c', g') ->
  let d := update_draws dt c g in
  vel c' = ((fst (vel c) + kick_amp d * cos (kick_angle d))
            * Rmax 0 (1 - friction c * dt),
            (snd (vel c) + kick_amp d * sin (kick_angle d))
            * Rmax 0 (1 - friction c * dt)) /\
  wrap (update_moved dt c (kick_amp d) (kick_angle d)) (width c) (height c)
  = Ok (center c').
Proof.
  intros E. apply update_by_draws in E. cbv zeta in E.
  destruct E as [_ [p [Ew Ec]]].
  apply conserve_area_inv in Ec. destruct Ec as [_ [-> _]].
  cbv zeta. split; [reflexivity|exact Ew].
Qed.

(** X7.  When [friction * dt >= 1] the friction factor
    [max(0, 1 - friction * dt)] is 0 and [update] leaves the cell at
    rest, whatever the Brownian kick was: a long frame stops the cell
    instead of reversing its velocity.  When [0 <= friction * dt <= 1]
    the factor lies in [[0, 1]]. *)
Theorem update_friction_stops_never_reverses
        (dt : R) (c c' : Cell) (g g' : G) :
  update dt c g = Ok (c', g') ->
  (1 <= friction c * dt -> vel c' = (0, 0)) /\
  (0 <= friction c * dt <= 1 ->
   exists f, 0 <= f <= 1 /\ f = 1 - friction c * dt /\
             vel c' = ((fst (vel c)
                        + kick_amp (update_draws dt c g)
                          * cos (kick_angle (update_draws dt c g))) * f,
                       (snd (vel c)
                        + kick_amp (update_draws dt c g)
                          * sin (kick_angle (update_draws dt c g))) * f)).
Proof.
  intros E. apply update_vel_center in E. cbv zeta in E.
  destruct E as [Ev _]. split.
  - intros Hf. rewrite Ev, Rmax_left by lra. f_equal; ring.
  - intros Hf. exists (1 - friction c * dt).
    split; [lra|]. split; [reflexivity|].
    rewrite Ev, Rmax_right by lra. reflexivity.
Qed.

(** X8.  Without Brownian motion ([brownian_d = 0]) the translation
    part of [update] is deterministic: the new centre is
    [wrap (center + vel * dt)] and the new velocity is the old one
    times the friction factor, whatever the generator draws. *)
Theorem update_without_brownian_is_drift
        (dt : R) (c c' : Cell) (g g' : G) :
  brownian_d c = 0 ->
  update dt c g = Ok (c', g') ->
  wrap (fst (center c) + fst (vel c) * dt, snd (center c) + snd (vel c) * dt)
       (width c) (height c) = Ok (center c') /\
  vel c' = (fst (vel c) * Rmax 0 (1 - friction c * dt),
            snd (vel c) * Rmax 0 (1 - friction c * dt)).
Proof.
  intros Hd E. apply update_vel_center in E. cbv zeta in E.
  destruct E as [Ev Ew].
  assert (Ha : kick_amp (update_draws dt c g) = 0).
  { rewrite kick_amp_value, Hd.
    replace (2 * 0 * dt) with 0 by ring. rewrite sqrt_0. ring. }
  rewrite Ha in Ev, Ew. split.
  - rewrite <- Ew. f_equal. unfold update_moved. f_equal; ring.
  - rewrite Ev. f_equal; ring.
Qed.
End Motion.

Lemma update_friction_stops_never_reverses_witness :
  exists c' g',
    update 1 (square_cell 0.06 100 100) blank_tape = Ok (c', g') /\
    vel c' = (0, 0).
Proof.
  destruct (update_returns 1 (square_cell 0.06 100 100) blank_tape)
    as [c' [g' E]];
    [reflexivity|reflexivity|simpl; lra|apply square_cell_shaped
     |apply PI_nonneg_area|].
  exists c', g'. split; [exact E|].
  apply (update_friction_stops_never_reverses
           1 (square_cell 0.06 100 100) c' blank_tape g' E).
  simpl. lra.
Defined.

Lemma update_without_brownian_is_drift_witness :
  exists c' g',
    update 1 drifting_cell blank_tape = Ok (c', g') /\
    wrap (511 + 10 * 1, 256 + 0 * 1) 512 512 = Ok (center c') /\
    vel c' = (10 * Rmax 0 (1 - 0 * 1), 0 * Rmax 0 (1 - 0 * 1)).
Proof.
  destruct (update_returns 1 drifting_cell blank_tape) as [c' [g' E]];
    [reflexivity|reflexivity|simpl; lra| |apply PI_nonneg_area|].
  { unfold well_shaped. simpl. repeat split; lia. }
  exists c', g'. split; [exact E|].
  apply (update_without_brownian_is_drift 1 drifting_cell c' blank_tape g');
    [reflexivity|exact E].
Defined.

(* ------------------------------------------------------------------ *)
(** ** What relaxation does to the mean radius                         *)
(* ------------------------------------------------------------------ *)

Lemma rsum_rev (xs : list R) : rsum (rev xs) = rsum xs.
Proof.
  induction xs as [|x t IH]; simpl; [reflexivity|].
  rewrite rsum_app, IH. simpl. ring.
Qed.

Lemma rsum_roll_right (xs : list R) : rsum (roll_right xs) = rsum xs.
Proof.
  unfold roll_right. rewrite <- (rsum_rev xs).
  destruct (rev xs) as [|l t]; simpl; [reflexivity|].
  now rewrite rsum_rev.
Qed.

Lemma rsum_zip_plus (xs ys : list R) :
  length xs = length ys -> rsum (zip_with Rplus xs ys) = rsum xs + rsum ys.
Proof.
  revert ys. induction xs as [|x t IH]; intros [|y u] Hl; try discriminate.
  - simpl. ring.
  - injection Hl as Hl. simpl. rewrite (IH u Hl). ring.
Qed.

Lemma rsum_zip_minus (xs ys : list R) :
  length xs = length ys -> rsum (zip_with Rminus xs ys) = rsum xs - rsum ys.
Proof.
  revert ys. induction xs as [|x t IH]; intros [|y u] Hl; try discriminate.
  - simpl. ring.
  - injection Hl as Hl. simpl. rewrite (IH u Hl). ring.
Qed.

Lemma rsum_map_mult (k : R) (xs : list R) : rsum (map (Rmult k) xs) = k * rsum xs.
Proof. induction xs as [|x t IH]; simpl; [ring|]. rewrite IH. ring. Qed.

Lemma rsum_map_pull (k b : R) (xs : list R) :
  rsum (map (fun x => k * (b - x)) xs) = k * (INR (length xs) * b - rsum xs).
Proof.
  induction xs as [|x t IH]; [simpl; ring|].
  change (length (x :: t)) with (S (length t)). rewrite S_INR.
  simpl. rewrite IH. ring.
Qed.

Lemma roll_left_repeat (x : R) (n : nat) : roll_left (repeat x n) = repeat x n.
Proof.
  destruct n as [|n]; [reflexivity|]. simpl.
  induction n as [|n IH]; [reflexivity|]. simpl. now rewrite IH.
Qed.

Lemma rev_repeat (x : R) (n : nat) : rev (repeat x n) = repeat x n.
Proof.
  induction n as [|n IH]; [reflexivity|]. simpl. rewrite IH.
  clear IH. induction n as [|n IH]; [reflexivity|]. simpl. now rewrite IH.
Qed.

Lemma roll_right_repeat (x : R) (n : nat) : roll_right (repeat x n) = repeat x n.
Proof.
  unfold roll_right. rewrite rev_repeat.
  destruct n as [|n]; [reflexivity|]. simpl. now rewrite rev_repeat.
Qed.

(** X9.  The curvature term [lap] sums to zero over the vertices, so
    curvature relaxation never changes the mean radius; the whole
    relaxation line moves the sum of the radii toward [V * base_r] by
    the fraction [radial_relax]; and a cell whose radii are all equal
    keeps them all equal (each moves toward [base_r] by that
    fraction). *)
Theorem relaxation_mean_and_round (c : Cell) (rs : list R) (x : R) (n : nat) :
  rsum (lap rs) = 0 /\
  rsum (relaxed c rs)
  = rsum rs + radial_relax c * (INR (length rs) * base_r c - rsum rs) /\
  Forall (fun y => y = x + radial_relax c * (base_r c - x))
         (relaxed c (repeat x n)).
Proof.
  assert (Hlap : rsum (lap rs) = 0).
  { unfold lap.
    rewrite rsum_zip_minus
      by (rewrite zip_with_length, roll_left_length, roll_right_length,
            length_map; lia).
    rewrite rsum_zip_plus by (rewrite roll_left_length, roll_right_length; lia).
    rewrite rsum_roll_left, rsum_roll_right, rsum_map_mult. ring. }
  split; [exact Hlap|]. split.
  - unfold relaxed.
    rewrite rsum_zip_plus
      by (rewrite zip_with_length, !length_map, lap_length; lia).
    rewrite rsum_zip_plus by (rewrite !length_map, lap_length; lia).
    rewrite rsum_map_mult, Hlap, rsum_map_pull. ring.
  - unfold relaxed, lap.
    rewrite roll_left_repeat, roll_right_repeat.
    induction n as [|n IH]; simpl; constructor.
    + ring.
    + exact IH.
Qed.

(* ------------------------------------------------------------------ *)
(** ** [polygon_area] under rigid changes of the vertex array          *)
(* ------------------------------------------------------------------ *)

Lemma dot_snoc (xs ys : list R) (x y : R) :
  length xs = length ys -> dot (xs ++ [x]) (ys ++ [y]) = dot xs ys + x * y.
Proof.
  revert ys. induction xs as [|a t IH]; intros [|b u] Hl; try discriminate.
  - simpl. ring.
  - injection Hl as Hl. simpl. rewrite (IH u Hl). ring.
Qed.

Lemma dot_roll_both (xs ys : list R) :
  length xs = length ys -> dot (roll_left xs) (roll_left ys) = dot xs ys.
Proof.
  destruct xs as [|x t]; destruct ys as [|y u]; intros Hl; try discriminate.
  - reflexivity.
  - injection Hl as Hl. simpl. rewrite (dot_snoc t u x y Hl). ring.
Qed.

Lemma shoelace_roll (pts : list vec2) : shoelace (roll_left pts) = shoelace pts.
Proof.
  unfold shoelace. rewrite <- !roll_left_map.
  rewrite !dot_roll_both
    by (rewrite !roll_left_length, !length_map; reflexivity).
  reflexivity.
Qed.

Lemma roll_left_nil {A : Type} (xs : list A) : roll_left xs = [] -> xs = [].
Proof.
  destruct xs as [|x t]; [reflexivity|]. simpl. intros E.
  apply (f_equal (@length A)) in E. rewrite length_app in E. simpl in E. lia.
Qed.

(** X10.  [polygon_area] raises [IndexError] on an empty vertex array
    and returns on every other; on a non-empty array its value does not
    change when every vertex is translated by one vector or when the
    array is rotated to start at the next vertex, and it is multiplied
    by [s * s] when every vertex is scaled by [s]. *)
Theorem polygon_area_rigid (pts : list vec2) (a b s : R) :
  polygon_area [] = Raise IndexError /\
  (pts <> [] ->
   exists A,
     polygon_area pts = Ok A /\
     polygon_area (map (fun p => (fst p + a, snd p + b)) pts) = Ok A /\
     polygon_area (roll_left pts) = Ok A /\
     polygon_area (map (fun p => (fst p * s, snd p * s)) pts) = Ok (s * s * A)).
Proof.
  split; [reflexivity|]. intros Hne. exists (shoelace pts).
  split; [exact (polygon_area_shoelace pts Hne)|]. split; [|split].
  - rewrite polygon_area_shoelace
      by (destruct pts; [congruence|discriminate]).
    now rewrite shoelace_translate.
  - rewrite polygon_area_shoelace
      by (intros E; apply Hne; exact (roll_left_nil pts E)).
    now rewrite shoelace_roll.
  - rewrite polygon_area_shoelace
      by (destruct pts; [congruence|discriminate]).
    now rewrite shoelace_scale.
Qed.

Lemma polygon_area_rigid_witness :
  polygon_area [] = Raise IndexError /\
  ([(0, 0); (1, 0); (0, 1)] <> [] ->
   exists A,
     polygon_area [(0, 0); (1, 0); (0, 1)] = Ok A /\
     polygon_area (map (fun p => (fst p + 3, snd p + 4)) [(0, 0); (1, 0); (0, 1)])
     = Ok A /\
     polygon_area (roll_left [(0, 0); (1, 0); (0, 1)]) = Ok A /\
     polygon_area (map (fun p => (fst p * 2, snd p * 2)) [(0, 0); (1, 0); (0, 1)])
     = Ok (2 * 2 * A)).
Proof.
  exact (polygon_area_rigid [(0, 0); (1, 0); (0, 1)] 3 4 2).
Defined.

(* ------------------------------------------------------------------ *)
(** ** The area of a cell, in closed form                              *)
(* ------------------------------------------------------------------ *)

Lemma chain_polar_value (V : nat) (h x0 : R) :
  INR V * h = 2 * PI ->
  forall (n j : nat) (rs : list R) (xj : R),
    length rs = n -> (j + 1 + n = V)%nat ->
    chain (polar (INR 0 * h) x0) (polar (INR j * h) xj)
          (zip_with polar (map (fun i => INR i * h) (seq (S j) n)) rs)
    = sin h * dot (xj :: rs) (rs ++ [x0]).
Proof.
  intros HV. induction n as [|n IH]; intros j rs xj Hl Hj.
  - destruct rs; [|discriminate]. simpl. rewrite cross_polar.
    assert (E : 0 * h - INR j * h = h - 2 * PI).
    { rewrite <- HV, <- Hj. rewrite !plus_INR. simpl. ring. }
    rewrite E. unfold Rminus.
    rewrite sin_plus, cos_neg, sin_neg, cos_2PI, sin_2PI. ring.
  - destruct rs as [|x rt]; [discriminate|]. injection Hl as Hl.
    cbn [seq map zip_with chain]. rewrite cross_polar.
    assert (E : INR (S j) * h - INR j * h = h) by (rewrite S_INR; ring).
    rewrite E, (IH (S j) rt x Hl) by lia.
    simpl. ring.
Qed.

Lemma dot_positive (xs ys : list R) :
  Forall (fun x => 0 < x) xs -> Forall (fun x => 0 < x) ys ->
  length xs = length ys -> xs <> [] -> 0 < dot xs ys.
Proof.
  intros Hx. revert ys. induction Hx as [|x t Hx0 Ht IH]; intros ys Hy Hl Hne;
    [congruence|].
  destruct ys as [|y u]; [discriminate|]. injection Hl as Hl.
  inversion Hy as [|? ? Hy0 Hu]; subst. simpl.
  assert (0 < x * y) by (apply Rmult_lt_0_compat; assumption).
  destruct t as [|x' t'].
  - destruct u; [|discriminate]. simpl. lra.
  - assert (0 < dot (x' :: t') u) by (apply IH; [assumption|assumption|discriminate]).
    lra.
Qed.

Lemma roll_left_Forall {A : Type} (P : A -> Prop) (xs : list A) :
  Forall P xs -> Forall P (roll_left xs).
Proof.
  destruct xs as [|x t]; [intros; constructor|]. intros H.
  inversion H; subst. simpl. apply Forall_app. split; [assumption|].
  constructor; [assumption|constructor].
Qed.

(** One point: the two products of the shoelace sum are the same. *)
Lemma shoelace_single (pts : list vec2) :
  length pts = 1%nat -> shoelace pts = 0.
Proof.
  destruct pts as [|[x y] [|q t]]; try discriminate. intros _.
  unfold shoelace. simpl. ring.
Qed.

Lemma shoelace_closed_form (c : Cell) :
  angles c = linspace_2pi (vertices c) ->
  length (r c) = vertices c ->
  (1 <= vertices c)%nat ->
  shoelace (abs_pts c)
  = 0.5 * sin (2 * PI / INR (vertices c)) * dot (r c) (roll_left (r c)).
Proof.
  intros Ha Hl HV.
  rewrite abs_pts_shoelace, rel_pts_pairs, Ha. unfold linspace_2pi.
  destruct (vertices c) as [|n] eqn:EV; [lia|].
  destruct (r c) as [|x0 rt]; [discriminate|]. injection Hl as Hl. subst n.
  cbn [seq map zip_with roll_left].
  change (fun a x => (cos a * x, sin a * x)) with polar.
  change (cos (INR 0 * (2 * PI / INR (S (length rt)))) * x0,
          sin (INR 0 * (2 * PI / INR (S (length rt)))) * x0)
    with (polar (INR 0 * (2 * PI / INR (S (length rt)))) x0).
  rewrite shoelace_chain.
  rewrite (chain_polar_value (S (length rt))); try reflexivity; try lia.
  - ring.
  - field. apply not_0_INR. discriminate.
Qed.

(** X11.  For a cell whose [V >= 1] vertices sit at the angles
    [2 pi i / V] and which has one radius per vertex, [polygon_area] of
    its vertices is [0.5 * sin (2 pi / V) * (r @ roll(r, -1))],
    wherever the centre is: half the sine of the angular step times the
    sum of the products of neighbouring radii.  With a single vertex
    the area is 0 (the two products are the same number), and with
    positive radii it is positive for [V >= 3] (the vertices run
    counter-clockwise). *)
Theorem cell_area_closed_form (c : Cell) :
  angles c = linspace_2pi (vertices c) ->
  length (r c) = vertices c ->
  (1 <= vertices c)%nat ->
  polygon_area (abs_pts c)
  = Ok (0.5 * sin (2 * PI / INR (vertices c)) * dot (r c) (roll_left (r c))) /\
  (vertices c = 1%nat -> polygon_area (abs_pts c) = Ok 0) /\
  ((3 <= vertices c)%nat -> Forall (fun x => 0 < x) (r c) ->
   0 < 0.5 * sin (2 * PI / INR (vertices c)) * dot (r c) (roll_left (r c))).
Proof.
  intros Ha Hl HV.
  assert (Hne : abs_pts c <> []).
  { apply abs_pts_nonempty; [rewrite Ha, linspace_length|]; lia. }
  pose proof (shoelace_closed_form c Ha Hl HV) as Hval.
  split; [rewrite polygon_area_shoelace by exact Hne; now rewrite Hval|].
  split.
  - intros H1. rewrite polygon_area_shoelace by exact Hne. f_equal.
    apply shoelace_single. rewrite abs_pts_length, Ha, linspace_length, Hl, H1.
    reflexivity.
  - intros H3 Hpos.
    apply Rmult_lt_0_compat;
      [apply Rmult_lt_0_compat; [lra|apply sin_step_positive; exact H3]|].
    apply dot_positive.
    + exact Hpos.
    + apply roll_left_Forall. exact Hpos.
    + now rewrite roll_left_length.
    + intros E. rewrite E in Hl. simpl in Hl. lia.
Qed.

Lemma cell_area_closed_form_witness :
  polygon_area (abs_pts (square_cell 0 100 100))
  = Ok (0.5 * sin (2 * PI / INR 4) * dot [1; 1; 1; 1] (roll_left [1; 1; 1; 1])) /\
  (4%nat = 1%nat -> polygon_area (abs_pts (square_cell 0 100 100)) = Ok 0) /\
  ((3 <= 4)%nat -> Forall (fun x => 0 < x) [1; 1; 1; 1] ->
   0 < 0.5 * sin (2 * PI / INR 4) * dot [1; 1; 1; 1] (roll_left [1; 1; 1; 1])).
Proof.
  apply (cell_area_closed_form (square_cell 0 100 100));
    [reflexivity|reflexivity|simpl; lia].
Defined.

(* ------------------------------------------------------------------ *)
(** ** [wrap] on the torus                                             *)
(* ------------------------------------------------------------------ *)

(** X12.  On a field of positive size [wrap] returns for every
    position; the point it returns differs from the position by a whole
    number of widths in [x] and of heights in [y], and has both
    coordinates between 0 and the axis length; a position that already
    lies in [[0, width) x [0, height)] is returned as it is. *)
Theorem wrap_moves_by_whole_fields (pos : vec2) (w h : Z) :
  (0 < w)%Z -> (0 < h)%Z ->
  exists q,
    wrap pos w h = Ok q /\
    (exists kx ky : Z,
        fst q = fst pos - IZR w * IZR kx /\
        snd q = snd pos - IZR h * IZR ky) /\
    0 <= fst q <= IZR w /\ 0 <= snd q <= IZR h /\
    (in_rect pos w h -> q = pos).
Proof.
  intros Hw Hh. destruct (wrap_in_rect pos w h Hw Hh) as [q [E [Hx Hy]]].
  exists q. split; [exact E|].
  split; [exact (wrap_form pos q w h E)|].
  split; [lra|]. split; [lra|].
  intros Hin. rewrite (wrap_fixed pos w h Hin) in E. now injection E as <-.
Qed.

Lemma wrap_moves_by_whole_fields_witness :
  exists q,
    wrap (600, -3) 512 384 = Ok q /\
    (exists kx ky : Z,
        fst q = fst (600, -3) - 512 * IZR kx /\
        snd q = snd (600, -3) - 384 * IZR ky) /\
    0 <= fst q <= 512 /\ 0 <= snd q <= 384 /\
    (in_rect (600, -3) 512 384 -> q = (600, -3)).
Proof.
  apply (wrap_moves_by_whole_fields (600, -3) 512 384); reflexivity.
Defined.

(* ------------------------------------------------------------------ *)
(** ** Populations: [MicroscopeSim.__init__] and [reset]               *)
(* ------------------------------------------------------------------ *)

Section Populations.
Context {G : Type} `{PyRandom G}.


Lemma make_cells_newborn (cfg : Config) :
  (0 < cfg_width cfg)%Z -> (0 < cfg_height cfg)%Z -> 0 < cfg_base_radius cfg ->
  forall (n : nat) (g g' : G) (cs : list Cell),
    make_cells cfg n g = Ok (cs, g') ->
    length cs = n /\ Forall (newborn cfg) cs.
Proof.
  intros Hw Hh Hb. induction n as [|n IH]; intros g g' cs.
  - cbn [make_cells]. unfold ret. intros E. injection E as <- _.
    split; [reflexivity|constructor].
  - cbn [make_cells]. unfold Cell_init, uniform, rand, ret, bind.
    pose proof (next_random_range g) as H0.
    destruct (next_random g) as [u g1]. cbn [fst snd] in *.
    pose proof (next_random_range g1) as H1.
    destruct (next_random g1) as [u1 g2]. cbn [fst snd] in *.
    pose proof (next_random_range g2) as H2.
    destruct (next_random g2) as [u2 g3]. cbn [fst snd] in *.
    destruct (make_cells cfg n g3) as [[t g4]|e] eqn:Et; [|discriminate].
    intros E. injection E as <- _.
    destruct (IH _ _ _ Et) as [Hl Ht].
    split; [simpl; now rewrite Hl|].
    constructor; [|exact Ht].
    assert (Hpw : 0 < IZR (cfg_width cfg)) by (apply IZR_lt; exact Hw).
    assert (Hph : 0 < IZR (cfg_height cfg)) by (apply IZR_lt; exact Hh).
    unfold newborn, in_field, in_rect. cbn.
    repeat (split; [reflexivity|]).
    split; [split; nra|].
    repeat (split; [reflexivity|]).
    split; split; nra.
Qed.


End Populations.


(* ------------------------------------------------------------------ *)
(** ** What [Cell.draw] puts on the surface                            *)
(* ------------------------------------------------------------------ *)

Lemma rfold_out {A S : Type} (f : list S -> A -> result (list S))
      (out : A -> list S) :
  (forall s x, f s x = Ok (s ++ out x)) ->
  forall xs s, rfold f xs s = Ok (s ++ flat_map out xs).
Proof.
  intros Hf. induction xs as [|x t IH]; intros s; simpl.
  - now rewrite app_nil_r.
  - rewrite Hf. simpl. rewrite IH. now rewrite app_assoc.
Qed.

Lemma rfold_guard {A S : Type} (f : S -> A -> result S) (b : A -> bool)
      (e : fault) :
  (forall s x, f s x = if b x then Raise e else Ok s) ->
  forall xs s, rfold f xs s = if existsb b xs then Raise e else Ok s.
Proof.
  intros Hf. induction xs as [|x t IH]; intros s; simpl; [reflexivity|].
  rewrite Hf. destruct (b x); simpl; [reflexivity|apply IH].
Qed.

Lemma flat_map_list_prod {A B C : Type} (f : A * B -> list C)
      (xs : list A) (ys : list B) :
  flat_map f (list_prod xs ys)
  = flat_map (fun x => flat_map (fun y => f (x, y)) ys) xs.
Proof.
  induction xs as [|x t IH]; simpl; [reflexivity|].
  rewrite flat_map_app, IH. f_equal. clear IH.
  induction ys as [|y u IHy]; simpl; [reflexivity|]. now rewrite IHy.
Qed.

Lemma existsb_list_prod {A B : Type} (b : A * B -> bool)
      (xs : list A) (ys : list B) :
  existsb b (list_prod xs ys)
  = existsb (fun x => existsb (fun y => b (x, y)) ys) xs.
Proof.
  induction xs as [|x t IH]; simpl; [reflexivity|].
  rewrite existsb_app, IH. f_equal. clear IH.
  induction ys as [|y u IHy]; simpl; [reflexivity|]. now rewrite IHy.
Qed.

Lemma tile_pts_length (c : Cell) (ox oy : R) :
  length (tile_pts c ox oy) = length (_rel_pts c).
Proof. unfold tile_pts. apply length_map. Qed.

Lemma scaled_length (c : Cell) (ox oy s : R) (pts : list vec2) :
  length (scaled c ox oy s pts) = length pts.
Proof. unfold scaled. apply length_map. Qed.

Lemma tile_prims_length (c : Cell) (t : R * R) :
  length (tile_prims c t) = 8%nat.
Proof. reflexivity. Qed.

Lemma draw_layers_out (c : Cell) (ox oy : R) (pts : list vec2) :
  (3 <= length pts)%nat ->
  forall (ls : list nat) (surf : Surface),
    rfold (draw_layer c ox oy pts) ls surf
    = Ok (surf ++
          map (fun i =>
                 Polygon ((80 + trunc_int (100 * (INR i / INR layers)))%Z,
                          (80 + trunc_int (100 * (INR i / INR layers)))%Z, 255%Z)
                         (scaled c ox oy (INR i / INR layers) pts) 0) ls).
Proof.
  intros Hl ls surf.
  rewrite (rfold_out (draw_layer c ox oy pts)
             (fun i =>
                [Polygon ((80 + trunc_int (100 * (INR i / INR layers)))%Z,
                          (80 + trunc_int (100 * (INR i / INR layers)))%Z, 255%Z)
                         (scaled c ox oy (INR i / INR layers) pts) 0])).
  - do 2 apply f_equal. clear surf.
    induction ls as [|i t IH]; cbn [flat_map map app]; [reflexivity|].
    now rewrite IH.
  - intros s i. unfold draw_layer, draw_polygon. rewrite scaled_length.
    simpl Z.eqb. cbv iota.
    destruct (Nat.ltb_spec (length pts) 3) as [Hlt|_]; [lia|reflexivity].
Qed.

Lemma draw_tile_out (c : Cell) (ox oy : R) (surf : Surface) :
  (3 <= length (_rel_pts c))%nat ->
  draw_tile c ox surf oy = Ok (surf ++ tile_out c (ox, oy)).
Proof.
  intros Hl. unfold draw_tile, tile_out, visible. cbn [fst snd].
  destruct (existsb (on_screen c) (tile_pts c ox oy)); cbn [negb].
  - rewrite draw_layers_out by (rewrite tile_pts_length; exact Hl).
    cbn [rbind]. unfold draw_polygon, draw_circle. simpl Z.eqb. cbv iota.
    destruct (Nat.ltb_spec (length (tile_pts c ox oy)) 2) as [Hlt|_];
      [rewrite tile_pts_length in Hlt; lia|].
    cbn [rbind]. unfold tile_prims. cbn [fst snd].
    rewrite <- !app_assoc. reflexivity.
  - now rewrite app_nil_r.
Qed.

Lemma draw_out (c : Cell) (surf : Surface) :
  (3 <= length (_rel_pts c))%nat ->
  draw c surf = Ok (surf ++ flat_map (tile_out c) (tiles c)).
Proof.
  intros Hl. unfold draw, tiles. rewrite flat_map_list_prod.
  apply (rfold_out
           (fun surf1 ox => rfold (draw_tile c ox) (offsets (height c)) surf1)
           (fun ox => flat_map (fun oy => tile_out c (ox, oy))
                               (offsets (height c)))).
  intros s ox.
  apply (rfold_out (draw_tile c ox) (fun oy => tile_out c (ox, oy))).
  intros s' oy. apply draw_tile_out. exact Hl.
Qed.

Lemma draw_tile_few (c : Cell) (ox oy : R) (surf : Surface) :
  (length (_rel_pts c) < 3)%nat ->
  draw_tile c ox surf oy
  = if visible c (ox, oy) then Raise ValueError else Ok surf.
Proof.
  intros Hl. unfold draw_tile, visible. cbn [fst snd].
  destruct (existsb (on_screen c) (tile_pts c ox oy)); cbn [negb];
    [|reflexivity].
  cbn [layers seq rev app rfold]. unfold draw_layer at 1, draw_polygon.
  rewrite scaled_length, tile_pts_length. simpl Z.eqb. cbv iota.
  destruct (Nat.ltb_spec (length (_rel_pts c)) 3) as [_|Hge]; [|lia].
  reflexivity.
Qed.

Lemma draw_few (c : Cell) (surf : Surface) :
  (length (_rel_pts c) < 3)%nat ->
  draw c surf
  = if existsb (visible c) (tiles c) then Raise ValueError else Ok surf.
Proof.
  intros Hl. unfold draw, tiles. rewrite existsb_list_prod.
  apply (rfold_guard
           (fun surf1 ox => rfold (draw_tile c ox) (offsets (height c)) surf1)
           (fun ox => existsb (fun oy => visible c (ox, oy))
                              (offsets (height c)))).
  intros s ox.
  apply (rfold_guard (draw_tile c ox) (fun oy => visible c (ox, oy))).
  intros s' oy. apply draw_tile_few. exact Hl.
Qed.

Lemma tile_out_length (c : Cell) (ts : list (R * R)) :
  length (flat_map (tile_out c) ts)
  = (8 * length (filter (visible c) ts))%nat.
Proof.
  induction ts as [|t u IH]; [reflexivity|].
  cbn [flat_map filter]. rewrite length_app, IH. unfold tile_out.
  destruct (visible c t); [rewrite tile_prims_length; simpl length; lia|].
  simpl length. lia.
Qed.

(** X15.  What [Cell.draw] does depends on the number of points of the
    outline and on which of the nine periodic images of the cell have a
    vertex in the closed rectangle [[0, width] x [0, height]].  With
    three points or more it returns and appends to the surface exactly
    eight primitives per such image, keeping what was drawn before (and
    at most 72 in all).  With one or two points it raises [ValueError]
    (pygame refuses the polygon) when some image is on the screen, and
    leaves the surface as it is otherwise.  With no point it draws
    nothing. *)
Theorem draw_eight_per_image_or_value_error (c : Cell) (surf : Surface) :
  ((3 <= length (_rel_pts c))%nat ->
   exists new,
     draw c surf = Ok (surf ++ new) /\
     length new = (8 * length (filter (visible c) (tiles c)))%nat /\
     (length new <= 72)%nat) /\
  ((length (_rel_pts c) < 3)%nat ->
   draw c surf
   = if existsb (visible c) (tiles c) then Raise ValueError else Ok surf) /\
  (length (_rel_pts c) = 0%nat -> draw c surf = Ok surf).
Proof.
  split; [|split].
  - intros Hl. exists (flat_map (tile_out c) (tiles c)).
    split; [exact (draw_out c surf Hl)|].
    rewrite tile_out_length. split; [reflexivity|].
    pose proof (filter_length_le (visible c) (tiles c)) as Hle.
    assert (Ht : length (tiles c) = 9%nat) by reflexivity. lia.
  - exact (draw_few c surf).
  - intros H0. rewrite draw_few by lia.
    assert (E : existsb (visible c) (tiles c) = false).
    { apply not_true_is_false. intros Ht.
      apply existsb_exists in Ht. destruct Ht as [t [_ Hv]].
      unfold visible in Hv. apply existsb_exists in Hv.
      destruct Hv as [p [Hp _]].
      destruct (tile_pts c (fst t) (snd t)) eqn:Et; [contradiction|].
      apply (f_equal (@length _)) in Et. rewrite tile_pts_length in Et.
      simpl in Et. lia. }
    now rewrite E.
Qed.











(* ------------------------------------------------------------------ *)
(** ** A frame, up to the cell layer                                   *)
(* ------------------------------------------------------------------ *)

Lemma rfold_out_on {A S : Type} (f : list S -> A -> result (list S))
      (out : A -> list S) (xs : list A) :
  Forall (fun x => forall s, f s x = Ok (s ++ out x)) xs ->
  forall s, rfold f xs s = Ok (s ++ flat_map out xs).
Proof.
  induction 1 as [|x t Hx _ IH]; intros s; simpl.
  - now rewrite app_nil_r.
  - rewrite Hx. simpl. rewrite IH. now rewrite app_assoc.
Qed.

Lemma rel_pts_shaped (c : Cell) :
  well_shaped c -> length (_rel_pts c) = vertices c.
Proof.
  intros (Hr & Ha & _). rewrite rel_pts_length, Hr, Ha.
  apply Nat.min_id.
Qed.

Lemma Forall2_transport {A : Type} (R : A -> A -> Prop) (P : A -> Prop)
      (xs ys : list A) :
  (forall x y, R x y -> P x -> P y) ->
  Forall2 R xs ys -> Forall P xs -> Forall P ys.
Proof.
  intros HR H2. induction H2 as [|x y xs ys Hxy _ IH]; intros HP;
    [constructor|].
  inversion HP; subst. constructor; [eapply HR; eassumption|auto].
Qed.

Section FrameLayer.
Context {G : Type} `{PyRandom G}.

(** X17.  A frame runs without fault up to and including the drawing of
    the cell layer.  When every cell is valid and has at least three
    vertices, the mask covers the field and the Brownian variance for
    the elapsed time is not negative, [get_frame] updates the cells and
    the cell layer is then built without fault: the grey fill
    [(235, 235, 235)] followed by eight primitives for each image of
    each cell that is on the screen, at most 72 per cell. *)
Theorem frame_draws_without_fault (s : Sim G) (mask : Mask) (now : R) :
  Forall (frame_ready mask (now - _last_time s)) (_cells s) ->
  Forall (fun c => (3 <= vertices c)%nat) (_cells s) ->
  exists s' drawn,
    get_frame s mask now = Ok s' /\
    cell_layer s' = Ok (Fill (235, 235, 235)%Z :: drawn) /\
    drawn = flat_map (fun c => flat_map (tile_out c) (tiles c)) (_cells s') /\
    (length drawn <= 72 * length (_cells s))%nat.
Proof.
  intros Hr H3. destruct (get_frame_returns s mask now Hr) as [s' [E Hr']].
  exists s', (flat_map (fun c => flat_map (tile_out c) (tiles c)) (_cells s')).
  split; [exact E|].
  assert (HF : Forall2 same_params (_cells s) (_cells s')).
  { unfold get_frame in E.
    destruct (tick mask (now - _last_time s) (_cells s) (rng s))
      as [[cs g]|] eqn:Et; [|discriminate].
    simpl in E. injection E as <-. simpl.
    exact (tick_related _ _ _ _ _ _ Et). }
  assert (H3' : Forall (fun c => (3 <= vertices c)%nat) (_cells s')).
  { apply (Forall2_transport same_params _ _ _ ) with (2 := HF); [|exact H3].
    intros x y Hxy Hx. destruct Hxy as (_ & _ & _ & _ & _ & Hv & _).
    rewrite Hv. exact Hx. }
  assert (HL : Forall (fun c => (3 <= length (_rel_pts c))%nat) (_cells s')).
  { rewrite Forall_forall in *. intros c Hc.
    rewrite rel_pts_shaped; [exact (H3' c Hc)|]. apply (Hr' c Hc). }
  split; [|split; [reflexivity|]].
  - unfold cell_layer.
    rewrite (rfold_out_on (fun surf c => draw c surf)
                          (fun c => flat_map (tile_out c) (tiles c))).
    + reflexivity.
    + rewrite Forall_forall in *. intros c Hc surf.
      apply draw_out. exact (HL c Hc).
  - rewrite (Forall2_length HF). clear.
    induction (_cells s') as [|c t IH]; [simpl; lia|].
    cbn [flat_map length]. rewrite length_app, tile_out_length.
    pose proof (filter_length_le (visible c) (tiles c)) as Hle.
    assert (Ht : length (tiles c) = 9%nat) by reflexivity. lia.
Qed.
End FrameLayer.

Lemma frame_draws_without_fault_witness :
  exists s' drawn,
    get_frame two_squares (bright_mask 512 512) (1 / 60) = Ok s' /\
    cell_layer s' = Ok (Fill (235, 235, 235)%Z :: drawn) /\
    drawn = flat_map (fun c => flat_map (tile_out c) (tiles c)) (_cells s') /\
    (length drawn <= 72 * length (_cells two_squares))%nat.
Proof.
  apply (frame_draws_without_fault two_squares (bright_mask 512 512) (1 / 60)).
  - exact two_squares_ready.
  - unfold two_squares. cbn [_cells].
    repeat (constructor; [unfold square_cell; cbn [vertices]; lia|]).
    constructor.
Defined.

(* ------------------------------------------------------------------ *)
(** ** [_conserve_area] as an operation on cells                       *)
(* ------------------------------------------------------------------ *)

Lemma conserve_area_target (c c' : Cell) :
  _conserve_area c = Ok c' -> shoelace (abs_pts c) <> 0 -> 0 <= area0 c.
Proof.
  unfold _conserve_area. intros E NZ.
  destruct (abs_pts c) as [|p ps] eqn:Ep; [discriminate|].
  rewrite <- Ep in *.
  rewrite polygon_area_shoelace in E by (rewrite Ep; discriminate).
  cbn [rbind] in E.
  assert (Hp : 0 < Rabs (shoelace (abs_pts c))) by (apply Rabs_pos_lt; exact NZ).
  destruct (Req_dec_T (Rabs (shoelace (abs_pts c))) 0) as [Z|_]; [lra|].
  unfold math_sqrt in E.
  destruct (Rlt_dec (area0 c / Rabs (shoelace (abs_pts c))) 0) as [Hn|Hn];
    [discriminate|].
  apply Rnot_lt_le in Hn.
  replace (area0 c) with (area0 c / Rabs (shoelace (abs_pts c))
                          * Rabs (shoelace (abs_pts c))) by (field; lra).
  apply Rmult_le_pos; lra.
Qed.

Lemma abs_pts_scaled (c : Cell) (s : R) :
  abs_pts (set_r c (map (fun x => x * s) (r c))) = shrunk c s.
Proof.
  unfold shrunk, abs_pts at 1. rewrite rel_pts_scaled.
  unfold abs_pts. rewrite !map_map. apply map_ext. intros p.
  cbn [fst snd center set_r]. f_equal; ring.
Qed.

(** X18.  [_conserve_area] on an outline of non-zero area is a
    projection onto the cells of the target area.  When it returns,
    every radius has been multiplied by [s = sqrt (area0 / area)], so
    the outline is the one it found contracted or expanded about the
    centre by [s]; centre, velocity and all parameters are kept; the
    area is now [area0]; and the factor by which a second call would
    rescale is 1. *)
Theorem conserve_area_is_projection (c c' : Cell) :
  _conserve_area c = Ok c' ->
  shoelace (abs_pts c) <> 0 ->
  let s := sqrt (area0 c / Rabs (shoelace (abs_pts c))) in
  same_params c c' /\ center c' = center c /\ vel c' = vel c /\
  r c' = map (fun x => x * s) (r c) /\
  abs_pts c' = shrunk c s /\
  Rabs (shoelace (abs_pts c')) = area0 c /\
  area_factor c' = 1.
Proof.
  intros E NZ s. pose proof (conserve_area_inv _ _ E) as (Hne & Ec & Hs).
  pose proof (conserve_area_target _ _ E NZ) as Ha.
  pose proof (conserve_area_exact _ _ E NZ Ha) as Hex.
  assert (Hp : 0 < Rabs (shoelace (abs_pts c))) by (apply Rabs_pos_lt; exact NZ).
  assert (Ef : area_factor c = s).
  { unfold area_factor.
    destruct (Req_dec_T (Rabs (shoelace (abs_pts c))) 0) as [Z|_]; [lra|].
    reflexivity. }
  rewrite Ef in Ec.
  split; [subst c'; unfold same_params; cbn; tauto|].
  split; [subst c'; reflexivity|]. split; [subst c'; reflexivity|].
  split; [subst c'; reflexivity|].
  split; [subst c'; apply abs_pts_scaled|].
  split; [exact Hex|].
  unfold area_factor. rewrite Hex.
  assert (Ea : area0 c' = area0 c) by (subst c'; reflexivity).
  rewrite Ea.
  destruct (Req_dec_T (area0 c) 0) as [_|NZa]; [reflexivity|].
  replace (area0 c / area0 c) with 1 by (field; exact NZa).
  apply sqrt_1.
Qed.

Lemma square_area_nonzero : shoelace (abs_pts (square_cell 0 100 100)) <> 0.
Proof.
  pose proof (regular_area_positive (square_cell 0 100 100)
                (square_cell_regular 0 100 100)) as Hpos.
  assert (0 < shoelace (abs_pts (square_cell 0 100 100))).
  { apply Hpos. simpl. repeat constructor; lra. }
  lra.
Qed.

Lemma conserve_area_is_projection_witness :
  exists c',
    _conserve_area (square_cell 0 100 100) = Ok c' /\
    shoelace (abs_pts (square_cell 0 100 100)) <> 0 /\
    let s := sqrt (area0 (square_cell 0 100 100)
                   / Rabs (shoelace (abs_pts (square_cell 0 100 100)))) in
    same_params (square_cell 0 100 100) c' /\
    center c' = center (square_cell 0 100 100) /\
    vel c' = vel (square_cell 0 100 100) /\
    r c' = map (fun x => x * s) (r (square_cell 0 100 100)) /\
    abs_pts c' = shrunk (square_cell 0 100 100) s /\
    Rabs (shoelace (abs_pts c')) = area0 (square_cell 0 100 100) /\
    area_factor c' = 1.
Proof.
  destruct (conserve_area_returns (square_cell 0 100 100)) as [c' E].
  - apply abs_pts_nonempty; simpl; lia.
  - apply PI_nonneg_area.
  - exists c'. split; [exact E|]. split; [exact square_area_nonzero|].
    exact (conserve_area_is_projection (square_cell 0 100 100) c' E
                                       square_area_nonzero).
Defined.

Lemma dot_zero_l (xs ys : list R) :
  Forall (fun x => x = 0) xs -> dot xs ys = 0.
Proof.
  intros Hx. revert ys. induction Hx as [|x t -> _ IH]; intros [|y u];
    simpl; try reflexivity.
  rewrite IH. ring.
Qed.

(** All vertices on the centre: every product of the shoelace sum is 0. *)
Lemma shoelace_collapsed (c : Cell) :
  Forall (fun x => x = 0) (r c) -> shoelace (abs_pts c) = 0.
Proof.
  intros Hr. rewrite abs_pts_shoelace, rel_pts_pairs.
  assert (Hz : Forall (fun p => fst p = 0 /\ snd p = 0)
                      (zip_with (fun a x => (cos a * x, sin a * x))
                                (angles c) (r c))).
  { revert Hr. generalize (angles c) (r c).
    induction l as [|a t IH]; intros [|x u] Hu; simpl; try constructor.
    - inversion Hu; subst. simpl. split; ring.
    - apply IH. now inversion Hu. }
  unfold shoelace.
  rewrite !dot_zero_l; [ring| |].
  - apply Forall_map. revert Hz. apply Forall_impl. intros p [_ E]. exact E.
  - apply Forall_map. revert Hz. apply Forall_impl. intros p [E _]. exact E.
Qed.

(** X19.  The faults and the skips of [_conserve_area].  Without any
    point it raises [IndexError] (the empty array has no columns).  It
    returns the cell as it is when all its radii are 0 (every vertex on
    the centre: the guard [if area:] keeps the division by the area
    from being reached) and when the outline is a single point.  With a
    non-zero area and a negative target area it raises [ValueError]
    (the square root of a negative ratio). *)
Theorem conserve_area_faults_and_skips (c : Cell) :
  (abs_pts c = [] -> _conserve_area c = Raise IndexError) /\
  (abs_pts c <> [] -> Forall (fun x => x = 0) (r c) ->
   _conserve_area c = Ok c) /\
  (length (abs_pts c) = 1%nat -> _conserve_area c = Ok c) /\
  (abs_pts c <> [] -> shoelace (abs_pts c) <> 0 -> area0 c < 0 ->
   _conserve_area c = Raise ValueError).
Proof.
  assert (Hzero : abs_pts c <> [] -> shoelace (abs_pts c) = 0 ->
                  _conserve_area c = Ok c).
  { intros Hne Z. unfold _conserve_area.
    rewrite (polygon_area_shoelace _ Hne). cbn [rbind]. rewrite Z, Rabs_R0.
    destruct (Req_dec_T 0 0) as [_|N]; [reflexivity|contradiction]. }
  split; [|split; [|split]].
  - intros E. unfold _conserve_area. rewrite E. reflexivity.
  - intros Hne Hr. apply (Hzero Hne). exact (shoelace_collapsed c Hr).
  - intros H1. apply Hzero.
    + intros E. rewrite E in H1. discriminate.
    + apply shoelace_single. exact H1.
  - intros Hne NZ Hneg. unfold _conserve_area.
    rewrite (polygon_area_shoelace _ Hne). cbn [rbind].
    assert (Hp : 0 < Rabs (shoelace (abs_pts c)))
      by (apply Rabs_pos_lt; exact NZ).
    destruct (Req_dec_T (Rabs (shoelace (abs_pts c))) 0) as [Z|_]; [lra|].
    unfold math_sqrt.
    destruct (Rlt_dec (area0 c / Rabs (shoelace (abs_pts c))) 0) as [_|Hn];
      [reflexivity|].
    exfalso. apply Hn.
    apply (Rmult_lt_reg_r (Rabs (shoelace (abs_pts c)))); [exact Hp|].
    replace (area0 c / Rabs (shoelace (abs_pts c)) * Rabs (shoelace (abs_pts c)))
      with (area0 c) by (field; lra).
    lra.
Qed.

(* ------------------------------------------------------------------ *)
(** ** The mask's shape, in [stimulate] and in the whole frame (C6)    *)
(* ------------------------------------------------------------------ *)


Section MaskShapeWhole.
Context {G : Type} `{PyRandom G} {N : Type} `{NumpyRandom N}.




Lemma cell_layer_returns (s : Sim G) :
  Forall (fun c => (3 <= length (_rel_pts c))%nat) (_cells s) ->
  exists drawn, cell_layer s = Ok (Fill (235, 235, 235)%Z :: drawn).
Proof.
  intros HL. unfold cell_layer.
  rewrite (rfold_out_on (fun surf c => draw c surf)
                        (fun c => flat_map (tile_out c) (tiles c))).
  - eexists. reflexivity.
  - rewrite Forall_forall in *. intros c Hc surf.
    apply draw_out. exact (HL c Hc).
Qed.

(** The physics of a frame over ready cells of three vertices or more
    returns cells of the same kind, which can be drawn. *)
Lemma get_frame_drawable (s : Sim G) (mask : Mask) (now : R) :
  Forall (frame_ready mask (now - _last_time s)) (_cells s) ->
  Forall (fun c => (3 <= vertices c)%nat) (_cells s) ->
  exists s',
    get_frame s mask now = Ok s' /\
    Forall (frame_ready mask (now - _last_time s)) (_cells s') /\
    Forall (fun c => (3 <= vertices c)%nat) (_cells s') /\
    Forall (fun c => (3 <= length (_rel_pts c))%nat) (_cells s') /\
    Forall2 same_params (_cells s) (_cells s').
Proof.
  intros Hr H3. destruct (get_frame_returns s mask now Hr) as [s' [E Hr']].
  exists s'. split; [exact E|]. split; [exact Hr'|].
  assert (HF : Forall2 same_params (_cells s) (_cells s')).
  { unfold get_frame in E.
    destruct (tick mask (now - _last_time s) (_cells s) (rng s))
      as [[cs g]|] eqn:Et; [|discriminate].
    simpl in E. injection E as <-. simpl.
    exact (tick_related _ _ _ _ _ _ Et). }
  assert (H3' : Forall (fun c => (3 <= vertices c)%nat) (_cells s')).
  { apply (Forall2_transport same_params _ _ _ ) with (2 := HF); [|exact H3].
    intros x y Hxy Hx. destruct Hxy as (_ & _ & _ & _ & _ & Hv & _).
    rewrite Hv. exact Hx. }
  split; [exact H3'|]. split; [|exact HF].
  rewrite Forall_forall in *. intros c Hc.
  rewrite rel_pts_shaped; [exact (H3' c Hc)|]. apply (Hr' c Hc).
Qed.
End MaskShapeWhole.







(* ------------------------------------------------------------------ *)
(** ** Sessions that return every frame                                *)
(* ------------------------------------------------------------------ *)

Section Sessions.
Context {G : Type} `{PyRandom G} {N : Type} `{NumpyRandom N}.

Lemma get_frame_time (s s' : Sim G) (mask : Mask) (now : R) :
  get_frame s mask now = Ok s' -> _last_time s' = now.
Proof.
  unfold get_frame.
  destruct (tick mask (now - _last_time s) (_cells s) (rng s)) as [[cs g]|];
    [|discriminate].
  simpl. intros E. now injection E as <-.
Qed.

Lemma newborn_steady (cfg : Config) (c : Cell) :
  (0 < cfg_width cfg)%Z -> (0 < cfg_height cfg)%Z ->
  (3 <= cfg_vertices cfg)%nat -> 0 <= cfg_brownian_d cfg ->
  newborn cfg c -> steady (cfg_width cfg) (cfg_height cfg) c.
Proof.
  intros Hw Hh Hv Hd
         (Ew & Eh & Ev & _ & Ed & _ & _ & _ & _ & _ & _ & Er & Ea & E0 & _ & Hf).
  unfold steady, valid, well_shaped. rewrite Ew, Eh, Ev, Ed, Er, Ea, E0.
  rewrite repeat_length, linspace_length.
  split; [|split; [exact Hv|split; [reflexivity|split; [reflexivity|exact Hd]]]].
  split; [exact Hw|]. split; [exact Hh|]. split; [exact Hf|].
  split; [split; [reflexivity|split; [reflexivity|lia]]|].
  apply PI_nonneg_area.
Qed.

Lemma frames_return (o : Optics) (w h : Z) (masks : list Mask) :
  0 <= noise_std o -> overlay_mask o = false ->
  Forall (fun m => (h <= Z.of_nat (shape0 m))%Z /\ (w <= Z.of_nat (shape1 m))%Z)
         masks ->
  forall (s : Sim G) (u : World N),
    Forall (steady w h) (_cells s) ->
    _last_time s <= readings u (reads u) ->
    (forall i, readings u (reads u + i) <= readings u (reads u + S i)) ->
    exists ps, frames o s masks u = map Ok ps /\ length ps = length masks.
Proof.
  intros Hn Ho Hm. induction Hm as [|m t [Hmh Hmw] _ IH]; intros s u Hc Ht Hmono.
  - exists []. split; reflexivity.
  - set (now := readings u (reads u)) in *.
    assert (Hr : Forall (frame_ready m (now - _last_time s)) (_cells s)).
    { rewrite Forall_forall in *. intros c Hin.
      destruct (Hc c Hin) as (Hval & _ & Ew & Eh & Hd).
      split; [exact Hval|]. rewrite Ew, Eh.
      split; [exact Hmh|]. split; [exact Hmw|].
      apply Rmult_le_pos; [exact Hd|lra]. }
    assert (Hv : Forall (fun c => (3 <= vertices c)%nat) (_cells s)).
    { rewrite Forall_forall in *. intros c Hin. apply (Hc c Hin). }
    destruct (get_frame_drawable s m now Hr Hv)
      as [s' [Eg [Hr' [Hv' [HL HF]]]]].
    destruct (cell_layer_returns s' HL) as [drawn El].
    assert (Hc' : Forall (steady w h) (_cells s')).
    { assert (Hkeep : Forall (fun c => width c = w /\ height c = h /\
                                        0 <= brownian_d c) (_cells s')).
      { apply (Forall2_transport same_params _ _ _) with (2 := HF).
        - intros x y (Ew & Eh & _ & _ & _ & _ & _ & Ed & _) (Hx & Hy & Hd).
          rewrite Ew, Eh, Ed. split; [exact Hx|split; [exact Hy|exact Hd]].
        - rewrite Forall_forall in *. intros c Hin.
          destruct (Hc c Hin) as (_ & _ & Ew & Eh & Hd).
          split; [exact Ew|split; [exact Eh|exact Hd]]. }
      rewrite Forall_forall in *. intros c Hin.
      destruct (Hkeep c Hin) as (Ew & Eh & Hd).
      split; [apply (Hr' c Hin)|]. split; [exact (Hv' c Hin)|].
      split; [exact Ew|split; [exact Eh|exact Hd]]. }
    destruct (microscope_filter_outcome o (cfg_width (config s'))
                (cfg_height (config s')) (Fill (235, 235, 235)%Z :: drawn)
                (np_random u))
      as [[Hneg _]|[noise [n' Ef]]]; [lra|].
    destruct (IH s' (mkWorld (readings u) (S (reads u)) n') Hc')
      as [ps [Eps Lps]].
    + rewrite (get_frame_time s s' m now Eg). cbn [readings reads].
      specialize (Hmono 0%nat). rewrite Nat.add_0_r, Nat.add_1_r in Hmono.
      exact Hmono.
    + intros i. cbn [readings reads]. specialize (Hmono (S i)).
      replace (reads u + S (S i))%nat with (S (reads u) + S i)%nat in Hmono
        by lia.
      replace (reads u + S i)%nat with (S (reads u) + i)%nat in Hmono by lia.
      exact Hmono.
    + exists (polygon_set (_cells s') :: ps). split; [|simpl; now rewrite Lps].
      cbn [frames map]. unfold MicroscopeSim_get_frame, perf_counter.
      cbn [fst snd readings reads np_random]. fold now.
      rewrite Eg. cbn [rbind]. rewrite El. cbn [rbind].
      rewrite Ef. cbn [rbind fst snd]. rewrite Ho.
      now rewrite Eps.
Qed.

(** A session on a well-formed configuration, with masks that cover the
    field, the overlay off and a clock that does not run backwards,
    hands out a polygon set for every mask. *)
Lemma session_returns (o : Optics) (cfg : Config) (masks : list Mask)
      (u : World N) :
  (0 < cfg_width cfg)%Z -> (0 < cfg_height cfg)%Z ->
  0 < cfg_base_radius cfg -> (3 <= cfg_vertices cfg)%nat ->
  0 <= cfg_brownian_d cfg ->
  0 <= noise_std o -> overlay_mask o = false ->
  Forall (fun m => (cfg_height cfg <= Z.of_nat (shape0 m))%Z /\
                   (cfg_width cfg <= Z.of_nat (shape1 m))%Z) masks ->
  (forall i, readings u (reads u + i) <= readings u (reads u + S i)) ->
  exists ps,
    session (G := G) o cfg masks u = map Ok ps /\ length ps = length masks.
Proof.
  intros Hw Hh Hb Hv Hd Hn Ho Hm Hmono.
  unfold session, MicroscopeSim_init, perf_counter, Sim_init.
  cbn [fst snd readings reads np_random].
  destruct (make_cells_returns cfg (cfg_nb_cells cfg)
                               (seed_rng (cfg_rng_seed cfg))) as [cs [g E]].
  rewrite E. cbn [rbind fst snd].
  destruct (make_cells_newborn cfg Hw Hh Hb _ _ _ _ E) as [_ Hnew].
  apply (frames_return o (cfg_width cfg) (cfg_height cfg) masks Hn Ho Hm).
  - cbn [_cells]. rewrite Forall_forall in *. intros c Hin.
    apply newborn_steady; try assumption. exact (Hnew c Hin).
  - cbn [_last_time readings reads].
    specialize (Hmono 0%nat). rewrite Nat.add_0_r, Nat.add_1_r in Hmono.
    exact Hmono.
  - intros i. cbn [readings reads]. specialize (Hmono (S i)).
    replace (reads u + S (S i))%nat with (S (reads u) + S i)%nat in Hmono
      by lia.
    replace (reads u + S i)%nat with (S (reads u) + i)%nat in Hmono by lia.
    exact Hmono.
Qed.
End Sessions.

Lemma steady_clock_step (t0 : R) (i : nat) :
  steady_clock t0 (S i) - steady_clock t0 i = 1 / 60.
Proof. unfold steady_clock. rewrite S_INR. lra. Qed.

Lemma same_seed_same_trajectory_witness :
  session (G := Tape) default_optics (square_config 2 0.06 1)
          [bright_mask 512 512; dark_mask 512 512]
          (mkWorld (steady_clock 0) 0 [0.3; -1.2])
  = session (G := Tape) default_optics (square_config 2 0.06 1)
            [bright_mask 512 512; dark_mask 512 512]
            (mkWorld (steady_clock 1000) 7 [2; 5; 1]) /\
  exists p1 p2,
    session (G := Tape) default_optics (square_config 2 0.06 1)
            [bright_mask 512 512; dark_mask 512 512]
            (mkWorld (steady_clock 0) 0 [0.3; -1.2])
    = [Ok p1; Ok p2].
Proof.
  split.
  - apply (same_seed_same_trajectory
             default_optics (square_config 2 0.06 1)
             [bright_mask 512 512; dark_mask 512 512]
             (mkWorld (steady_clock 0) 0 [0.3; -1.2])
             (mkWorld (steady_clock 1000) 7 [2; 5; 1])).
    intros i. cbn [readings reads].
    replace (0 + S i)%nat with (S (0 + i)) by lia.
    replace (7 + S i)%nat with (S (7 + i)) by lia.
    now rewrite !steady_clock_step.
  - destruct (session_returns (G := Tape)
                default_optics (square_config 2 0.06 1)
                [bright_mask 512 512; dark_mask 512 512]
                (mkWorld (steady_clock 0) 0 [0.3; -1.2])) as [ps [E L]];
      try (simpl; (reflexivity || lia || lra)).
    + repeat constructor; simpl; lia.
    + intros i. cbn [readings reads].
      replace (0 + S i)%nat with (S (0 + i)) by lia.
      pose proof (steady_clock_step 0 (0 + i)). lra.
    + destruct ps as [|p1 [|p2 [|p3 t]]]; try discriminate.
      exists p1, p2. exact E.
Defined.
